(** * ai-check: the scoring pipeline of [app.py]

    A shallow embedding of the analyzer functions of [app.py]
    ([run_pylint], [cc_to_score], [halstead_scores],
    [analyze_code_string]) and of the part of the [index] route that
    touches the result history, followed by the properties of the
    specification that hold of them.

    Python values are modelled as follows.
    - [float] is IEEE-754 binary64, as [spec_float] with the operations of
      the standard library's [SpecFloat] at precision 53 and [emax] 1024.
    - [str] is [string]; a character is one of the code points 0..255.
    - an exception is a value of [exn]; code that may raise returns [Res].
    - the external collaborators (the pylint subprocess, radon's
      [cc_visit], [cc_rank] and [h_visit], [math.log10], [uuid.uuid4],
      [os.remove]) are the fields of an environment record [Env]. *)

From Stdlib Require Import ZArith QArith Qround Qpower Lia Lqa Bool Ascii String.
From Stdlib Require Import SpecFloat.
From stdpp Require Import gmap strings list pretty.

Open Scope Z_scope.

(** ** Python floats *)

Module PyFloat.

Definition prec : Z := 53.
Definition emax : Z := 1024.

Definition float := spec_float.

Definition fadd : float -> float -> float := SFadd prec emax.
Definition fsub : float -> float -> float := SFsub prec emax.
Definition fmul : float -> float -> float := SFmul prec emax.
Definition fdiv : float -> float -> float := SFdiv prec emax.

(** The value of a float in the extended rationals. *)
Inductive xval :=
| XNaN
| XNegInf
| XFin (q : Q)
| XPosInf.

Definition pow2 (e : Z) : Q := Qpower 2 e.

Definition value (x : float) : xval :=
  match x with
  | S754_nan => XNaN
  | S754_infinity true => XNegInf
  | S754_infinity false => XPosInf
  | S754_zero _ => XFin 0
  | S754_finite s m e =>
      XFin (inject_Z (if s then Z.neg m else Z.pos m) * pow2 e)
  end.

(** Comparison of floats is comparison of their values; a NaN is
    unordered. *)
Definition fcompare (x y : float) : option comparison :=
  match value x, value y with
  | XNaN, _ | _, XNaN => None
  | XNegInf, XNegInf => Some Eq
  | XNegInf, _ => Some Lt
  | _, XNegInf => Some Gt
  | XPosInf, XPosInf => Some Eq
  | XPosInf, _ => Some Gt
  | _, XPosInf => Some Lt
  | XFin p, XFin q => Some (Qcompare p q)
  end.

(** [x < y], [x <= y], [x > y], [x >= y], [x == y] *)
Definition flt (x y : float) : bool :=
  match fcompare x y with Some Lt => true | _ => false end.
Definition fle (x y : float) : bool :=
  match fcompare x y with Some Lt | Some Eq => true | _ => false end.
Definition fgt (x y : float) : bool := flt y x.
Definition fge (x y : float) : bool := fle y x.
Definition feq (x y : float) : bool :=
  match fcompare x y with Some Eq => true | _ => false end.

(** [float(n)] for an integer [n], and the float nearest to
    [n / 10^k]: what a decimal literal with [k] fractional digits
    denotes. *)
Definition of_Z (n : Z) : float := binary_normalize prec emax n 0 false.

Definition of_decimal (s : bool) (n : N) (k : nat) : float :=
  match n with
  | N0 => S754_zero s
  | Npos p => fdiv (S754_finite s p 0) (S754_finite false (Z.to_pos (10 ^ Z.of_nat k)) 0)
  end.

(** [a / b] on integers: the correctly rounded quotient. The caller has
    excluded [b = 0]. *)
Definition int_truediv (a b : Z) : float :=
  match a, b with
  | Z0, Zneg _ => S754_zero true
  | Z0, _ => S754_zero false
  | Zpos p, Zpos q => fdiv (S754_finite false p 0) (S754_finite false q 0)
  | Zpos p, Zneg q => fdiv (S754_finite false p 0) (S754_finite true q 0)
  | Zneg p, Zpos q => fdiv (S754_finite true p 0) (S754_finite false q 0)
  | Zneg p, Zneg q => fdiv (S754_finite true p 0) (S754_finite true q 0)
  | _, Z0 => S754_nan
  end.

(** Rounding a non-negative rational to the nearest integer, ties to
    even. *)
Definition round_half_even (q : Q) : Z :=
  let f := Qfloor q in
  match Qcompare (q - inject_Z f) (1 # 2) with
  | Lt => f
  | Gt => f + 1
  | Eq => if Z.even f then f else f + 1
  end.

(** [round(x, 2)]: the decimal with two fractional digits nearest to the
    exact value of [x] (ties to even), converted back to a float. An
    infinity or a NaN rounds to itself; the sign is kept. *)
Definition round2 (x : float) : float :=
  match x with
  | S754_finite s m e =>
      of_decimal s (Z.to_N (round_half_even (100 * (inject_Z (Z.pos m) * pow2 e)))) 2
  | _ => x
  end.

(** The builtins [min(a, b)] and [max(a, b)]: the first argument is kept
    unless the second is strictly smaller (larger). *)
Definition py_min (a b : float) : float := if flt b a then b else a.
Definition py_max (a b : float) : float := if fgt b a then b else a.

(** [max(l)] on a non-empty list and [sum(l)], [sum] starting from the
    integer 0 and adding from left to right, each addition rounded (the
    interpreters that compensate the rounding errors of [sum] differ
    from it in the last bits of the total). *)
Definition py_max_list (x : float) (l : list float) : float := fold_left py_max l x.
Definition py_sum (l : list float) : float := fold_left fadd l (S754_zero false).

Definition f0 : float := S754_zero false.
Definition f1 : float := Eval vm_compute in of_Z 1.
Definition f2 : float := Eval vm_compute in of_Z 2.
Definition f10 : float := Eval vm_compute in of_Z 10.

(** A sub-score is in range when [0 <= x <= 10]. *)
Definition in_range (x : float) : bool := fle f0 x && fle x f10.

(** *** Vocabulary of the rounding proofs *)

(** No bit has been shifted out of a mantissa so far. *)
Definition rec_exact (r : shr_record) : bool := negb (shr_r r) && negb (shr_s r).

(** The real [x] lies in the interval that the truncated mantissa [m]
    at exponent [e] stands for, and the location is exact when [x] is
    the lower end of the interval. *)
Definition inb (x : Q) (m e : Z) (l : location) : Prop :=
  (inject_Z m * pow2 e <= x)%Q /\ (x < inject_Z (m + 1) * pow2 e)%Q /\
  ((x == inject_Z m * pow2 e)%Q -> l = loc_Exact).

(** The number [g * 2^eb] that a bound is given as. *)
Definition bound (g eb : Z) : Q := (inject_Z g * pow2 eb)%Q.

(** The floats above zero, those at or below zero, and those from ten
    upwards; none of them holds of a NaN. *)
Definition positive_float (x : float) : Prop :=
  match x with
  | S754_finite false _ _ | S754_infinity false => True
  | _ => False
  end.

Definition nonpositive_float (x : float) : Prop :=
  match x with
  | S754_zero _ | S754_finite true _ _ | S754_infinity true => True
  | _ => False
  end.

Definition at_least_ten (y : float) : Prop :=
  match y with
  | S754_infinity false => True
  | S754_finite false m e => (bound 10 0 <= inject_Z (Z.pos m) * pow2 e)%Q
  | _ => False
  end.

(** The floats of sign [s] whose magnitude is [g] or more. *)
Definition magnitude_from (g : Z) (s : bool) (x : float) : Prop :=
  match x with
  | S754_infinity s' => s' = s
  | S754_finite s' m e => s' = s /\ (bound g 0 <= inject_Z (Z.pos m) * pow2 e)%Q
  | _ => False
  end.

(** [clamp(x, lo, hi)] as the specification writes it: [lo] below
    [lo], [hi] above [hi], [x] itself in between. *)
Definition clamp (x lo hi : float) : float :=
  if flt x lo then lo else if fgt x hi then hi else x.

(** Case analysis on every comparison of rationals in sight, given the
    lemma [cases] that lists what a comparison can return. *)
Ltac qcases cases :=
  repeat match goal with
    | |- context [Qcompare ?p ?q] =>
        let H := fresh "Hc" in let H' := fresh "Hq" in
        destruct (cases p q) as [[H H']|[[H H']|[H H']]]; rewrite H in *; clear H
    | H0 : context [Qcompare ?p ?q] |- _ =>
        let H := fresh "Hc" in let H' := fresh "Hq" in
        destruct (cases p q) as [[H H']|[[H H']|[H H']]]; rewrite H in *; clear H
    end.

Ltac order_cases cases :=
  try congruence; qcases cases; try congruence; try (exfalso; lra).

End PyFloat.
Import PyFloat.

(** ** Exceptions *)

(** The classes of exception the collaborators raise. [KeyboardInterrupt]
    stands for the exceptions that derive from [BaseException] only, which
    an [except Exception] clause lets through. *)
Inductive exn_class :=
| FileNotFoundError
| TimeoutExpired
| ValueError
| TypeError
| ZeroDivisionError
| SyntaxError
| PermissionError
| OSError
| OtherException
| KeyboardInterrupt.

Record exn := Exn { exn_cls : exn_class; exn_str : string }.

Definition is_Exception (e : exn) : bool :=
  match exn_cls e with
  | KeyboardInterrupt => false
  | _ => true
  end.

Inductive Res (A : Type) :=
| Ok (a : A)
| Raise (e : exn).
Arguments Ok {A} a.
Arguments Raise {A} e.

Definition bind {A B} (m : Res A) (f : A -> Res B) : Res B :=
  match m with
  | Ok a => f a
  | Raise e => Raise e
  end.

Notation "'do' x <- m ; k" := (bind m (fun x => k))
  (at level 10, x name, m at level 100, k at level 200).
Notation "'do' ' p <- m ; k" := (bind m (fun x => match x with p => k end))
  (at level 10, p pattern, m at level 100, k at level 200).

(** [try: body / except Exception as e: handler e] *)
Definition try_except {A} (body : Res A) (handler : exn -> Res A) : Res A :=
  match body with
  | Ok a => Ok a
  | Raise e => if is_Exception e then handler e else Raise e
  end.

Definition raised {A} (m : Res A) : bool :=
  match m with
  | Ok _ => false
  | Raise _ => true
  end.

(** ** Regular expressions: the fragment of [re] the two patterns use *)

Module Regex.

Definition code (c : ascii) : N := N_of_ascii c.

(** [\d] and [\s] on the code points 0..255. *)
Definition is_digit (c : ascii) : bool :=
  ((48 <=? code c) && (code c <=? 57))%N.

Definition is_space (c : ascii) : bool :=
  (((9 <=? code c) && (code c <=? 13))
   || ((28 <=? code c) && (code c <=? 32))
   || (code c =? 133) || (code c =? 160))%N.

Definition lower (c : ascii) : ascii :=
  if ((65 <=? code c) && (code c <=? 90))%N then ascii_of_N (code c + 32) else c.

Inductive regex :=
| Lit (c : ascii)
| LitI (c : ascii)
| Digit
| Space
| Seq (r1 r2 : regex)
| Opt (r : regex)
| Star (r : regex)
| Plus (r : regex)
| Group (r : regex).

(** The state of a match attempt: the text still to read, the
    characters read since the innermost open group (latest first), and
    what group 1 holds. *)
Record mstate := MState {
  rest : list ascii;
  taken : list ascii;
  group1 : option (list ascii)
}.

Definition step {R} (p : ascii -> bool) (st : mstate) (k : mstate -> option R) : option R :=
  match rest st with
  | c :: s => if p c then k (MState s (c :: taken st) (group1 st)) else None
  | [] => None
  end.

Definition orelse {R} (a b : option R) : option R :=
  match a with
  | Some x => Some x
  | None => b
  end.

(** Greedy repetition: as many rounds of [body] as possible, fewer on
    backtracking. A round reads at least one character, so the length
    of the text bounds the number of rounds. *)
Fixpoint repeat {R} (body : mstate -> (mstate -> option R) -> option R)
    (n : nat) (st : mstate) (k : mstate -> option R) : option R :=
  match n with
  | O => k st
  | S n' => orelse (body st (fun st' => repeat body n' st' k)) (k st)
  end.

(** Backtracking matcher in continuation-passing style: [rmatch r st k]
    matches [r] at the front of [rest st] and hands the state after the
    match to [k]; when [k] fails the alternatives of [r] are tried in
    the order of [re]. *)
Fixpoint rmatch {R} (r : regex) (st : mstate) (k : mstate -> option R) : option R :=
  match r with
  | Lit c => step (Ascii.eqb c) st k
  | LitI c => step (fun a => Ascii.eqb (lower a) (lower c)) st k
  | Digit => step is_digit st k
  | Space => step is_space st k
  | Seq r1 r2 => rmatch r1 st (fun st' => rmatch r2 st' k)
  | Opt r1 => orelse (rmatch r1 st k) (k st)
  | Star r1 => repeat (rmatch r1) (length (rest st)) st k
  | Plus r1 => rmatch r1 st (fun st' => repeat (rmatch r1) (length (rest st')) st' k)
  | Group r1 =>
      rmatch r1 (MState (rest st) [] (group1 st))
        (fun st' => k (MState (rest st') (taken st' ++ taken st) (Some (rev (taken st')))))
  end.

(** A match object: all that is asked of it is [group(1)]. *)
Record match_obj := MatchObj { group : option string }.

Definition match_at (r : regex) (s : list ascii) : option match_obj :=
  rmatch r (MState s [] None)
    (fun st => Some (MatchObj (option_map string_of_list_ascii (group1 st)))).

Fixpoint search_from (r : regex) (s : list ascii) : option match_obj :=
  match match_at r s with
  | Some m => Some m
  | None =>
      match s with
      | [] => None
      | _ :: s' => search_from r s'
      end
  end.

(** [re.search(r, s)]: the match at the leftmost position that has one. *)
Definition search (r : regex) (s : string) : option match_obj :=
  search_from r (list_ascii_of_string s).

Fixpoint seq_of (rs : list regex) (last : regex) : regex :=
  match rs with
  | [] => last
  | r :: rs' => Seq r (seq_of rs' last)
  end.

Definition literal (f : ascii -> regex) (s : string) : list regex :=
  map f (list_ascii_of_string s).

(** [(-?\d+(?:\.\d+)?)] *)
Definition number : regex :=
  Group (Seq (Opt (Lit "-")) (Seq (Plus Digit) (Opt (Seq (Lit ".") (Plus Digit))))).

(** [\s*/\s*10] *)
Definition out_of_ten : regex :=
  Seq (Star Space) (Seq (Lit "/") (Seq (Star Space) (Seq (Lit "1") (Lit "0")))).

(** [r"rated at\s+(-?\d+(?:\.\d+)?)\s*/\s*10"] with [re.IGNORECASE] *)
Definition rated_at : regex :=
  seq_of (literal LitI "rated at") (Seq (Plus Space) (Seq number out_of_ten)).

(** [r"(-?\d+(?:\.\d+)?)\s*/\s*10"] *)
Definition any_over_ten : regex := Seq number out_of_ten.

(** *** The words of a pattern

    [Reach r st st']: reading a word of [r] at the front of [rest st]
    leads from the state [st] to the state [st']. *)
Inductive Reach : regex -> mstate -> mstate -> Prop :=
| R_lit c st s :
    rest st = c :: s ->
    Reach (Lit c) st (MState s (c :: taken st) (group1 st))
| R_liti c a st s :
    rest st = a :: s -> Ascii.eqb (lower a) (lower c) = true ->
    Reach (LitI c) st (MState s (a :: taken st) (group1 st))
| R_digit a st s :
    rest st = a :: s -> is_digit a = true ->
    Reach Digit st (MState s (a :: taken st) (group1 st))
| R_space a st s :
    rest st = a :: s -> is_space a = true ->
    Reach Space st (MState s (a :: taken st) (group1 st))
| R_seq r1 r2 st st1 st2 :
    Reach r1 st st1 -> Reach r2 st1 st2 -> Reach (Seq r1 r2) st st2
| R_opt_some r st st' : Reach r st st' -> Reach (Opt r) st st'
| R_opt_none r st : Reach (Opt r) st st
| R_star_nil r st : Reach (Star r) st st
| R_star_cons r st st1 st2 :
    Reach r st st1 -> Reach (Star r) st1 st2 -> Reach (Star r) st st2
| R_plus r st st1 st2 :
    Reach r st st1 -> Reach (Star r) st1 st2 -> Reach (Plus r) st st2
| R_group r st st' :
    Reach r (MState (rest st) [] (group1 st)) st' ->
    Reach (Group r) st (MState (rest st') (taken st' ++ taken st) (Some (rev (taken st')))).

Fixpoint group_free (r : regex) : bool :=
  match r with
  | Group _ => false
  | Seq r1 r2 => group_free r1 && group_free r2
  | Opt r1 | Star r1 | Plus r1 => group_free r1
  | _ => true
  end.

End Regex.

(** ** Strings *)

Definition nl : string := String (ascii_of_N 10) EmptyString.

Fixpoint lstrip (s : list ascii) : list ascii :=
  match s with
  | c :: s' => if Regex.is_space c then lstrip s' else s
  | [] => []
  end.

(** [s.strip()] *)
Definition strip (s : string) : string :=
  string_of_list_ascii
    (rev (lstrip (rev (lstrip (list_ascii_of_string s))))).

(** [x or ""] for an attribute that is a string or [None]. *)
Definition or_empty (x : option string) : string := default EmptyString x.

(** [os.path.join(a, b)] for a relative [b]. *)
Definition path_join (a b : string) : string :=
  match rev (list_ascii_of_string a) with
  | [] => b
  | c :: _ => if Ascii.eqb c "/" then a +:+ b else a +:+ "/" +:+ b
  end.

(** ** [float(s)] on decimal literals *)

Definition digit_val (c : ascii) : N := (Regex.code c - 48)%N.

(** Reads the longest run of digits: its value after [acc], its length
    and the text after it. *)
Fixpoint read_digits (s : list ascii) (acc : N) (cnt : nat) : N * nat * list ascii :=
  match s with
  | c :: s' =>
      if Regex.is_digit c then read_digits s' (10 * acc + digit_val c)%N (S cnt)
      else (acc, cnt, s)
  | [] => (acc, cnt, [])
  end.

(** The sign in front of a literal, and the text after it. *)
Definition split_sign (s : list ascii) : bool * list ascii :=
  match s with
  | c :: s' =>
      if Ascii.eqb c "-" then (true, s')
      else if Ascii.eqb c "+" then (false, s')
      else (false, s)
  | [] => (false, s)
  end.

Definition bad_literal (s : string) : exn :=
  Exn ValueError ("could not convert string to float: " +:+ s).

(** [float(x)] where [x] is [None] or a string of the shape
    sign, digits, optional point and digits. [float] accepts further
    spellings (exponents, [inf], padding); they are reported as
    [ValueError] here, and [search_float] shows the two patterns
    never capture one. *)
Definition py_float (x : option string) : Res float :=
  match x with
  | None => Raise (Exn TypeError "float() argument must be a string or a real number, not 'NoneType'")
  | Some str =>
      let s := list_ascii_of_string str in
      let '(neg, s1) := split_sign s in
      let '(n, cnt, s2) := read_digits s1 0%N 0%nat in
      match cnt, s2 with
      | O, _ => Raise (bad_literal str)
      | _, [] => Ok (of_decimal neg n 0)
      | _, c :: s3 =>
          if Ascii.eqb c "." then
            let '(n', cnt', s4) := read_digits s3 n 0%nat in
            match cnt', s4 with
            | S _, [] => Ok (of_decimal neg n' cnt')
            | _, _ => Raise (bad_literal str)
            end
          else Raise (bad_literal str)
      end
  end.

(** *** Decimal literals

    The value of a run of digits read after [acc]. *)
Definition digits_value (ds : list ascii) (acc : N) : N :=
  fold_left (fun a c => (10 * a + digit_val c)%N) ds acc.

Definition all_digits (ds : list ascii) : Prop :=
  Forall (fun c => Regex.is_digit c = true) ds.

(** A decimal literal: an optional minus sign, digits, and optionally a
    point and more digits. *)
Definition decimal (neg : bool) (ds : list ascii) (frac : option (list ascii)) : list ascii :=
  (if neg then ["-"%char] else []) ++ ds ++
  match frac with
  | Some fs => "."%char :: fs
  | None => []
  end.

Definition well_formed (ds : list ascii) (frac : option (list ascii)) : Prop :=
  ds <> [] /\ all_digits ds /\
  match frac with
  | Some fs => fs <> [] /\ all_digits fs
  | None => True
  end.

(** The float a literal denotes. *)
Definition literal_value (neg : bool) (ds : list ascii) (frac : option (list ascii)) : float :=
  match frac with
  | Some fs => of_decimal neg (digits_value (ds ++ fs) 0) (length fs)
  | None => of_decimal neg (digits_value ds 0) 0
  end.

(** *** Texts that hold a rating

    Blanks, a word that is [w] up to the case of its letters, and the
    text [<literal> / 10] with optional blanks around the slash, followed
    by anything. *)
Definition spaces (sp : list ascii) : Prop :=
  Forall (fun c => Regex.is_space c = true) sp.

Definition same_letters (ws w : list ascii) : Prop :=
  Forall2 (fun a c => Ascii.eqb (Regex.lower a) (Regex.lower c) = true) ws w.

Definition ten_after (sp1 sp2 post : list ascii) : list ascii :=
  sp1 ++ "/"%char :: sp2 ++ "1"%char :: "0"%char :: post.

Definition rating_text (neg : bool) (ds : list ascii) (frac : option (list ascii))
    (sp1 sp2 post : list ascii) : list ascii :=
  decimal neg ds frac ++ ten_after sp1 sp2 post.

(** Texts in which no character is of a given kind. *)
Definition lacks (p : ascii -> bool) (s : list ascii) : Prop :=
  Forall (fun c => p c = false) s.

(** The letter r in either case: the first character of a match of
    [rated_at]. *)
Definition is_r (c : ascii) : bool := Ascii.eqb (Regex.lower c) (Regex.lower "r").

(** A digit or a minus sign: the first character of a match of
    [any_over_ten]. *)
Definition starts_number (c : ascii) : bool := Regex.is_digit c || Ascii.eqb "-" c.

Definition is_slash (c : ascii) : bool := Ascii.eqb "/" c.

(** Every word of [r] holds the character [c]. *)
Fixpoint must_read (c : ascii) (r : Regex.regex) : bool :=
  match r with
  | Regex.Lit c' => Ascii.eqb c' c
  | Regex.Seq r1 r2 => must_read c r1 || must_read c r2
  | Regex.Plus r1 | Regex.Group r1 => must_read c r1
  | _ => false
  end.

(** [s] starts with the word [w], whatever the case of the letters, and
    no position of [pre] in [pre ++ rest] starts with it. *)
Fixpoint word_at (w s : list ascii) : bool :=
  match w, s with
  | [], _ => true
  | c :: w', a :: s' => Ascii.eqb (Regex.lower a) (Regex.lower c) && word_at w' s'
  | _ :: _, [] => false
  end.

Fixpoint free_of (w pre rest : list ascii) : bool :=
  match pre with
  | [] => true
  | _ :: pre' => negb (word_at w (pre ++ rest)) && free_of w pre' rest
  end.

Definition rated_word : list ascii := list_ascii_of_string "rated at".

(** [output] holds the phrase [rated at <literal> / 10], in any case of
    the letters, and the words [rated at] do not occur before it;
    [output] holds [<literal> / 10] and neither a digit nor a minus sign
    before it. *)
Definition first_rated_at (output : string) (neg : bool) (ds : list ascii)
    (frac : option (list ascii)) : Prop :=
  exists pre ws sp0 sp1 sp2 post,
    output = string_of_list_ascii (pre ++ ws ++ sp0 ++ rating_text neg ds frac sp1 sp2 post) /\
    free_of rated_word pre (ws ++ sp0 ++ rating_text neg ds frac sp1 sp2 post) = true /\
    same_letters ws rated_word /\
    sp0 <> [] /\ spaces sp0 /\ spaces sp1 /\ spaces sp2.

Definition first_over_ten (output : string) (neg : bool) (ds : list ascii)
    (frac : option (list ascii)) : Prop :=
  exists pre sp1 sp2 post,
    output = string_of_list_ascii (pre ++ rating_text neg ds frac sp1 sp2 post) /\
    lacks starts_number pre /\ spaces sp1 /\ spaces sp2.

(** The words [rated at] occur nowhere in [output]. *)
Definition no_rated_at (output : string) : Prop :=
  free_of rated_word (list_ascii_of_string output) [] = true.

(** The lines [rated at <literal>/10] and [<literal>/10]. *)
Definition bare_line (lit : list ascii) : string :=
  string_of_list_ascii (lit ++ list_ascii_of_string "/10").

Definition rated_line (lit : list ascii) : string :=
  string_of_list_ascii (list_ascii_of_string "rated at " ++ lit ++ list_ascii_of_string "/10").

(** [a / b] on integers. *)
Definition py_truediv (a b : Z) : Res float :=
  if b =? 0 then Raise (Exn ZeroDivisionError "division by zero")
  else Ok (int_truediv a b).

(** ** The collaborators *)

Record CompletedProcess := {
  stdout : option string;
  stderr : option string
}.

(** What radon reports for one block of code. *)
Record Block := { complexity : Z }.

(** An item of what [h_visit] returns; an item may lack either attribute. *)
Record HalsteadItem := {
  effort : option float;
  bugs : option float
}.

Record Env := {
  gettempdir : string;
  (** the hex form of the [n]-th uuid drawn *)
  uuid4_hex : nat -> string;
  (** [with open(path, "w", encoding="utf-8") as f: f.write(text)] in a
      file system: [None] when the text has been written; otherwise what
      the statement raises and the file system it leaves behind *)
  write_text : string -> string -> gmap string string -> option (exn * gmap string string);
  (** [subprocess.run(cmd, capture_output=True, text=True, check=False,
      timeout=t)] in a file system: what the caller gets back. What the
      tool itself writes to the disk is not part of the model. *)
  subprocess_run : list string -> Z -> gmap string string -> Res CompletedProcess;
  cc_visit : string -> Res (list Block);
  (** radon's [cc_rank] at the complexity of a block; radon gives every
      block a complexity of 1 or more, and its [cc_rank] raises
      [ValueError] below 0 *)
  cc_rank : Z -> string;
  h_visit : string -> Res (list HalsteadItem);
  (** the libm function behind [math.log10] *)
  log10 : float -> float;
  (** [os.remove(path)]: the file system without the file, or an error *)
  os_remove : string -> gmap string string -> Res (gmap string string)
}.

(** ** The result record and the state of the process *)

Record AnalysisResult := {
  pylint_score : float;
  pylint_output : string;
  cc_score : float;
  effort_score : float;
  bug_score : float;
  raw_effort : float;
  raw_bugs : float;
  test_pass_rate : string;
  maintainability : string
}.

Record World := {
  files : gmap string string;
  (** how many uuids have been drawn *)
  uuids : nat;
  (** the attribute [app.all_results]; [None] until [index] creates it *)
  all_results : option (list AnalysisResult)
}.

(** ** Analyzer functions *)

Section Analyzer.

Variable E : Env.

(** One of the two attempts of lines 38-53 of [run_pylint]:
    [if m: try: return round(float(m.group(1)), 2), output
           except Exception: pass]
    followed by the rest of the function. *)
Definition rating_or (m : option Regex.match_obj) (output : string)
    (otherwise : Res (float * string)) : Res (float * string) :=
  match m with
  | Some m =>
      try_except
        (do score <- py_float (Regex.group m); Ok (round2 score, output))
        (fun _ => otherwise)
  | None => otherwise
  end.

(** Lines 38-53 of [run_pylint]: the rating in the output of the tool. *)
Definition parse_rating (output : string) : Res (float * string) :=
  rating_or (Regex.search Regex.rated_at output) output
    (rating_or (Regex.search Regex.any_over_ten output) output
       (Ok (f0, output))).

Definition run_pylint (fs : gmap string string) (filename : string)
    (disable_import_error : bool) (timeout_s : Z) : Res (float * string) :=
  let cmd := ["pylint"; "--score=y"] in
  let cmd := if disable_import_error then cmd ++ ["--disable=import-error"] else cmd in
  let cmd := cmd ++ [filename] in
  match subprocess_run E cmd timeout_s fs with
  | Ok result =>
      let output := or_empty (stdout result) +:+ nl +:+ or_empty (stderr result) in
      parse_rating output
  | Raise e =>
      match exn_cls e with
      | FileNotFoundError => Ok (f0, "Pylint not found. Install pylint (`pip install pylint`).")
      | TimeoutExpired => Ok (f0, "Pylint timed out.")
      | _ =>
          if is_Exception e then Ok (f0, "Pylint error: " +:+ exn_str e)
          else Raise e
      end
  end.

Definition mapping : gmap string Z :=
  list_to_map [("A", 10); ("B", 8); ("C", 6); ("D", 4); ("E", 2); ("F", 0)].

Definition cc_to_score (cc_results : list Block) : Res float :=
  match cc_results with
  | [] => Ok f10
  | _ =>
      let scores := map (fun r => default 0 (mapping !! cc_rank E (complexity r))) cc_results in
      do mean <- py_truediv (fold_left Z.add scores 0) (Z.of_nat (length scores));
      Ok (round2 mean)
  end.

(** [math.log10(x)]: a [ValueError] unless [x > 0] or [x] is a NaN. *)
Definition math_log10 (x : float) : Res float :=
  match x with
  | S754_nan => Ok (log10 E x)
  | _ => if flt f0 x then Ok (log10 E x) else Raise (Exn ValueError "math domain error")
  end.

Definition halstead_scores (source_code : string) : Res (float * float * float * float) :=
  do halstead <- h_visit E source_code;
  match halstead with
  | [] => Ok (f10, f10, f0, f0)
  | h0 :: hs =>
      let efforts := map (fun h => default f0 (effort h)) halstead in
      let bugs := map (fun h => default f0 (bugs h)) halstead in
      let raw_effort :=
        match efforts with
        | x :: l => py_max_list x l
        | [] => f0
        end in
      let raw_bugs :=
        match bugs with
        | _ :: _ => py_sum bugs
        | [] => f0
        end in
      do effort_score <-
        (if fle raw_effort f0 then Ok f10
         else
           do l <- math_log10 (fadd raw_effort f1);
           Ok (py_max f0 (py_min f10 (fsub f10 (fmul l f2)))));
      let bug_score := py_max f0 (py_min f10 (fsub f10 (fmul raw_bugs f10))) in
      Ok (round2 effort_score, round2 bug_score, raw_effort, raw_bugs)
  end.

(** The body of the [try] statement of [analyze_code_string], lines
    91-117: the three stages, each behind its own [except Exception]. *)
Definition try_body (code_str : string) (fs : gmap string string) (fullpath : string)
    : Res AnalysisResult :=
  do '(pylint_score, pylint_output) <- run_pylint fs fullpath true 15;
  do '(cc_score, pylint_output) <-
    try_except
      (do cc_results <- cc_visit E code_str;
       do cc_score <- cc_to_score cc_results;
       Ok (cc_score, pylint_output))
      (fun e => Ok (f0, pylint_output +:+ nl +:+ "Radon CC error: " +:+ exn_str e));
  do '(effort_score, bug_score, effort, bugs, pylint_output) <-
    try_except
      (do '(effort_score, bug_score, effort, bugs) <- halstead_scores code_str;
       Ok (effort_score, bug_score, effort, bugs, pylint_output))
      (fun e => Ok (f0, f0, f0, f0, pylint_output +:+ nl +:+ "Halstead error: " +:+ exn_str e));
  Ok {| pylint_score := pylint_score;
        pylint_output := pylint_output;
        cc_score := cc_score;
        effort_score := effort_score;
        bug_score := bug_score;
        raw_effort := effort;
        raw_bugs := bugs;
        test_pass_rate := "10/10";
        maintainability := "10/10" |}.

(** The snippet is written before the [try] statement is entered: what
    the write raises goes to the caller. The [finally] clause runs
    whatever the body did; an error of [os.remove] is dropped there, and
    anything else it raises replaces the outcome of the body. *)
Definition analyze_code_string (code_str : string) (w : World) : Res AnalysisResult * World :=
  let tmp_dir := gettempdir E in
  let fname := "upload_" +:+ uuid4_hex E (uuids w) +:+ ".py" in
  let fullpath := path_join tmp_dir fname in
  (* with open(fullpath, "w", encoding="utf-8") as f: f.write(code_str) *)
  match write_text E fullpath code_str (files w) with
  | Some (e, fs0) =>
      (Raise e, {| files := fs0; uuids := S (uuids w); all_results := all_results w |})
  | None =>
      let fs := <[fullpath := code_str]> (files w) in
      (* try: ... *)
      let body := try_body code_str fs fullpath in
      (* finally: try: os.remove(fullpath) / except Exception: pass *)
      let '(cleanup, fs') :=
        match os_remove E fullpath fs with
        | Ok fs' => (Ok tt, fs')
        | Raise e => (if is_Exception e then Ok tt else Raise e, fs)
        end in
      let w' := {| files := fs'; uuids := S (uuids w); all_results := all_results w |} in
      match cleanup with
      | Ok _ => (body, w')
      | Raise e => (Raise e, w')
      end
  end.

(** ** The web route, without the page it renders *)

Inductive request :=
| GET
| POST (code_text : option string).

Definition index (req : request) (w : World) : Res unit * World :=
  let w :=
    match all_results w with
    | None => {| files := files w; uuids := uuids w; all_results := Some [] |}
    | Some _ => w
    end in
  match req with
  | POST form =>
      let code := strip (default EmptyString form) in
      if String.eqb code "" then (Ok tt, w)
      else
        match analyze_code_string code w with
        | (Ok results, w') =>
            (Ok tt,
             {| files := files w'; uuids := uuids w';
                all_results := Some (default [] (all_results w') ++ [results]) |})
        | (Raise e, w') => (Raise e, w')
        end
  | GET => (Ok tt, w)
  end.

(** The requests of a client served one after the other; a request
    whose handler raises is answered with an error page and the server
    goes on. *)
Fixpoint serve (reqs : list request) (w : World) : World :=
  match reqs with
  | [] => w
  | req :: reqs' =>
      serve reqs' (snd (index req w))
  end.

End Analyzer.

(** ** Vocabulary of the statements *)

(** The command line [run_pylint] builds. *)
Definition pylint_cmd (filename : string) (disable_import_error : bool) : list string :=
  ["pylint"; "--score=y"]
    ++ (if disable_import_error then ["--disable=import-error"] else [])
    ++ [filename].

(** The text [run_pylint] returns for a run that raised [e]. *)
Definition pylint_failure (e : exn) : string :=
  match exn_cls e with
  | FileNotFoundError => "Pylint not found. Install pylint (`pip install pylint`)."
  | TimeoutExpired => "Pylint timed out."
  | _ => "Pylint error: " +:+ exn_str e
  end.

(** The temporary file of the next invocation, and the file system once
    the snippet has been written to it. *)
Definition temp_path (E : Env) (w : World) : string :=
  path_join (gettempdir E) ("upload_" +:+ uuid4_hex E (uuids w) +:+ ".py").

Definition written (E : Env) (code_str : string) (w : World) : gmap string string :=
  <[temp_path E w := code_str]> (files w).

(** The snippet of the next invocation gets written; every write does. *)
Definition writes (E : Env) (code_str : string) (w : World) : Prop :=
  write_text E (temp_path E w) code_str (files w) = None.

Definition writable (E : Env) : Prop :=
  forall path text fs, write_text E path text fs = None.

(** The collaborators fail with errors only: whatever they raise is an
    instance of [Exception]. *)
Definition only_errors (E : Env) : Prop :=
  (forall cmd t fs e, subprocess_run E cmd t fs = Raise e -> is_Exception e = true) /\
  (forall src e, cc_visit E src = Raise e -> is_Exception e = true) /\
  (forall src e, h_visit E src = Raise e -> is_Exception e = true) /\
  (forall path fs e, os_remove E path fs = Raise e -> is_Exception e = true).

(** [History.list()]: the records appended so far. *)
Definition history (w : World) : list AnalysisResult := default [] (all_results w).

(** The state a request finds once [index] has made sure that
    [app.all_results] exists. *)
Definition with_history (w : World) : World :=
  {| files := files w; uuids := uuids w; all_results := Some (history w) |}.

(** A client submitting the snippet [text]. *)
Definition submit (text : string) : request := POST (Some text).

(** [needle in hay] *)
Definition contains (needle hay : string) : bool :=
  match String.index 0 needle hay with
  | Some _ => true
  | None => false
  end.

(** A log line of the shape [<Stage> error: <message>]. *)
Definition has_stage_error (log : string) : bool := contains " error: " log.

(** The log line of a failed stage. *)
Definition stage_error (stage : string) (e : exn) : string :=
  nl +:+ stage +:+ " error: " +:+ exn_str e.

(** The environment [E] with another [os.remove]. *)
Definition with_remove (E : Env) (rm : string -> gmap string string -> Res (gmap string string)) : Env :=
  {| gettempdir := gettempdir E;
     uuid4_hex := uuid4_hex E;
     write_text := write_text E;
     subprocess_run := subprocess_run E;
     cc_visit := cc_visit E;
     cc_rank := cc_rank E;
     h_visit := h_visit E;
     log10 := log10 E;
     os_remove := rm |}.

(** The environment [E] with another way of writing a file. *)
Definition with_write (E : Env)
    (wr : string -> string -> gmap string string -> option (exn * gmap string string)) : Env :=
  {| gettempdir := gettempdir E;
     uuid4_hex := uuid4_hex E;
     write_text := wr;
     subprocess_run := subprocess_run E;
     cc_visit := cc_visit E;
     cc_rank := cc_rank E;
     h_visit := h_visit E;
     log10 := log10 E;
     os_remove := os_remove E |}.

(** The score of a rank as the specification tabulates it. *)
Definition rank_score (rank : string) : Z :=
  if String.eqb rank "A" then 10
  else if String.eqb rank "B" then 8
  else if String.eqb rank "C" then 6
  else if String.eqb rank "D" then 4
  else if String.eqb rank "E" then 2
  else 0.

(** The scores of the blocks, by the table of the specification. *)
Definition scores_of (E : Env) (cc_results : list Block) : list Z :=
  map (fun r => rank_score (cc_rank E (complexity r))) cc_results.

(** The effort and bugs attributes of the items, absent ones as [0.0]. *)
Definition efforts_of (items : list HalsteadItem) : list float :=
  map (fun h => default f0 (effort h)) items.

Definition bugs_of (items : list HalsteadItem) : list float :=
  map (fun h => default f0 (bugs h)) items.

(** [max(0.0, min(10.0, x))], the clamp as the code writes it. *)
Definition clamp_0_10 (x : float) : float := py_max f0 (py_min f10 x).

(** [10.0 - 2.0 * log10(raw_effort + 1)] and [10.0 - 10.0 * raw_bugs], the
    penalties as the specification writes them. *)
Definition effort_penalty (E : Env) (raw : float) : float :=
  fsub f10 (fmul f2 (log10 E (fadd raw f1))).

Definition bug_penalty (raw : float) : float := fsub f10 (fmul f10 raw).

(** What a stage contributes to the record: its scores and its line of
    the log, empty when the stage succeeded. *)
Definition cc_stage (E : Env) (code_str : string) : float * string :=
  match (do cc_results <- cc_visit E code_str; cc_to_score E cc_results) with
  | Ok s => (s, EmptyString)
  | Raise e => (f0, stage_error "Radon CC" e)
  end.

Definition halstead_stage (E : Env) (code_str : string) : float * float * float * float * string :=
  match halstead_scores E code_str with
  | Ok (es, bs, re, rb) => (es, bs, re, rb, EmptyString)
  | Raise e => (f0, f0, f0, f0, stage_error "Halstead" e)
  end.

(** The record made of what the three stages contribute. *)
Definition assemble (lint : float * string) (cc : float * string)
    (h : float * float * float * float * string) : AnalysisResult :=
  let '(ls, lo) := lint in
  let '(cs, clog) := cc in
  let '(es, bs, re, rb, hlog) := h in
  {| pylint_score := ls;
     pylint_output := (lo +:+ clog) +:+ hlog;
     cc_score := cs;
     effort_score := es;
     bug_score := bs;
     raw_effort := re;
     raw_bugs := rb;
     test_pass_rate := "10/10";
     maintainability := "10/10" |}.

(** The records a request appends to the history: the record of the
    snippet when there is one and its analysis returns, none otherwise. *)
Definition appended (E : Env) (req : request) (w : World) : list AnalysisResult :=
  match req with
  | GET => []
  | POST form =>
      let code := strip (default EmptyString form) in
      if String.eqb code "" then []
      else
        match fst (analyze_code_string E code (with_history w)) with
        | Ok r => [r]
        | Raise _ => []
        end
  end.

(** The records appended while a list of requests is served. *)
Fixpoint served (E : Env) (reqs : list request) (w : World) : list AnalysisResult :=
  match reqs with
  | [] => []
  | req :: reqs' => appended E req w ++ served E reqs' (snd (index E req w))
  end.

(** *** Vocabulary of the further properties *)

(** The ten digits, and: every word of [r] holds a character of the kind
    [p]. *)
Definition digit_chars : list ascii := list_ascii_of_string "0123456789".

Fixpoint must_meet (p : ascii -> bool) (r : Regex.regex) : bool :=
  match r with
  | Regex.Lit c => p c
  | Regex.Digit => forallb p digit_chars
  | Regex.Seq r1 r2 => must_meet p r1 || must_meet p r2
  | Regex.Plus r1 | Regex.Group r1 => must_meet p r1
  | _ => false
  end.

(** The floats from zero up to [hi], and those from [lo] up to [hi]. *)
Definition upto (hi : Z) (x : float) : Prop :=
  match x with
  | S754_zero false => True
  | S754_finite false m e => (inject_Z (Z.pos m) * pow2 e <= bound hi 0)%Q
  | _ => False
  end.

Definition between (lo hi : Z) (x : float) : Prop :=
  match value x with
  | XFin q => (inject_Z lo <= q)%Q /\ (q <= inject_Z hi)%Q
  | _ => False
  end.

(** A character at which a match of one of the two patterns can start. *)
Definition starts_match (c : ascii) : bool := is_r c || starts_number c.

(** The score of a result of [run_pylint], without the text. *)
Definition score_of (res : Res (float * string)) : Res float :=
  do p <- res; Ok (fst p).

(** An item of [h_visit] that has neither attribute. *)
Definition bare_item : HalsteadItem := {| effort := None; bugs := None |}.

(** ** Sample collaborators

    A concrete environment for trying the functions out: radon's ranking
    of a complexity, a file system in which [os.remove] fails on a missing
    file only, and fixed answers of the tools. *)

Definition radon_rank (cc : Z) : string :=
  if cc <=? 5 then "A"
  else if cc <=? 10 then "B"
  else if cc <=? 20 then "C"
  else if cc <=? 30 then "D"
  else if cc <=? 40 then "E"
  else "F".

Definition remove_file (path : string) (fs : gmap string string) : Res (gmap string string) :=
  match fs !! path with
  | Some _ => Ok (delete path fs)
  | None => Raise (Exn FileNotFoundError ("No such file or directory: " +:+ path))
  end.

Definition sample_env (run : Res CompletedProcess) (cc : Res (list Block))
    (h : Res (list HalsteadItem)) : Env :=
  {| gettempdir := "/tmp";
     uuid4_hex := fun n => pretty n;
     write_text := fun _ _ _ => None;
     subprocess_run := fun _ _ _ => run;
     cc_visit := fun _ => cc;
     cc_rank := radon_rank;
     h_visit := fun _ => h;
     log10 := fun _ => of_Z 3;
     os_remove := remove_file |}.

Definition completed (out : string) : Res CompletedProcess :=
  Ok {| stdout := Some out; stderr := Some EmptyString |}.

Definition blocks (l : list Z) : Res (list Block) :=
  Ok (map (fun c => {| complexity := c |}) l).

Definition item (e b : float) : HalsteadItem :=
  {| effort := Some e; bugs := Some b |}.

Definition world0 : World :=
  {| files := ∅; uuids := 0; all_results := None |}.

Definition missing : exn := Exn FileNotFoundError "No such file or directory: 'pylint'".
Definition syntax_error : exn := Exn SyntaxError "invalid syntax (<unknown>, line 1)".

Definition env_fine : Env :=
  sample_env (completed "Your code has been rated at 7.5/10")
    (blocks [1; 3; 7; 50])
    (Ok [item (of_Z 999) (of_decimal false 5 2)]).

(** No pylint on the machine. *)
Definition env_no_pylint : Env :=
  sample_env (Raise missing) (blocks [1; 3; 7; 50])
    (Ok [item (of_Z 999) (of_decimal false 5 2)]).

(** A snippet that radon cannot parse. *)
Definition env_unparsable : Env :=
  sample_env (completed "Your code has been rated at 0.00/10")
    (Raise syntax_error) (Raise syntax_error).

(** A pylint that rates below zero. *)
Definition env_negative : Env :=
  sample_env (completed "Your code has been rated at -5.00/10")
    (blocks [1]) (Ok []).

(** A disk without room: the file is created and the write fails. *)
Definition disk_full (path text : string) (fs : gmap string string)
    : option (exn * gmap string string) :=
  Some (Exn OSError "[Errno 28] No space left on device", <[path := EmptyString]> fs).

(** A file system whose files cannot be removed. *)
Definition locked (path : string) (fs : gmap string string) : Res (gmap string string) :=
  Raise (Exn PermissionError ("Permission denied: " +:+ path)).

Definition world1 : World :=
  {| files := ∅; uuids := 0; all_results := Some [] |}.

(** A temporary directory that holds a file of somebody else. *)
Definition world2 : World :=
  {| files := {[ "/tmp/notes.txt" := "keep" ]}; uuids := 0; all_results := None |}.

(** Control-C while a collaborator runs. *)
Definition interrupt : exn := Exn KeyboardInterrupt EmptyString.

(** An effort of a million, with a logarithm of 6. *)
Definition env_heavy : Env :=
  {| gettempdir := "/tmp";
     uuid4_hex := fun n => pretty n;
     write_text := fun _ _ _ => None;
     subprocess_run := fun _ _ _ => completed "Your code has been rated at 10.00/10";
     cc_visit := fun _ => blocks [1];
     cc_rank := radon_rank;
     h_visit := fun _ => Ok [item (of_Z 1000000) f0];
     log10 := fun _ => of_Z 6;
     os_remove := remove_file |}.

(** * Properties *)

(** ** Rounding to binary64

    [binary_round_aux] does not cross a representable bound: what it
    makes of a value at or above [bound g eb] is at or above it, and
    likewise below; the quotient that [SFdiv_core_binary] hands to it
    brackets the exact quotient. *)

Module Rounding.

Lemma digits2_size p : digits2_pos p = Pos.size p.
Proof. induction p; simpl; congruence. Qed.

Lemma Zdigits2_log2 p : Zdigits2 (Zpos p) = Z.log2 (Zpos p) + 1.
Proof.
simpl. rewrite digits2_size. destruct p; simpl; try lia.
Qed.

Lemma Zdigits2_bounds p : 2 ^ (Zdigits2 (Zpos p) - 1) <= Zpos p < 2 ^ Zdigits2 (Zpos p).
Proof.
rewrite Zdigits2_log2.
replace (Z.log2 (Z.pos p) + 1 - 1) with (Z.log2 (Z.pos p)) by lia.
pose proof (Z.log2_spec (Zpos p) ltac:(lia)). 
replace (Z.succ (Z.log2 (Z.pos p))) with (Z.log2 (Z.pos p) + 1) in H by lia. lia.
Qed.

Lemma iter_pos_nat {A} (f : A -> A) p x : SpecFloat.iter_pos f p x = Nat.iter (Pos.to_nat p) f x.
Proof.
revert x. induction p; intros x; cbn [SpecFloat.iter_pos].
- rewrite !IHp. rewrite Pos2Nat.inj_xI.
  replace (S (2 * Pos.to_nat p))%nat with (Pos.to_nat p + S (Pos.to_nat p))%nat by lia.
  rewrite Nat.iter_add. f_equal. simpl. apply Nat.iter_swap.
- rewrite !IHp. rewrite Pos2Nat.inj_xO.
  replace (2 * Pos.to_nat p)%nat with (Pos.to_nat p + Pos.to_nat p)%nat by lia.
  rewrite Nat.iter_add. reflexivity.
- reflexivity.
Qed.

Lemma shr_1_m r : 0 <= shr_m r -> shr_m (shr_1 r) = shr_m r / 2.
Proof.
destruct r as [m r s]. cbn [shr_m]. intros H.
destruct m as [|[p|p|]|p]; cbn [shr_1 shr_m]; try lia; try reflexivity.
- apply Z.div_unique with 1; lia.
- apply Z.div_unique with 0; lia.
Qed.

Lemma shr_1_exact r :
0 <= shr_m r -> rec_exact (shr_1 r) = rec_exact r && Z.even (shr_m r).
Proof.
destruct r as [m r s]. unfold rec_exact. simpl. intros H.
destruct m as [|[p|p|]|p]; simpl; try lia; destruct r, s; reflexivity.
Qed.

Lemma mod_double m P :
0 < P -> (m mod P = 0 /\ Z.even (m / P) = true) <-> m mod (2 * P) = 0.
Proof.
intros HP.
rewrite Z.even_spec.
rewrite !Z.mod_divide by lia.
split.
- intros [[k Hk] [j Hj]]. subst m. rewrite Z.div_mul in Hj by lia. subst k.
  exists j. lia.
- intros [k Hk]. subst m. split.
  + exists (2 * k). lia.
  + exists k. replace (k * (2 * P)) with ((2 * k) * P) by lia.
    rewrite Z.div_mul by lia. lia.
Qed.

Lemma shr_iter_spec n r :
0 <= shr_m r ->
shr_m (Nat.iter n shr_1 r) = shr_m r / 2 ^ Z.of_nat n /\
(rec_exact (Nat.iter n shr_1 r) = true <->
 rec_exact r = true /\ shr_m r mod 2 ^ Z.of_nat n = 0).
Proof.
intros Hm. induction n as [|n IH].
- simpl. rewrite Z.div_1_r, Z.mod_1_r. intuition.
- rewrite Nat2Z.inj_succ, Nat.iter_succ.
  destruct IH as [IHm IHe].
  assert (Hp : 0 < 2 ^ Z.of_nat n) by (apply Z.pow_pos_nonneg; lia).
  assert (H0 : 0 <= shr_m (Nat.iter n shr_1 r)).
  { rewrite IHm. apply Z.div_pos; lia. }
  rewrite shr_1_m by assumption. rewrite shr_1_exact by assumption.
  rewrite IHm. rewrite Z.pow_succ_r by lia.
  split.
  + rewrite Z.div_div by lia. f_equal. lia.
  + rewrite andb_true_iff, IHe, <- mod_double by assumption. tauto.
Qed.

Lemma pow2_pos e : (0 < pow2 e)%Q.
Proof. apply Qpower_0_lt. reflexivity. Qed.

Lemma pow2_add a b : (pow2 (a + b) == pow2 a * pow2 b)%Q.
Proof. apply Qpower_plus. discriminate. Qed.

Lemma pow2_Z n : 0 <= n -> (pow2 n == inject_Z (2 ^ n))%Q.
Proof. intros H. unfold pow2. rewrite Zpower_Qpower by assumption. reflexivity. Qed.

Lemma pow2_split e1 e2 : e1 <= e2 -> (pow2 e2 == inject_Z (2 ^ (e2 - e1)) * pow2 e1)%Q.
Proof.
intros H. rewrite <- pow2_Z by lia. rewrite <- pow2_add.
replace (e2 - e1 + e1) with e2 by lia. reflexivity.
Qed.

Lemma scale_le a b e : (inject_Z a * pow2 e <= inject_Z b * pow2 e)%Q <-> a <= b.
Proof. rewrite Qmult_le_r by apply pow2_pos. rewrite <- Zle_Qle. reflexivity. Qed.

Lemma scale_lt a b e : (inject_Z a * pow2 e < inject_Z b * pow2 e)%Q <-> a < b.
Proof. rewrite Qmult_lt_r by apply pow2_pos. rewrite <- Zlt_Qlt. reflexivity. Qed.

Lemma scale_eq a b e : (inject_Z a * pow2 e == inject_Z b * pow2 e)%Q <-> a = b.
Proof.
split.
- intros H. apply Z.le_antisymm; apply (scale_le _ _ e); rewrite H; apply Qle_refl.
- intros ->. reflexivity.
Qed.

Lemma rescale a e1 e2 : e1 <= e2 -> (inject_Z a * pow2 e2 == inject_Z (a * 2 ^ (e2 - e1)) * pow2 e1)%Q.
Proof.
intros H. rewrite (pow2_split e1 e2 H), inject_Z_mult. ring.
Qed.

Lemma loc_of_shr_exact r : loc_of_shr_record r = loc_Exact <-> rec_exact r = true.
Proof. destruct r as [m [] []]; unfold rec_exact; simpl; split; congruence. Qed.

Lemma shr_record_of_loc_m m l : shr_m (shr_record_of_loc m l) = m.
Proof. destruct l as [|[]]; reflexivity. Qed.

Lemma shr_record_of_loc_exact m l : rec_exact (shr_record_of_loc m l) = true <-> l = loc_Exact.
Proof. destruct l as [|[]]; unfold rec_exact; simpl; split; congruence. Qed.

Lemma loc_of_shr_record_of_loc m l : loc_of_shr_record (shr_record_of_loc m l) = l.
Proof. destruct l as [|[]]; reflexivity. Qed.

Lemma shr_fexp_spec x m e l :
0 <= m -> inb x m e l ->
let e' := Z.max e (fexp prec emax (Zdigits2 m + e)) in
let r := fst (shr_fexp prec emax m e l) in
snd (shr_fexp prec emax m e l) = e' /\
shr_m r = m / 2 ^ (e' - e) /\
inb x (shr_m r) e' (loc_of_shr_record r).
Proof.
intros Hm (Hlo & Hhi & Hex). cbn zeta.
unfold shr_fexp, shr.
set (f := fexp prec emax (Zdigits2 m + e)).
destruct (f - e) as [|p|p] eqn:Hn; cbn [fst snd].
- replace (Z.max e f) with e by lia. rewrite Z.sub_diag, Z.div_1_r.
  rewrite shr_record_of_loc_m, loc_of_shr_record_of_loc. repeat split; assumption.
- replace (Z.max e f) with (e + Z.pos p) by lia.
  replace (e + Z.pos p - e) with (Z.pos p) by lia.
  rewrite iter_pos_nat.
  destruct (shr_iter_spec (Pos.to_nat p) (shr_record_of_loc m l)) as [Hq Hx].
  { rewrite shr_record_of_loc_m. assumption. }
  rewrite positive_nat_Z, shr_record_of_loc_m in Hq, Hx.
  set (r := Nat.iter (Pos.to_nat p) shr_1 (shr_record_of_loc m l)) in *.
  set (P := 2 ^ Z.pos p) in *.
  assert (HP : 0 < P) by (apply Z.pow_pos_nonneg; lia).
  assert (Hdm : m = P * (m / P) + m mod P) by (apply Z.div_mod; lia).
  assert (Hr : 0 <= m mod P < P) by (apply Z.mod_pos_bound; lia).
  split; [reflexivity|]. split; [assumption|].
  rewrite Hq.
  assert (Hsc : forall a, (inject_Z a * pow2 (e + Z.pos p) == inject_Z (a * P) * pow2 e)%Q).
  { intros a. rewrite (rescale a e (e + Z.pos p)) by lia.
    replace (e + Z.pos p - e) with (Z.pos p) by lia. reflexivity. }
  unfold inb. rewrite !Hsc. repeat split.
  + eapply Qle_trans; [|exact Hlo]. apply scale_le. nia.
  + eapply Qlt_le_trans; [exact Hhi|]. apply scale_le. nia.
  + intros Heq. apply loc_of_shr_exact. apply Hx.
    assert (Hle : m <= m / P * P).
    { apply (scale_le _ _ e). rewrite <- Heq. assumption. }
    assert (Hmm : m = m / P * P) by nia.
    split.
    * apply shr_record_of_loc_exact. apply Hex. rewrite Heq, <- Hmm. reflexivity.
    * lia.
- replace (Z.max e f) with e by lia. rewrite Z.sub_diag, Z.div_1_r.
  rewrite shr_record_of_loc_m, loc_of_shr_record_of_loc. repeat split; assumption.
Qed.

Lemma fexp_eq e : fexp prec emax e = Z.max (e - 53) (-1074).
Proof. reflexivity. Qed.

Lemma Zdigits2_0 : Zdigits2 0 = 0.
Proof. reflexivity. Qed.

Lemma Zdigits2_pos_bounds m : 0 < m -> 2 ^ (Zdigits2 m - 1) <= m < 2 ^ Zdigits2 m.
Proof. destruct m; try lia. intros _. apply Zdigits2_bounds. Qed.

Lemma Zdigits2_nonneg m : 0 <= Zdigits2 m.
Proof. destruct m; simpl; lia. Qed.

Lemma div_pow2_ge m d k : 0 <= k -> k <= d - 1 -> 2 ^ (d - 1) <= m -> 2 ^ (d - 1 - k) <= m / 2 ^ k.
Proof.
intros Hk Hd Hm.
apply Z.div_le_lower_bound. { apply Z.pow_pos_nonneg; lia. }
rewrite <- Z.pow_add_r by lia. replace (k + (d - 1 - k)) with (d - 1) by lia. assumption.
Qed.

Lemma rne_bounds m l :
m <= round_nearest_even m l <= m + 1 /\ (l = loc_Exact -> round_nearest_even m l = m).
Proof.
destruct l as [|[]]; simpl; try (split; [lia|]; intros; congruence || reflexivity).
destruct (Z.even m); split; try lia; intros; congruence.
Qed.

Section Bounds.
Variables (g eb : Z).
Hypothesis Hg : 0 < g < 2 ^ 53.
Hypothesis Heb : -1074 <= eb.

Lemma bound_pos : (0 < (bound g eb))%Q.
Proof.
unfold bound. apply Qmult_lt_0_compat; [|apply pow2_pos].
change 0%Q with (inject_Z 0). rewrite <- Zlt_Qlt. lia.
Qed.

(** A mantissa of 53 bits at an exponent above [eb] exceeds the bound. *)
Lemma big_mantissa m e : eb < e -> 2 ^ 52 <= m -> ((bound g eb) < inject_Z m * pow2 e)%Q.
Proof.
intros He Hm. unfold bound. rewrite (rescale m eb e) by lia.
apply scale_lt.
assert (2 ^ 1 <= 2 ^ (e - eb)) by (apply Z.pow_le_mono_r; lia).
change (2 ^ 1) with 2 in *. change (2 ^ 53) with (2 * 2 ^ 52) in *. nia.
Qed.

Lemma shifted_mantissa m e e' :
0 < m -> e' = Zdigits2 m + e - 53 -> e <= e' -> 2 ^ 52 <= m / 2 ^ (e' - e).
Proof.
intros Hm -> He.
pose proof (Zdigits2_pos_bounds m Hm) as [Hlo _].
replace (Zdigits2 m + e - 53 - e) with (Zdigits2 m - 53) by lia.
replace 52 with (Zdigits2 m - 1 - (Zdigits2 m - 53)) by lia.
apply div_pow2_ge; lia.
Qed.

Lemma stage_lower x m e l :
0 <= m -> inb x m e l ->
((x == inject_Z m * pow2 e)%Q \/ e <= fexp prec emax (Zdigits2 m + e)) ->
((bound g eb) <= x)%Q ->
((bound g eb) <= inject_Z (shr_m (fst (shr_fexp prec emax m e l))) * pow2 (snd (shr_fexp prec emax m e l)))%Q.
Proof.
intros Hm Hinb Hpre Hx.
destruct (shr_fexp_spec x m e l Hm Hinb) as (He' & Hm' & (Hlo & Hhi & Hex)).
rewrite He' in *. rewrite Hm' in *.
set (f := fexp prec emax (Zdigits2 m + e)) in *.
assert (Hfdef : f = Z.max (Zdigits2 m + e - 53) (-1074)) by reflexivity.
assert (Hd0 : m = 0 -> Zdigits2 m = 0) by (intros ->; reflexivity).
clearbody f.
destruct (Z_le_gt_dec f e) as [Hfe|Hfe].
- (* no shift *)
  replace (Z.max e f) with e in * by lia.
  rewrite Z.sub_diag, Z.div_1_r in *.
  destruct Hpre as [Hexact|Hle].
  + rewrite <- Hexact. assumption.
  + assert (Hf : f = e) by lia.
    destruct (Z_le_gt_dec e eb) as [Hb|Hb].
    * unfold bound in *. rewrite (rescale g e eb) in * by lia.
      apply scale_le.
      assert (g * 2 ^ (eb - e) < m + 1); [|lia].
      apply (scale_lt _ _ e). eapply Qle_lt_trans; eassumption.
    * apply Qlt_le_weak. apply big_mantissa; [lia|].
      assert (0 < m) by lia.
      replace m with (m / 2 ^ (e - e)) by (rewrite Z.sub_diag; apply Z.div_1_r).
      apply shifted_mantissa; lia.
- replace (Z.max e f) with f in * by lia.
  destruct (Z_le_gt_dec f eb) as [Hb|Hb].
  + unfold bound in *. rewrite (rescale g f eb) in * by lia.
    apply scale_le.
    assert (g * 2 ^ (eb - f) < m / 2 ^ (f - e) + 1); [|lia].
    apply (scale_lt _ _ f). eapply Qle_lt_trans; eassumption.
  + apply Qlt_le_weak. apply big_mantissa; [lia|].
    assert (0 < m) by lia.
    apply shifted_mantissa; lia.
Qed.

Theorem round_lower s x mx ex lx :
0 <= mx -> inb x mx ex lx ->
((x == inject_Z mx * pow2 ex)%Q \/ ex <= fexp prec emax (Zdigits2 mx + ex)) ->
((bound g eb) <= x)%Q ->
match binary_round_aux prec emax s mx ex lx with
| S754_finite s' m e => s' = s /\ ((bound g eb) <= inject_Z (Z.pos m) * pow2 e)%Q
| S754_infinity s' => s' = s
| _ => False
end.
Proof.
intros Hm Hinb Hpre Hx.
pose proof (stage_lower x mx ex lx Hm Hinb Hpre Hx) as H1.
destruct (shr_fexp_spec x mx ex lx Hm Hinb) as (_ & Hm1 & _).
unfold binary_round_aux.
destruct (shr_fexp prec emax mx ex lx) as [r1 e1]. cbn [fst snd] in *.
set (m1 := round_nearest_even (shr_m r1) (loc_of_shr_record r1)).
assert (Hr1 : 0 <= shr_m r1).
{ rewrite Hm1. apply Z.div_pos; [lia|]. apply Z.pow_pos_nonneg; [lia|].
  lia. }
destruct (rne_bounds (shr_m r1) (loc_of_shr_record r1)) as [Hb _]. fold m1 in Hb.
assert (H1' : ((bound g eb) <= inject_Z m1 * pow2 e1)%Q).
{ eapply Qle_trans; [exact H1|]. apply scale_le. lia. }
assert (Hinb2 : inb (inject_Z m1 * pow2 e1) m1 e1 loc_Exact).
{ repeat split. - apply Qle_refl. - apply scale_lt. lia. }
pose proof (stage_lower _ m1 e1 loc_Exact ltac:(lia) Hinb2 (or_introl (Qeq_refl _)) H1') as H2.
destruct (shr_fexp prec emax m1 e1 loc_Exact) as [r2 e2]. cbn [fst snd] in *.
pose proof bound_pos as HB.
destruct (shr_m r2) as [|p|p] eqn:Hm2.
- exfalso. rewrite Qmult_0_l in H2. apply (Qlt_irrefl 0). eapply Qlt_le_trans; eassumption.
- destruct (e2 <=? emax - prec); [split|]; auto.
- exfalso. assert (inject_Z (Z.neg p) * pow2 e2 < 0)%Q.
  { rewrite <- (Qmult_0_l (pow2 e2)). apply scale_lt. lia. }
  apply (Qlt_irrefl 0). eapply Qlt_le_trans; [exact HB|].
  eapply Qle_trans; [exact H2|]. apply Qlt_le_weak. assumption.
Qed.

Theorem round_upper s x mx ex lx :
0 <= mx -> inb x mx ex lx ->
ex <= fexp prec emax (Zdigits2 mx + ex) ->
eb <= 971 ->
(x <= (bound g eb))%Q ->
match binary_round_aux prec emax s mx ex lx with
| S754_zero s' => s' = s
| S754_finite s' m e => s' = s /\ (inject_Z (Z.pos m) * pow2 e <= (bound g eb))%Q
| _ => False
end.
Proof.
intros Hm Hinb Hpre Heb' Hx.
destruct (shr_fexp_spec x mx ex lx Hm Hinb) as (He1 & Hm1 & (Hlo & Hhi & Hex)).
unfold binary_round_aux.
destruct (shr_fexp prec emax mx ex lx) as [r1 e1]. cbn [fst snd] in *.
set (f := fexp prec emax (Zdigits2 mx + ex)) in *.
assert (Hfdef : f = Z.max (Zdigits2 mx + ex - 53) (-1074)) by reflexivity.
assert (Hd0 : mx = 0 -> Zdigits2 mx = 0) by (intros ->; reflexivity).
clearbody f.
replace (Z.max ex f) with f in * by lia. subst e1.
assert (Hr1 : 0 <= shr_m r1).
{ rewrite Hm1. apply Z.div_pos; [lia|]. apply Z.pow_pos_nonneg; lia. }
(* the exponent after the first shift is at most that of the bound *)
assert (Hfb : f <= eb).
{ destruct (Z_le_gt_dec f eb) as [|Hgt]; [assumption|]. exfalso.
  assert (0 < mx) by lia.
  assert (H52 : 2 ^ 52 <= shr_m r1).
  { rewrite Hm1. apply shifted_mantissa; lia. }
  pose proof (big_mantissa (shr_m r1) f ltac:(lia) H52) as Hbig.
  apply (Qlt_irrefl (bound g eb)). eapply Qlt_le_trans; [exact Hbig|].
  eapply Qle_trans; eassumption. }
set (m1 := round_nearest_even (shr_m r1) (loc_of_shr_record r1)).
destruct (rne_bounds (shr_m r1) (loc_of_shr_record r1)) as [Hb Hbx]. fold m1 in Hb, Hbx.
set (G := g * 2 ^ (eb - f)).
assert (HBG : ((bound g eb) == inject_Z G * pow2 f)%Q) by (unfold bound, G; apply rescale; lia).
assert (Hm1G : m1 <= G).
{ assert (Hle : shr_m r1 <= G).
  { apply (scale_le _ _ f). rewrite <- HBG. eapply Qle_trans; eassumption. }
  destruct (Z.eq_dec (shr_m r1) G) as [Heq|Hne]; [|lia].
  rewrite Hbx; [lia|]. apply Hex.
  apply Qle_antisym; [|assumption]. rewrite Heq, <- HBG. assumption. }
assert (Hinb2 : inb (inject_Z m1 * pow2 f) m1 f loc_Exact).
{ repeat split. - apply Qle_refl. - apply scale_lt. lia. }
destruct (shr_fexp_spec _ m1 f loc_Exact ltac:(lia) Hinb2) as (He2 & Hm2 & (Hlo2 & _)).
destruct (shr_fexp prec emax m1 f loc_Exact) as [r2 e2]. cbn [fst snd] in *.
rewrite <- He2 in Hlo2, Hm2.
assert (Hval : (inject_Z (shr_m r2) * pow2 e2 <= (bound g eb))%Q).
{ eapply Qle_trans; [exact Hlo2|]. rewrite HBG. apply scale_le. assumption. }
assert (He2b : e2 <= 971).
{ rewrite He2. rewrite fexp_eq.
  destruct (Z.eq_dec m1 0) as [Hz|Hne].
  { rewrite Hz. rewrite Zdigits2_0. lia. }
  pose proof (Zdigits2_pos_bounds m1 ltac:(lia)) as [Hd _].
  assert (HG : G < 2 ^ (53 + (eb - f))).
  { unfold G. rewrite Z.pow_add_r by lia.
    assert (0 < 2 ^ (eb - f)) by (apply Z.pow_pos_nonneg; lia). nia. }
  assert (Zdigits2 m1 - 1 < 53 + (eb - f)).
  { apply (Z.pow_lt_mono_r_iff 2); lia. }
  lia. }
assert (Hr2 : 0 <= shr_m r2).
{ rewrite Hm2. apply Z.div_pos; [lia|]. apply Z.pow_pos_nonneg; lia. }
destruct (shr_m r2) as [|p|p] eqn:Hm2'; try lia.
- reflexivity.
- replace (e2 <=? emax - prec) with true by (symmetry; apply Z.leb_le; unfold emax, prec; lia).
  split; [reflexivity | assumption].
Qed.
End Bounds.

Lemma new_location_exact n r : r = 0 -> new_location n r = loc_Exact.
Proof.
intros ->. unfold new_location, new_location_even, new_location_odd.
destruct (Z.even n); reflexivity.
Qed.

Lemma Zdigits2_ge m k : 0 <= k -> 2 ^ k <= m -> k + 1 <= Zdigits2 m.
Proof.
intros Hk Hm.
assert (0 < m). { assert (0 < 2 ^ k) by (apply Z.pow_pos_nonneg; lia). lia. }
pose proof (Zdigits2_pos_bounds m H) as [_ Hhi].
assert (k < Zdigits2 m); [|lia].
apply (Z.pow_lt_mono_r_iff 2); try lia. apply Zdigits2_nonneg.
Qed.

Lemma fexp_mono a b : a <= b -> fexp prec emax a <= fexp prec emax b.
Proof. rewrite !fexp_eq. lia. Qed.

Lemma shiftl_pow m s : 0 <= s -> Z.shiftl m s = m * 2 ^ s.
Proof. intros. apply Z.shiftl_mul_pow2. assumption. Qed.

Lemma shift_case m s :
0 <= s ->
match s with Z.pos _ => Z.shiftl m s | 0 => m | Z.neg _ => 0 end = m * 2 ^ s.
Proof.
intros Hs. destruct s; try lia.
apply shiftl_pow. lia.
Qed.

(** The quotient that [SFdiv] hands to the rounding: it brackets the exact
  quotient [x], with enough digits for one rounding. *)
Lemma div_core_spec (a b : Z) (ex ey : Z) (x : Q) :
0 < a -> 0 < b ->
(x * (inject_Z b * pow2 ey) == inject_Z a * pow2 ex)%Q ->
let '(q, e', l) := SFdiv_core_binary prec emax a ex b ey in
0 <= q /\ inb x q e' l /\ e' <= fexp prec emax (Zdigits2 q + e').
Proof.
intros Ha Hb Hx. unfold SFdiv_core_binary.
pose proof (Zdigits2_pos_bounds a Ha) as [H1 _].
pose proof (Zdigits2_pos_bounds b Hb) as [_ H2].
pose proof (Zdigits2_ge a 0 ltac:(lia) ltac:(simpl; lia)) as Hd1.
pose proof (Zdigits2_ge b 0 ltac:(lia) ltac:(simpl; lia)) as Hd2.
set (d1 := Zdigits2 a) in *. set (d2 := Zdigits2 b) in *. clearbody d1 d2.
set (e' := Z.min (fexp prec emax (d1 + ex - (d2 + ey))) (ex - ey)).
assert (He' : e' <= fexp prec emax (d1 + ex - (d2 + ey)) /\ e' <= ex - ey) by (unfold e'; lia).
clearbody e'.
set (s := ex - ey - e').
assert (Hs : 0 <= s) by (unfold s; lia).
assert (Hse : ex = s + e' + ey) by (unfold s; lia).
clearbody s.
rewrite shift_case by assumption.
pose proof (Z_div_mod (a * 2 ^ s) b ltac:(lia)) as Hdm.
destruct (Z.div_eucl (a * 2 ^ s) b) as [q r]. destruct Hdm as [Hdm Hr].
assert (H2s : 0 < 2 ^ s) by (apply Z.pow_pos_nonneg; lia).
assert (Hq : 0 <= q) by nia.
assert (Hscale : forall c : Z,
          (inject_Z c * pow2 e' * (inject_Z b * pow2 ey) == inject_Z (c * b) * (pow2 e' * pow2 ey))%Q).
{ intros c. rewrite inject_Z_mult. ring. }
assert (Hxs : (x * (inject_Z b * pow2 ey) == inject_Z (a * 2 ^ s) * (pow2 e' * pow2 ey))%Q).
{ rewrite Hx. rewrite (rescale a (e' + ey) ex) by lia.
  replace (ex - (e' + ey)) with s by lia.
  rewrite pow2_add. reflexivity. }
assert (Hden : (0 < inject_Z b * pow2 ey)%Q).
{ apply Qmult_lt_0_compat; [|apply pow2_pos].
  change 0%Q with (inject_Z 0). rewrite <- Zlt_Qlt. assumption. }
assert (Hpp : (0 < pow2 e' * pow2 ey)%Q).
{ apply Qmult_lt_0_compat; apply pow2_pos. }
split; [assumption|]. split.
- repeat split.
  + apply (Qmult_le_r _ _ _ Hden). rewrite Hscale, Hxs.
    apply Qmult_le_r; [assumption|]. rewrite <- Zle_Qle. clear - Hdm Hr. nia.
  + apply (Qmult_lt_r _ _ _ Hden). rewrite Hscale, Hxs.
    apply Qmult_lt_r; [assumption|]. rewrite <- Zlt_Qlt. clear - Hdm Hr. nia.
  + intros Heq. apply new_location_exact.
    assert (Heq' : (inject_Z (a * 2 ^ s) * (pow2 e' * pow2 ey) == inject_Z (q * b) * (pow2 e' * pow2 ey))%Q).
    { rewrite <- Hxs, Heq, Hscale. reflexivity. }
    assert (Hne : ~ (pow2 e' * pow2 ey == 0)%Q).
    { intros H0. rewrite H0 in Hpp. discriminate. }
    rewrite (Qmult_inj_r _ _ _ Hne), inject_Z_injective in Heq'.
    clear - Heq' Hdm Hr. nia.
- (* enough digits *)
  assert (Hdq : d1 + s - d2 <= Zdigits2 q).
  { destruct (Z_le_gt_dec (d1 + s - d2) 0) as [Hle|Hgt].
    - pose proof (Zdigits2_nonneg q). lia.
    - assert (Hk : 2 ^ (d1 + s - d2 - 1) <= q).
      { assert (Hq' : q = (a * 2 ^ s) / b).
        { apply Z.div_unique with r; [lia | exact Hdm]. }
        rewrite Hq'. apply Z.div_le_lower_bound; [lia|].
        assert (Hsplit : 2 ^ (d1 - 1) * 2 ^ s = 2 ^ (d1 + s - d2 - 1) * 2 ^ d2).
        { rewrite <- !Z.pow_add_r by lia. f_equal. lia. }
        assert (0 < 2 ^ (d1 + s - d2 - 1)) by (apply Z.pow_pos_nonneg; lia).
        nia. }
      pose proof (Zdigits2_ge q (d1 + s - d2 - 1) ltac:(lia) Hk). lia. }
  eapply Z.le_trans; [|apply (fexp_mono (d1 + ex - (d2 + ey)))]; lia.
Qed.

End Rounding.

Import Rounding.

(** ** Floats as scores

    The sub-scores in [0, 10], the order of floats, [max], the clamp and
    [round(x, 2)]. *)

Module Scores.

(** *** Floats in [0, 10] *)

Lemma value_f10 : value f10 = XFin (inject_Z 5629499534213120 * pow2 (-49)).
Proof. reflexivity. Qed.

Lemma f10_is_ten : (inject_Z 5629499534213120 * pow2 (-49) == bound 10 0)%Q.
Proof. reflexivity. Qed.

Lemma pos_value_pos (m : positive) e : (0 < inject_Z (Z.pos m) * pow2 e)%Q.
Proof. apply Qmult_lt_0_compat; [reflexivity | apply pow2_pos]. Qed.

Lemma neg_value_neg (m : positive) e : (inject_Z (Z.neg m) * pow2 e < 0)%Q.
Proof.
  rewrite <- (Qmult_0_l (pow2 e)). apply Qmult_lt_r; [apply pow2_pos | reflexivity].
Qed.

Lemma Qcompare_lt p q : (p < q)%Q -> Qcompare p q = Lt.
Proof. intros H. apply Qlt_alt. exact H. Qed.

Lemma Qcompare_gt p q : (q < p)%Q -> Qcompare p q = Gt.
Proof. intros H. apply Qgt_alt. exact H. Qed.

Lemma Qcompare_le p q : (p <= q)%Q <-> Qcompare p q <> Gt.
Proof. apply Qle_alt. Qed.

Lemma in_range_zero s : in_range (S754_zero s) = true.
Proof. reflexivity. Qed.

Lemma in_range_f10 : in_range f10 = true.
Proof. reflexivity. Qed.

Lemma in_range_finite m e :
  (inject_Z (Z.pos m) * pow2 e <= bound 10 0)%Q -> in_range (S754_finite false m e) = true.
Proof.
  intros H. unfold in_range, fle, fcompare. rewrite value_f10. cbn [value f0].
  apply andb_true_iff. split.
  - rewrite (Qcompare_lt _ _ (pos_value_pos m e)). reflexivity.
  - rewrite <- f10_is_ten in H.
    destruct (Qcompare _ _) eqn:Hc; try reflexivity.
    exfalso. apply (proj1 (Qcompare_le _ _) H). exact Hc.
Qed.

Lemma in_range_inv x :
  in_range x = true ->
  (exists s, x = S754_zero s) \/
  (exists m e, x = S754_finite false m e /\ (inject_Z (Z.pos m) * pow2 e <= bound 10 0)%Q).
Proof.
  unfold in_range, fle, fcompare. rewrite value_f10. intros H.
  apply andb_true_iff in H. destruct H as [H0 H10].
  destruct x as [s|[]| |[] m e]; cbn [value f0] in *; try discriminate.
  - left. eauto.
  - exfalso. rewrite (Qcompare_gt _ _ (neg_value_neg m e)) in H0. discriminate.
  - right. exists m, e. split; [reflexivity|].
    rewrite <- f10_is_ten. apply Qcompare_le. intros Hc. rewrite Hc in H10. discriminate.
Qed.

(** *** [round(x, 2)] keeps a sub-score in range *)

Lemma round_half_even_bounds q n :
  (0 <= q)%Q -> (q <= inject_Z n)%Q -> 0 <= round_half_even q <= n.
Proof.
  intros H0 Hn. unfold round_half_even.
  pose proof (Qfloor_le q) as Hf. pose proof (Qlt_floor q) as Hf'.
  assert (Hf0 : 0 <= Qfloor q).
  { change 0 with (Qfloor 0). apply Qfloor_resp_le. assumption. }
  assert (Hfn : Qfloor q <= n).
  { rewrite <- (Qfloor_Z n). apply Qfloor_resp_le. assumption. }
  destruct (Qcompare (q - inject_Z (Qfloor q)) (1 # 2)) eqn:Hc.
  - apply Qeq_alt in Hc.
    assert (Qfloor q < n).
    { rewrite Zlt_Qlt. lra. }
    destruct (Z.even (Qfloor q)); lia.
  - lia.
  - apply Qgt_alt in Hc.
    assert (Qfloor q < n).
    { rewrite Zlt_Qlt. lra. }
    lia.
Qed.

Lemma cents_table :
  forallb (fun n => in_range (of_decimal false (N.of_nat n) 2)) (seq 0 1001) = true.
Proof. vm_compute. reflexivity. Qed.

Lemma cents_in_range d : 0 <= d <= 1000 -> in_range (of_decimal false (Z.to_N d) 2) = true.
Proof.
  intros Hd. pose proof cents_table as H.
  rewrite forallb_forall in H.
  replace (Z.to_N d) with (N.of_nat (Z.to_nat d)) by lia.
  apply H. apply in_seq. lia.
Qed.

Lemma round2_in_range x : in_range x = true -> in_range (round2 x) = true.
Proof.
  intros H. destruct (in_range_inv x H) as [[s ->]|(m & e & -> & Hle)].
  - reflexivity.
  - unfold round2. apply cents_in_range.
    apply round_half_even_bounds.
    + pose proof (pos_value_pos m e). lra.
    + unfold bound in Hle. change (pow2 0) with 1%Q in Hle.
      change (inject_Z 1000) with (100 * inject_Z 10)%Q. lra.
Qed.

(** *** The clamp and the mean are in range *)

Lemma flt_fle a b : flt a b = true -> fle a b = true.
Proof. unfold flt, fle. destruct (fcompare a b) as [[]|]; congruence. Qed.

(** [max(0.0, min(10.0, y))] is in range whatever [y] is, a NaN included. *)
Lemma clamp_in_range y : in_range (py_max f0 (py_min f10 y)) = true.
Proof.
  unfold py_max, py_min, fgt.
  destruct (flt y f10) eqn:H1.
  - destruct (flt f0 y) eqn:H2; [|reflexivity].
    unfold in_range. rewrite (flt_fle _ _ H1), (flt_fle _ _ H2). reflexivity.
  - reflexivity.
Qed.

Lemma int_truediv_in_range a b :
  0 <= a -> 0 < b -> a <= 10 * b -> in_range (int_truediv a b) = true.
Proof.
  intros Ha Hb Hab.
  destruct a as [|p|p]; [destruct b; reflexivity| |lia].
  destruct b as [|q|q]; try lia.
  cbn [int_truediv]. unfold fdiv, SFdiv.
  set (x := (inject_Z (Z.pos p) / inject_Z (Z.pos q))%Q).
  assert (Hx : (x * (inject_Z (Z.pos q) * pow2 0) == inject_Z (Z.pos p) * pow2 0)%Q).
  { unfold x. change (pow2 0) with 1%Q. field. discriminate. }
  pose proof (div_core_spec (Z.pos p) (Z.pos q) 0 0 x ltac:(lia) ltac:(lia) Hx) as Hd.
  destruct (SFdiv_core_binary prec emax (Z.pos p) 0 (Z.pos q) 0) as [[mz ez] lz].
  destruct Hd as (Hmz & Hinb & Hpre).
  assert (Hle : (x <= bound 10 0)%Q).
  { unfold bound. change (pow2 0) with 1%Q. unfold x.
    apply Qle_shift_div_r; [reflexivity|].
    rewrite Qmult_1_r, <- inject_Z_mult, <- Zle_Qle. lia. }
  pose proof (round_upper 10 0 ltac:(lia) ltac:(lia) (xorb false false) x mz ez lz
                Hmz Hinb Hpre ltac:(lia) Hle) as Hr.
  destruct (binary_round_aux prec emax (xorb false false) mz ez lz) as [s| | |s m e];
    try contradiction.
  - apply in_range_zero.
  - destruct Hr as [-> Hr]. apply in_range_finite. exact Hr.
Qed.

(** *** Sign and size of sums, differences and products *)

Lemma shr_fexp_nonneg m e l : 0 <= m -> 0 <= shr_m (fst (shr_fexp prec emax m e l)).
Proof.
  intros Hm. unfold shr_fexp, shr.
  destruct (fexp prec emax (Zdigits2 m + e) - e) as [|p|p]; cbn [fst];
    try (rewrite shr_record_of_loc_m; assumption).
  rewrite iter_pos_nat.
  destruct (shr_iter_spec (Pos.to_nat p) (shr_record_of_loc m l)) as [Hq _].
  { rewrite shr_record_of_loc_m. assumption. }
  rewrite Hq, shr_record_of_loc_m. apply Z.div_pos; [assumption|].
  apply Z.pow_pos_nonneg; lia.
Qed.

(** Rounding never produces a NaN and keeps the sign it is given. *)
Lemma round_sign s mx ex lx :
  0 <= mx ->
  match binary_round_aux prec emax s mx ex lx with
  | S754_zero s' | S754_infinity s' | S754_finite s' _ _ => s' = s
  | S754_nan => False
  end.
Proof.
  intros Hm. unfold binary_round_aux.
  pose proof (shr_fexp_nonneg mx ex lx Hm) as H1.
  destruct (shr_fexp prec emax mx ex lx) as [r1 e1]. cbn [fst] in H1.
  set (m1 := round_nearest_even (shr_m r1) (loc_of_shr_record r1)).
  assert (Hm1 : 0 <= m1).
  { destruct (rne_bounds (shr_m r1) (loc_of_shr_record r1)) as [Hb _]. unfold m1. lia. }
  pose proof (shr_fexp_nonneg m1 e1 loc_Exact Hm1) as H2.
  destruct (shr_fexp prec emax m1 e1 loc_Exact) as [r2 e2]. cbn [fst] in H2.
  destruct (shr_m r2); try lia; [reflexivity|].
  destruct (e2 <=? emax - prec); reflexivity.
Qed.

Lemma iter_xO m d : Z.pos (Pos.iter xO m d) = Z.pos m * 2 ^ Z.pos d.
Proof.
  induction d as [|d IH] using Pos.peano_ind.
  - cbn [Pos.iter]. lia.
  - rewrite Pos.iter_succ, Pos2Z.inj_succ, Z.pow_succ_r by lia.
    rewrite Pos2Z.inj_xO, IH. lia.
Qed.

(** Aligning a mantissa to a smaller exponent keeps the value. *)
Lemma shl_align_value m e t :
  (inject_Z (Z.pos (fst (shl_align m e t))) * pow2 (snd (shl_align m e t))
   == inject_Z (Z.pos m) * pow2 e)%Q.
Proof.
  unfold shl_align. destruct (t - e) as [|d|d] eqn:Hd; cbn [fst snd]; try reflexivity.
  rewrite iter_xO. rewrite (rescale (Z.pos m) t e) by lia.
  replace (e - t) with (Z.pos d) by lia. reflexivity.
Qed.

Lemma shl_align_exp m e t : t <= e -> snd (shl_align m e t) = t.
Proof.
  intros H. unfold shl_align. destruct (t - e) as [|d|d] eqn:Hd; cbn [snd]; lia.
Qed.

(** [binary_round] of a positive mantissa, bounded from below. *)
Lemma binary_round_lower g eb s m e :
  0 < g < 2 ^ 53 -> -1074 <= eb ->
  (bound g eb <= inject_Z (Z.pos m) * pow2 e)%Q ->
  match binary_round prec emax s m e with
  | S754_finite s' m' e' => s' = s /\ (bound g eb <= inject_Z (Z.pos m') * pow2 e')%Q
  | S754_infinity s' => s' = s
  | _ => False
  end.
Proof.
  intros Hg Heb Hle. unfold binary_round.
  pose proof (shl_align_value m e (fexp prec emax (Z.pos (digits2_pos m) + e))) as Hv.
  destruct (shl_align m e (fexp prec emax (Z.pos (digits2_pos m) + e))) as [mz ez].
  cbn [fst snd] in Hv.
  apply (round_lower g eb Hg Heb s (inject_Z (Z.pos mz) * pow2 ez)).
  - lia.
  - repeat split. + apply Qle_refl. + apply scale_lt. lia.
  - left. reflexivity.
  - rewrite Hv. assumption.
Qed.

Lemma binary_round_sign s m e :
  match binary_round prec emax s m e with
  | S754_zero s' | S754_infinity s' | S754_finite s' _ _ => s' = s
  | S754_nan => False
  end.
Proof.
  unfold binary_round.
  destruct (shl_align m e (fexp prec emax (Z.pos (digits2_pos m) + e))) as [mz ez].
  apply round_sign. lia.
Qed.

Lemma not_le_zero x : x <> S754_nan -> fle x f0 = false -> positive_float x.
Proof.
  intros Hn H. destruct x as [s|[]| |[] m e]; try exact I; try congruence;
    try (exfalso; revert H; unfold fle, fcompare; cbn [value f0]; try discriminate).
  rewrite (Qcompare_lt _ _ (neg_value_neg m e)). discriminate.
Qed.

Lemma positive_float_gt0 x : positive_float x -> flt f0 x = true.
Proof.
  destruct x as [s|[]| |[] m e]; try contradiction; intros _; [reflexivity|].
  unfold flt, fcompare. cbn [value f0].
  rewrite (Qcompare_lt _ _ (pos_value_pos m e)). reflexivity.
Qed.

(** [x + 1] is positive when [x] is. *)
Lemma fadd_one_positive x : positive_float x -> positive_float (fadd x f1).
Proof.
  destruct x as [s|[]| |[] m e]; try contradiction; intros _; [exact I|].
  unfold fadd, f1. cbn [SFadd].
  set (ez := Z.min e (-52)).
  cbn [cond_Zopp].
  set (a := fst (shl_align m e ez)). set (b := fst (shl_align 4503599627370496 (-52) ez)).
  change (Z.pos a + Z.pos b) with (Z.pos (a + b)). cbn [binary_normalize].
  pose proof (binary_round_lower 1 0 false (a + b) ez ltac:(lia) ltac:(lia)) as H.
  assert (Hle : (bound 1 0 <= inject_Z (Z.pos (a + b)) * pow2 ez)%Q).
  { pose proof (shl_align_value 4503599627370496 (-52) ez) as Hb.
    rewrite (shl_align_exp _ _ ez) in Hb by (unfold ez; lia). fold b in Hb.
    rewrite Pos2Z.inj_add, inject_Z_plus, Qmult_plus_distr_l, Hb.
    pose proof (pos_value_pos a ez). 
    assert (Hone : (inject_Z 4503599627370496 * pow2 (-52) == bound 1 0)%Q) by reflexivity.
    rewrite Hone. lra. }
  specialize (H Hle).
  destruct (binary_round prec emax false (a + b) ez) as [s'|s'| |s' m' e']; try contradiction.
  - subst s'. exact I.
  - destruct H as [-> _]. exact I.
Qed.

(** *** A bug count of 1.0 or more *)

Lemma f1_is_one : (inject_Z 4503599627370496 * pow2 (-52) == bound 1 0)%Q.
Proof. reflexivity. Qed.

Lemma bound_1 : (bound 1 0 == 1)%Q.
Proof. reflexivity. Qed.

Lemma bound_10 : (bound 10 0 == 10)%Q.
Proof. reflexivity. Qed.

Lemma ge_one_inv x :
  fge x f1 = true ->
  x = S754_infinity false \/
  exists m e, x = S754_finite false m e /\ (bound 1 0 <= inject_Z (Z.pos m) * pow2 e)%Q.
Proof.
  unfold fge, fle, fcompare, f1. cbn [value].
  destruct x as [s|[]| |[] m e]; cbn [value]; try discriminate.
  - intros _. left. reflexivity.
  - intros H. exfalso.
    assert (Hlt : (inject_Z (Z.neg m) * pow2 e < inject_Z 4503599627370496 * pow2 (-52))%Q).
    { pose proof (neg_value_neg m e). rewrite f1_is_one, bound_1. lra. }
    rewrite (Qcompare_gt _ _ Hlt) in H. discriminate.
  - intros H. right. exists m, e. split; [reflexivity|].
    rewrite <- f1_is_one. apply Qcompare_le. intros Hc. rewrite Hc in H. discriminate.
Qed.

Lemma fmul_ten_ge x : fge x f1 = true -> at_least_ten (fmul x f10).
Proof.
  intros H. destruct (ge_one_inv x H) as [->|(m & e & -> & Hle)]; [exact I|].
  unfold fmul, f10. cbn [SFmul xorb].
  set (x := (inject_Z (Z.pos (m * 5629499534213120)) * pow2 (e + -49))%Q).
  assert (Hx : (bound 10 0 <= x)%Q).
  { assert (Heq : (x == (inject_Z (Z.pos m) * pow2 e)
                          * (inject_Z 5629499534213120 * pow2 (-49)))%Q).
    { unfold x. rewrite Pos2Z.inj_mul, inject_Z_mult, pow2_add. ring. }
    rewrite Heq, f10_is_ten, bound_10. rewrite bound_1 in Hle. lra. }
  pose proof (round_lower 10 0 ltac:(lia) ltac:(lia) false x
                (Z.pos (m * 5629499534213120)) (e + -49) loc_Exact ltac:(lia)) as Hr.
  assert (Hinb : inb x (Z.pos (m * 5629499534213120)) (e + -49) loc_Exact).
  { repeat split. - apply Qle_refl. - apply scale_lt. lia. }
  specialize (Hr Hinb (or_introl (Qeq_refl _)) Hx).
  destruct (binary_round_aux prec emax false _ _ _) as [s'|s'| |s' m' e']; try contradiction.
  - subst s'. exact I.
  - destruct Hr as [-> Hr]. exact Hr.
Qed.

Lemma fsub_ten_nonpositive y : at_least_ten y -> nonpositive_float (fsub f10 y).
Proof.
  destruct y as [s|[]| |[] m e]; try contradiction; [intros _; exact I|].
  cbn [at_least_ten]. intros Hle.
  unfold fsub, f10. cbn [SFsub cond_Zopp].
  set (ez := Z.min (-49) e).
  pose proof (shl_align_value 5629499534213120 (-49) ez) as Ha.
  pose proof (shl_align_value m e ez) as Hb.
  rewrite (shl_align_exp _ _ ez) in Ha by (unfold ez; lia).
  rewrite (shl_align_exp _ _ ez) in Hb by (unfold ez; lia).
  set (a := fst (shl_align 5629499534213120 (-49) ez)) in *.
  set (b := fst (shl_align m e ez)) in *.
  assert (Hab : Z.pos a <= Z.pos b).
  { apply (scale_le _ _ ez). rewrite Ha, Hb, f10_is_ten. assumption. }
  destruct (Z.pos a - Z.pos b) as [|p|p] eqn:Hd; try lia.
  - exact I.
  - cbn [binary_normalize].
    pose proof (binary_round_sign true p ez) as Hs.
    destruct (binary_round prec emax true p ez) as [s'|s'| |s' m' e']; try contradiction;
      subst s'; exact I.
Qed.

Lemma clamp_nonpositive z : nonpositive_float z -> py_max f0 (py_min f10 z) = f0.
Proof.
  intros Hz.
  assert (H10 : flt z f10 = true).
  { destruct z as [s|[]| |[] m e]; try contradiction; try reflexivity.
    unfold flt, fcompare, f10. cbn [value].
    assert (Hlt : (inject_Z (Z.neg m) * pow2 e < inject_Z 5629499534213120 * pow2 (-49))%Q).
    { pose proof (neg_value_neg m e). rewrite f10_is_ten, bound_10. lra. }
    rewrite (Qcompare_lt _ _ Hlt). reflexivity. }
  assert (H0 : flt f0 z = false).
  { destruct z as [s|[]| |[] m e]; try contradiction; try reflexivity.
    unfold flt, fcompare. cbn [value f0].
    rewrite (Qcompare_gt _ _ (neg_value_neg m e)). reflexivity. }
  unfold py_max, py_min, fgt. rewrite H10, H0. reflexivity.
Qed.

(** A predicted-bug count of 1.0 or more floors the bug score at 0. *)
Lemma bug_score_floor rb :
  fge rb f1 = true ->
  round2 (py_max f0 (py_min f10 (fsub f10 (fmul rb f10)))) = f0.
Proof.
  intros H. rewrite clamp_nonpositive; [reflexivity|].
  apply fsub_ten_nonpositive, fmul_ten_ge, H.
Qed.

(** *** The order of floats, [max] and the clamp of the specification *)

Lemma Qcompare_cases p q :
  (Qcompare p q = Lt /\ (p < q)%Q) \/ (Qcompare p q = Eq /\ (p == q)%Q)
  \/ (Qcompare p q = Gt /\ (q < p)%Q).
Proof.
  destruct (Qcompare p q) eqn:H.
  - right. left. split; [reflexivity|]. apply Qeq_alt. exact H.
  - left. split; [reflexivity|]. apply Qlt_alt. exact H.
  - right. right. split; [reflexivity|]. apply Qgt_alt. exact H.
Qed.

Lemma flt_irrefl a : flt a a = false.
Proof.
  unfold flt, fcompare. destruct (value a); try reflexivity. (order_cases Qcompare_cases).
Qed.

Lemma flt_trans a b c : flt a b = true -> flt b c = true -> flt a c = true.
Proof.
  unfold flt, fcompare.
  destruct (value a), (value b), (value c); intros H1 H2; (order_cases Qcompare_cases).
Qed.

Lemma flt_le_trans r a b :
  value a <> XNaN -> flt r b = true -> flt a b = false -> flt r a = true.
Proof.
  unfold flt, fcompare.
  destruct (value a), (value b), (value r); intros Hn H1 H2; (order_cases Qcompare_cases).
Qed.

Lemma value_nan x : value x = XNaN <-> x = S754_nan.
Proof. destruct x as [s|[]| |[] m e]; simpl; split; congruence. Qed.

Lemma py_max_list_nan l : py_max_list S754_nan l = S754_nan.
Proof. induction l as [|y l IH]; [reflexivity|]. exact IH. Qed.

(** [max(x :: l)] is an element that no element exceeds. *)
Lemma py_max_list_spec x l :
  In (py_max_list x l) (x :: l) /\
  forall y, In y (x :: l) -> fgt y (py_max_list x l) = false.
Proof.
  revert x. induction l as [|a l IH]; intros x.
  - split; [left; reflexivity|]. intros y [<-|[]]. apply flt_irrefl.
  - change (py_max_list x (a :: l)) with (py_max_list (py_max x a) l).
    destruct (IH (py_max x a)) as [Hin Hmax]. unfold py_max in *.
    destruct (fgt a x) eqn:Hax.
    + split.
      * destruct Hin as [Hin|Hin]; [right; left; exact Hin | right; right; exact Hin].
      * intros y [<-|Hy]; [|apply Hmax; exact Hy].
        pose proof (Hmax a (or_introl eq_refl)) as Ha.
        destruct (fgt x (py_max_list a l)) eqn:Hx; [|reflexivity].
        unfold fgt in *. rewrite (flt_trans _ _ _ Hx Hax) in Ha. discriminate.
    + split.
      * destruct Hin as [Hin|Hin]; [left; exact Hin | right; right; exact Hin].
      * intros y [<-|[<-|Hy]].
        -- apply Hmax. left. reflexivity.
        -- destruct (fgt a (py_max_list x l)) eqn:Ha; [|reflexivity]. exfalso.
           pose proof (Hmax x (or_introl eq_refl)) as Hx.
           unfold fgt in *.
           destruct (value x) eqn:Hv.
           2-4: assert (Hn : value x <> XNaN) by congruence;
                rewrite (flt_le_trans _ _ _ Hn Ha Hax) in Hx; discriminate.
           apply value_nan in Hv. subst x. rewrite py_max_list_nan in Ha.
           discriminate.
        -- apply Hmax. right. exact Hy.
Qed.

(** The clamp the code writes with [max] and [min] is the three-way clamp,
    up to [==] of floats, on every number. *)
Lemma clamp_refines x :
  x <> S754_nan -> feq (py_max f0 (py_min f10 x)) (clamp x f0 f10) = true.
Proof.
  intros Hn. assert (Hv : value x <> XNaN) by (rewrite value_nan; exact Hn).
  unfold py_max, py_min, clamp, fgt.
  pose proof f10_is_ten as H10. rewrite bound_10 in H10.
  assert (Hv10 : value f10 = XFin (inject_Z 5629499534213120 * pow2 (-49))) by reflexivity.
  assert (Hv0 : value f0 = XFin 0) by reflexivity.
  destruct (flt x f10) eqn:A; destruct (flt x f0) eqn:B; destruct (flt f10 x) eqn:C;
    try destruct (flt f0 x) eqn:D; try (change (flt f0 f10) with true; cbv iota);
    unfold feq, flt, fcompare in *; rewrite ?Hv10, ?Hv0 in *;
    destruct (value x) as [| |q|]; try congruence; cbn iota in *;
    qcases Qcompare_cases; try congruence; try (exfalso; lra).
Qed.

Lemma fmul_comm x y : fmul x y = fmul y x.
Proof.
  unfold fmul. destruct x as [sx|sx| |sx mx ex], y as [sy|sy| |sy my ey]; cbn [SFmul];
    try reflexivity; try (rewrite xorb_comm; reflexivity).
  rewrite xorb_comm, Pos.mul_comm, Z.add_comm. reflexivity.
Qed.

(** *** [round(x, 2)] and float equality *)

Lemma round_half_even_compat p q : (p == q)%Q -> round_half_even p = round_half_even q.
Proof.
  intros H. unfold round_half_even.
  rewrite (Qfloor_comp _ _ H).
  assert (Hc : Qcompare (p - inject_Z (Qfloor q)) (1 # 2) = Qcompare (q - inject_Z (Qfloor q)) (1 # 2)).
  { apply Qcompare_comp; [rewrite H|]; reflexivity. }
  rewrite Hc. reflexivity.
Qed.

Lemma feq_refl x : x <> S754_nan -> feq x x = true.
Proof.
  intros Hn. unfold feq, fcompare.
  destruct (value x) eqn:Hv; try reflexivity.
  - apply value_nan in Hv. congruence.
  - destruct (Qcompare_cases q q) as [[H H']|[[H H']|[H H']]]; rewrite H; try reflexivity;
      exfalso; lra.
Qed.

Lemma of_decimal_not_nan s n k : of_decimal s n k <> S754_nan.
Proof.
  unfold of_decimal. destruct n as [|p]; [discriminate|].
  unfold fdiv, SFdiv.
  pose proof (div_core_spec (Z.pos p) (Z.pos (Z.to_pos (10 ^ Z.of_nat k))) 0 0
                (inject_Z (Z.pos p) / inject_Z (Z.pos (Z.to_pos (10 ^ Z.of_nat k))))
                ltac:(lia) ltac:(lia)) as Hd.
  destruct (SFdiv_core_binary prec emax (Z.pos p) 0 (Z.pos (Z.to_pos (10 ^ Z.of_nat k))) 0)
    as [[mz ez] lz].
  destruct Hd as (Hmz & _ & _).
  { change (pow2 0) with 1%Q. field. discriminate. }
  pose proof (round_sign (xorb s false) mz ez lz Hmz) as Hs.
  destruct (binary_round_aux prec emax (xorb s false) mz ez lz); try discriminate.
  contradiction.
Qed.

(** [round(x, 2)] respects [==]. *)
Lemma round2_feq a b : feq a b = true -> feq (round2 a) (round2 b) = true.
Proof.
  intros H.
  destruct a as [sa|sa| |sa ma ea], b as [sb|sb| |sb mb eb]; try exact H;
    try (unfold feq, fcompare in H; cbn [value] in H; destruct sa; discriminate);
    try (unfold feq, fcompare in H; cbn [value] in H; destruct sb; discriminate).
  - (* zero, finite *)
    exfalso. unfold feq, fcompare in H. cbn [value] in H.
    destruct sb.
    + rewrite (Qcompare_gt _ _ (neg_value_neg mb eb)) in H. discriminate.
    + rewrite (Qcompare_lt _ _ (pos_value_pos mb eb)) in H. discriminate.
  - exfalso. unfold feq, fcompare in H. cbn [value] in H.
    destruct sa.
    + rewrite (Qcompare_lt _ _ (neg_value_neg ma ea)) in H. discriminate.
    + rewrite (Qcompare_gt _ _ (pos_value_pos ma ea)) in H. discriminate.
  - unfold feq, fcompare in H. cbn [value] in H.
    destruct (Qcompare_cases (inject_Z (if sa then Z.neg ma else Z.pos ma) * pow2 ea)
                (inject_Z (if sb then Z.neg mb else Z.pos mb) * pow2 eb))
      as [[Hc Hq]|[[Hc Hq]|[Hc Hq]]]; rewrite Hc in H; try discriminate.
    pose proof (pos_value_pos ma ea). pose proof (pos_value_pos mb eb).
    pose proof (neg_value_neg ma ea). pose proof (neg_value_neg mb eb).
    assert (Hs : sa = sb).
    { destruct sa, sb; try reflexivity; exfalso; lra. }
    subst sb.
    assert (Hv : (inject_Z (Z.pos ma) * pow2 ea == inject_Z (Z.pos mb) * pow2 eb)%Q).
    { destruct sa; [|exact Hq].
      change (Z.neg ma) with (- Z.pos ma) in Hq. change (Z.neg mb) with (- Z.pos mb) in Hq.
      rewrite !inject_Z_opp in Hq. lra. }
    unfold round2.
    rewrite (round_half_even_compat (100 * (inject_Z (Z.pos ma) * pow2 ea))
               (100 * (inject_Z (Z.pos mb) * pow2 eb))) by (rewrite Hv; reflexivity).
    apply feq_refl, of_decimal_not_nan.
Qed.

(** *** Floats of a given sign and size *)

Lemma bound_0 g : (bound g 0 == inject_Z g)%Q.
Proof. unfold bound. change (pow2 0) with 1%Q. ring. Qed.

(** The float nearest to [n / 10^k] is no smaller than an integer below
    the quotient. *)
Lemma of_decimal_from g s n k :
  0 < g < 2 ^ 53 -> g * 10 ^ Z.of_nat k <= Z.of_N n ->
  magnitude_from g s (of_decimal s n k).
Proof.
  intros Hg Hn.
  assert (Hk : 0 < 10 ^ Z.of_nat k) by (apply Z.pow_pos_nonneg; lia).
  destruct n as [|p]; [cbn in Hn; nia|].
  unfold of_decimal, fdiv, SFdiv.
  set (q := Z.to_pos (10 ^ Z.of_nat k)).
  assert (Hq : Z.pos q = 10 ^ Z.of_nat k) by (unfold q; rewrite Z2Pos.id; lia).
  set (x := (inject_Z (Z.pos p) / inject_Z (Z.pos q))%Q).
  assert (Hx : (x * (inject_Z (Z.pos q) * pow2 0) == inject_Z (Z.pos p) * pow2 0)%Q).
  { unfold x. change (pow2 0) with 1%Q. field. discriminate. }
  pose proof (div_core_spec (Z.pos p) (Z.pos q) 0 0 x ltac:(lia) ltac:(lia) Hx) as Hd.
  destruct (SFdiv_core_binary prec emax (Z.pos p) 0 (Z.pos q) 0) as [[mz ez] lz].
  destruct Hd as (Hmz & Hinb & Hpre).
  assert (Hle : (bound g 0 <= x)%Q).
  { rewrite bound_0. unfold x. apply Qle_shift_div_l; [reflexivity|].
    rewrite <- inject_Z_mult, <- Zle_Qle. rewrite Hq. exact Hn. }
  pose proof (round_lower g 0 Hg ltac:(lia) (xorb s false) x mz ez lz
                Hmz Hinb (or_intror Hpre) Hle) as Hr.
  rewrite xorb_false_r in *.
  destruct (binary_round_aux prec emax s mz ez lz) as [s'|s'| |s' m e];
    try contradiction; exact Hr.
Qed.

Lemma round_half_even_lower q n : (inject_Z n <= q)%Q -> n <= round_half_even q.
Proof.
  intros Hn. unfold round_half_even.
  assert (Hf : n <= Qfloor q).
  { rewrite <- (Qfloor_Z n). apply Qfloor_resp_le. assumption. }
  destruct (Qcompare _ _); [destruct (Z.even _)| |]; lia.
Qed.

(** Rounding to two decimals keeps the sign and does not go below an
    integer that the magnitude reaches. *)
Lemma round2_from g s x :
  0 < g < 2 ^ 53 -> magnitude_from g s x -> magnitude_from g s (round2 x).
Proof.
  intros Hg. destruct x as [s'|s'| |s' m e]; try contradiction; [exact (fun H => H)|].
  intros [-> Hle]. cbn [round2].
  apply of_decimal_from; [exact Hg|].
  change (10 ^ Z.of_nat 2) with 100.
  assert (H : g * 100 <= round_half_even (100 * (inject_Z (Z.pos m) * pow2 e))).
  { apply round_half_even_lower. rewrite inject_Z_mult. rewrite bound_0 in Hle.
    change (inject_Z 100) with 100%Q. lra. }
  rewrite Z2N.id; lia.
Qed.

Lemma below_zero g x : 0 < g -> magnitude_from g true x -> flt x f0 = true.
Proof.
  intros Hg. destruct x as [s'|s'| |s' m e]; try contradiction.
  - intros ->. reflexivity.
  - intros [-> _]. unfold flt, fcompare. cbn [value f0].
    rewrite (Qcompare_lt _ _ (neg_value_neg m e)). reflexivity.
Qed.

Lemma above_ten g x : 10 < g -> magnitude_from g false x -> flt f10 x = true.
Proof.
  intros Hg. destruct x as [s'|s'| |s' m e]; try contradiction.
  - intros ->. reflexivity.
  - intros [-> Hle]. unfold flt, fcompare, f10. cbn [value].
    assert (Hlt : (inject_Z 5629499534213120 * pow2 (-49) < inject_Z (Z.pos m) * pow2 e)%Q).
    { rewrite f10_is_ten, bound_10. rewrite bound_0 in Hle.
      assert (inject_Z 10 < inject_Z g)%Q by (rewrite <- Zlt_Qlt; exact Hg).
      change (inject_Z 10) with 10%Q in *. lra. }
    rewrite (Qcompare_lt _ _ Hlt). reflexivity.
Qed.

Lemma flt_not_fle a b : flt a b = true -> fle b a = false.
Proof.
  unfold flt, fle, fcompare.
  destruct (value a) as [| |p|], (value b) as [| |q|]; try discriminate; try reflexivity.
  destruct (Qcompare_cases p q) as [[H H']|[[H H']|[H H']]]; rewrite H; try discriminate.
  intros _. rewrite (Qcompare_gt _ _ H'). reflexivity.
Qed.

Lemma below_zero_out x : flt x f0 = true -> in_range x = false.
Proof. intros H. unfold in_range. rewrite (flt_not_fle _ _ H). reflexivity. Qed.

Lemma above_ten_out x : flt f10 x = true -> in_range x = false.
Proof.
  intros H. unfold in_range. rewrite (flt_not_fle _ _ H). apply andb_false_r.
Qed.

(** *** Exact quotients and rounding of integers *)

Lemma round_half_even_Z k : round_half_even (inject_Z k) = k.
Proof.
  unfold round_half_even. rewrite Qfloor_Z.
  assert (H : (inject_Z k - inject_Z k < 1 # 2)%Q) by lra.
  rewrite (Qcompare_lt _ _ H). reflexivity.
Qed.

(** [round(x, 2)] of a float whose value is the integer [s]. *)
Lemma round2_integer m e s :
  0 <= s -> (inject_Z (Z.pos m) * pow2 e == inject_Z s)%Q ->
  round2 (S754_finite false m e) = of_decimal false (Z.to_N (100 * s)) 2.
Proof.
  intros Hs Hv. cbn [round2].
  rewrite (round_half_even_compat _ (inject_Z (100 * s))).
  - rewrite round_half_even_Z. reflexivity.
  - rewrite Hv, inject_Z_mult. reflexivity.
Qed.

(** The quotient [(n * s) / n] is the float of value [s]. *)
Lemma int_truediv_exact s n :
  0 < s < 2 ^ 53 -> 0 < n ->
  exists m e, int_truediv (n * s) n = S754_finite false m e /\
    (inject_Z (Z.pos m) * pow2 e == inject_Z s)%Q.
Proof.
  intros Hs Hn.
  destruct (n * s) as [|p|p] eqn:Hp; try nia.
  destruct n as [|q|q]; try lia.
  cbn [int_truediv]. unfold fdiv, SFdiv.
  assert (Hx : (inject_Z s * (inject_Z (Z.pos q) * pow2 0) == inject_Z (Z.pos p) * pow2 0)%Q).
  { change (pow2 0) with 1%Q. rewrite <- Hp, inject_Z_mult. ring. }
  pose proof (div_core_spec (Z.pos p) (Z.pos q) 0 0 (inject_Z s) ltac:(lia) ltac:(lia) Hx) as Hd.
  destruct (SFdiv_core_binary prec emax (Z.pos p) 0 (Z.pos q) 0) as [[mz ez] lz].
  destruct Hd as (Hmz & Hinb & Hpre).
  assert (Hb : (bound s 0 == inject_Z s)%Q) by apply bound_0.
  pose proof (round_lower s 0 Hs ltac:(lia) (xorb false false) (inject_Z s) mz ez lz
                Hmz Hinb (or_intror Hpre) ltac:(rewrite Hb; apply Qle_refl)) as Hlo.
  pose proof (round_upper s 0 Hs ltac:(lia) (xorb false false) (inject_Z s) mz ez lz
                Hmz Hinb Hpre ltac:(lia) ltac:(rewrite Hb; apply Qle_refl)) as Hhi.
  destruct (binary_round_aux prec emax (xorb false false) mz ez lz) as [s'|s'| |s' m e];
    try contradiction.
  destruct Hlo as [-> Hlo]. destruct Hhi as [_ Hhi].
  exists m, e. split; [reflexivity|].
  rewrite Hb in Hlo, Hhi. apply Qle_antisym; assumption.
Qed.

(** *** NaN in sums *)

Lemma fadd_nan_r x : fadd x S754_nan = S754_nan.
Proof. destruct x as [s|s| |s m e]; reflexivity. Qed.

Lemma fadd_nan_l y : fadd S754_nan y = S754_nan.
Proof. reflexivity. Qed.

Lemma fold_fadd_nan l : fold_left fadd l S754_nan = S754_nan.
Proof. induction l as [|x l IH]; [reflexivity|]. cbn [fold_left]. exact IH. Qed.

Lemma py_sum_nan l : In S754_nan l -> py_sum l = S754_nan.
Proof.
  unfold py_sum. generalize (S754_zero false). induction l as [|x l IH]; intros acc Hin.
  - destruct Hin.
  - cbn [fold_left]. destruct Hin as [->|Hin].
    + rewrite fadd_nan_r. apply fold_fadd_nan.
    + apply IH. exact Hin.
Qed.

Lemma py_sum_zeros l : Forall (fun x => x = f0) l -> py_sum l = f0.
Proof.
  unfold py_sum. intros H. induction H as [|x l -> _ IH]; [reflexivity|].
  cbn [fold_left]. exact IH.
Qed.

Lemma py_max_list_zeros l : Forall (fun x => x = f0) l -> py_max_list f0 l = f0.
Proof.
  unfold py_max_list. intros H. induction H as [|x l -> _ IH]; [reflexivity|].
  cbn [fold_left]. exact IH.
Qed.

(** *** Where the penalties leave the interval *)

Lemma of_Z_5 : of_Z 5 = S754_finite false 5629499534213120 (-50).
Proof. vm_compute. reflexivity. Qed.

Lemma f5_is_five : (inject_Z 5629499534213120 * pow2 (-50) == bound 5 0)%Q.
Proof. reflexivity. Qed.

Lemma f2_is_two : (inject_Z 4503599627370496 * pow2 (-51) == bound 2 0)%Q.
Proof. reflexivity. Qed.

Lemma ge_five_inv x :
  fge x (of_Z 5) = true ->
  x = S754_infinity false \/
  exists m e, x = S754_finite false m e /\ (bound 5 0 <= inject_Z (Z.pos m) * pow2 e)%Q.
Proof.
  rewrite of_Z_5. unfold fge, fle, fcompare. cbn [value].
  destruct x as [s|[]| |[] m e]; cbn [value]; try discriminate.
  - intros _. left. reflexivity.
  - intros H. exfalso.
    assert (Hlt : (inject_Z (Z.neg m) * pow2 e < inject_Z 5629499534213120 * pow2 (-50))%Q).
    { pose proof (neg_value_neg m e). rewrite f5_is_five, bound_0.
      change (inject_Z 5) with 5%Q. lra. }
    rewrite (Qcompare_gt _ _ Hlt) in H. discriminate.
  - intros H. right. exists m, e. split; [reflexivity|].
    rewrite <- f5_is_five. apply Qcompare_le. intros Hc. rewrite Hc in H. discriminate.
Qed.

(** [l * 2.0] is 10 or more when [l] is 5 or more. *)
Lemma fmul_two_ge x : fge x (of_Z 5) = true -> at_least_ten (fmul x f2).
Proof.
  intros H. destruct (ge_five_inv x H) as [->|(m & e & -> & Hle)]; [exact I|].
  unfold fmul, f2. cbn [SFmul xorb].
  set (x := (inject_Z (Z.pos (m * 4503599627370496)) * pow2 (e + -51))%Q).
  assert (Hx : (bound 10 0 <= x)%Q).
  { assert (Heq : (x == (inject_Z (Z.pos m) * pow2 e)
                          * (inject_Z 4503599627370496 * pow2 (-51)))%Q).
    { unfold x. rewrite Pos2Z.inj_mul, inject_Z_mult, pow2_add. ring. }
    rewrite Heq, f2_is_two, !bound_0. rewrite bound_0 in Hle.
    change (inject_Z 10) with 10%Q. change (inject_Z 2) with 2%Q.
    change (inject_Z 5) with 5%Q in Hle. lra. }
  pose proof (round_lower 10 0 ltac:(lia) ltac:(lia) false x
                (Z.pos (m * 4503599627370496)) (e + -51) loc_Exact ltac:(lia)) as Hr.
  assert (Hinb : inb x (Z.pos (m * 4503599627370496)) (e + -51) loc_Exact).
  { repeat split. - apply Qle_refl. - apply scale_lt. lia. }
  specialize (Hr Hinb (or_introl (Qeq_refl _)) Hx).
  destruct (binary_round_aux prec emax false _ _ _) as [s'|s'| |s' m' e']; try contradiction.
  - subst s'. exact I.
  - destruct Hr as [-> Hr]. exact Hr.
Qed.

(** An effort whose logarithm is 5 or more scores 0. *)
Lemma effort_score_floor l :
  fge l (of_Z 5) = true ->
  round2 (py_max f0 (py_min f10 (fsub f10 (fmul l f2)))) = f0.
Proof.
  intros H. rewrite clamp_nonpositive; [reflexivity|].
  apply fsub_ten_nonpositive, fmul_two_ge, H.
Qed.

(** [10.0 - y] is 10 or more when [y] is below zero. *)
Lemma fsub_ten_negative m e : at_least_ten (fsub f10 (S754_finite true m e)).
Proof.
  unfold fsub, f10. cbn [SFsub cond_Zopp].
  set (ez := Z.min (-49) e).
  pose proof (shl_align_value 5629499534213120 (-49) ez) as Ha.
  rewrite (shl_align_exp _ _ ez) in Ha by (unfold ez; lia).
  set (a := fst (shl_align 5629499534213120 (-49) ez)) in *.
  set (b := fst (shl_align m e ez)) in *.
  replace (Z.pos a - - Z.pos b) with (Z.pos (a + b)) by lia. cbn [binary_normalize].
  pose proof (binary_round_lower 10 0 false (a + b) ez ltac:(lia) ltac:(lia)) as H.
  assert (Hle : (bound 10 0 <= inject_Z (Z.pos (a + b)) * pow2 ez)%Q).
  { rewrite Pos2Z.inj_add, inject_Z_plus, Qmult_plus_distr_l, Ha, f10_is_ten.
    pose proof (pos_value_pos b ez). lra. }
  specialize (H Hle).
  destruct (binary_round prec emax false (a + b) ez) as [s'|s'| |s' m' e']; try contradiction.
  - subst s'. exact I.
  - destruct H as [-> H]. exact H.
Qed.

Lemma at_least_ten_not_below y : at_least_ten y -> flt y f10 = false.
Proof.
  destruct y as [s|[]| |[] m e]; try contradiction; [reflexivity|].
  cbn [at_least_ten]. intros Hle. unfold flt, fcompare, f10. cbn [value].
  destruct (Qcompare_cases (inject_Z (Z.pos m) * pow2 e)
              (inject_Z 5629499534213120 * pow2 (-49))) as [[H H']|[[H H']|[H H']]];
    rewrite H; try reflexivity.
  exfalso. rewrite f10_is_ten in H'. lra.
Qed.

Lemma clamp_at_least_ten y : at_least_ten y -> py_max f0 (py_min f10 y) = f10.
Proof.
  intros H. unfold py_min. rewrite (at_least_ten_not_below y H). reflexivity.
Qed.

Lemma fmul_ten_nonpositive rb : fle rb f0 = true -> nonpositive_float (fmul rb f10).
Proof.
  destruct rb as [s|[]| |[] m e]; try discriminate; intros H; try exact I.
  - unfold fmul, f10. cbn [SFmul xorb].
    pose proof (round_sign true (Z.pos (m * 5629499534213120)) (e + -49) loc_Exact
                  ltac:(lia)) as Hs.
    destruct (binary_round_aux prec emax true _ _ _) as [s'|s'| |s' m' e'];
      try contradiction; subst s'; exact I.
  - exfalso. revert H. unfold fle, fcompare. cbn [value f0].
    rewrite (Qcompare_gt _ _ (pos_value_pos m e)). discriminate.
Qed.

(** A count of bugs at or below zero gives the full bug score. *)
Lemma bug_score_ceiling rb :
  fle rb f0 = true ->
  round2 (py_max f0 (py_min f10 (fsub f10 (fmul rb f10)))) = f10.
Proof.
  intros H. pose proof (fmul_ten_nonpositive rb H) as Hz.
  destruct (fmul rb f10) as [s|[]| |[] m e]; try contradiction.
  - destruct s; vm_compute; reflexivity.
  - vm_compute. reflexivity.
  - rewrite (clamp_at_least_ten _ (fsub_ten_negative m e)). vm_compute. reflexivity.
Qed.

(** A NaN in the place of a penalty gives the full score. *)
Lemma clamp_nan : round2 (py_max f0 (py_min f10 (fsub f10 (fmul S754_nan f10)))) = f10.
Proof. vm_compute. reflexivity. Qed.

(** *** Quotients between two integers *)

Lemma int_truediv_from lo a b :
  0 < lo < 2 ^ 53 -> 0 < b -> lo * b <= a ->
  magnitude_from lo false (int_truediv a b).
Proof.
  intros Hlo Hb Hab.
  destruct a as [|p|p]; try nia. destruct b as [|q|q]; try lia.
  cbn [int_truediv]. unfold fdiv, SFdiv.
  set (x := (inject_Z (Z.pos p) / inject_Z (Z.pos q))%Q).
  assert (Hx : (x * (inject_Z (Z.pos q) * pow2 0) == inject_Z (Z.pos p) * pow2 0)%Q).
  { unfold x. change (pow2 0) with 1%Q. field. discriminate. }
  pose proof (div_core_spec (Z.pos p) (Z.pos q) 0 0 x ltac:(lia) ltac:(lia) Hx) as Hd.
  destruct (SFdiv_core_binary prec emax (Z.pos p) 0 (Z.pos q) 0) as [[mz ez] lz].
  destruct Hd as (Hmz & Hinb & Hpre).
  assert (Hle : (bound lo 0 <= x)%Q).
  { rewrite bound_0. unfold x. apply Qle_shift_div_l; [reflexivity|].
    rewrite <- inject_Z_mult, <- Zle_Qle. exact Hab. }
  pose proof (round_lower lo 0 Hlo ltac:(lia) (xorb false false) x mz ez lz
                Hmz Hinb (or_intror Hpre) Hle) as Hr.
  destruct (binary_round_aux prec emax (xorb false false) mz ez lz) as [s'|s'| |s' m e];
    try contradiction; exact Hr.
Qed.

Lemma fdiv_upto hi p q :
  0 < hi < 2 ^ 53 -> Z.pos p <= hi * Z.pos q ->
  upto hi (fdiv (S754_finite false p 0) (S754_finite false q 0)).
Proof.
  intros Hhi Hab. unfold fdiv, SFdiv.
  set (x := (inject_Z (Z.pos p) / inject_Z (Z.pos q))%Q).
  assert (Hx : (x * (inject_Z (Z.pos q) * pow2 0) == inject_Z (Z.pos p) * pow2 0)%Q).
  { unfold x. change (pow2 0) with 1%Q. field. discriminate. }
  pose proof (div_core_spec (Z.pos p) (Z.pos q) 0 0 x ltac:(lia) ltac:(lia) Hx) as Hd.
  destruct (SFdiv_core_binary prec emax (Z.pos p) 0 (Z.pos q) 0) as [[mz ez] lz].
  destruct Hd as (Hmz & Hinb & Hpre).
  assert (Hle : (x <= bound hi 0)%Q).
  { rewrite bound_0. unfold x. apply Qle_shift_div_r; [reflexivity|].
    rewrite <- inject_Z_mult, <- Zle_Qle. exact Hab. }
  pose proof (round_upper hi 0 Hhi ltac:(lia) (xorb false false) x mz ez lz
                Hmz Hinb Hpre ltac:(lia) Hle) as Hr.
  destruct (binary_round_aux prec emax (xorb false false) mz ez lz) as [s'|s'| |s' m e];
    try contradiction.
  - cbn in Hr. subst s'. exact I.
  - destruct Hr as [Hs Hr]. cbn in Hs. subst s'. exact Hr.
Qed.

Lemma int_truediv_upto hi a b :
  0 < hi < 2 ^ 53 -> 0 <= a -> 0 < b -> a <= hi * b ->
  upto hi (int_truediv a b).
Proof.
  intros Hhi Ha Hb Hab.
  destruct a as [|p|p]; try lia; destruct b as [|q|q]; try lia.
  - exact I.
  - cbn [int_truediv]. apply fdiv_upto; assumption.
Qed.

Lemma of_decimal_upto hi n k :
  0 < hi < 2 ^ 53 -> Z.of_N n <= hi * 10 ^ Z.of_nat k ->
  upto hi (of_decimal false n k).
Proof.
  intros Hhi Hn.
  assert (Hk : 0 < 10 ^ Z.of_nat k) by (apply Z.pow_pos_nonneg; lia).
  destruct n as [|p]; [exact I|].
  unfold of_decimal. apply fdiv_upto; [exact Hhi|].
  rewrite Z2Pos.id by lia. exact Hn.
Qed.

Lemma round2_upto hi x : 0 < hi < 2 ^ 53 -> upto hi x -> upto hi (round2 x).
Proof.
  intros Hhi. destruct x as [[]|s'| |[] m e]; try contradiction; [exact (fun H => H)|].
  cbn [upto round2]. intros Hle. apply of_decimal_upto; [exact Hhi|].
  change (10 ^ Z.of_nat 2) with 100.
  destruct (round_half_even_bounds (100 * (inject_Z (Z.pos m) * pow2 e)) (100 * hi))
    as [H0 H1].
  - pose proof (pos_value_pos m e). lra.
  - rewrite inject_Z_mult. rewrite bound_0 in Hle. change (inject_Z 100) with 100%Q. lra.
  - rewrite Z2N.id; lia.
Qed.

Lemma between_intro lo hi x :
  0 < lo -> magnitude_from lo false x -> upto hi x -> between lo hi x.
Proof.
  intros Hlo Hm Hu.
  destruct x as [s|s| |s m e]; cbn [magnitude_from] in Hm; try contradiction.
  destruct Hm as [-> H1]. cbn [upto] in Hu. unfold between. cbn [value].
  rewrite bound_0 in H1, Hu. split; assumption.
Qed.

Lemma between_zero hi x : 0 <= hi -> upto hi x -> between 0 hi x.
Proof.
  intros Hhi Hu. destruct x as [s|s| |s m e]; cbn [upto] in Hu; try contradiction.
  - unfold between. cbn [value]. split; [apply Qle_refl|].
    change 0%Q with (inject_Z 0). rewrite <- Zle_Qle. exact Hhi.
  - destruct s; [contradiction|]. cbn [upto] in Hu. unfold between. cbn [value].
    rewrite bound_0 in Hu. split; [|exact Hu].
    pose proof (pos_value_pos m e). change (inject_Z 0) with 0%Q. lra.
Qed.

End Scores.

Import Scores.

(** ** The two patterns

    The matcher reads words of its pattern only; the group of a match is
    a decimal literal, which [float] accepts; on a text that holds a
    rating the patterns match and capture its literal. *)

Module Matching.

Import Regex.

(** *** The matcher reads words of its pattern *)

Lemma step_sound {R} p st (k : mstate -> option R) v :
  step p st k = Some v ->
  exists a s, rest st = a :: s /\ p a = true /\ k (MState s (a :: taken st) (group1 st)) = Some v.
Proof.
  unfold step. destruct (rest st) as [|a s]; [discriminate|].
  destruct (p a) eqn:Hp; [|discriminate]. intros H. eauto.
Qed.

Lemma orelse_some {R} (a b : option R) v :
  orelse a b = Some v -> a = Some v \/ b = Some v.
Proof. destruct a; simpl; intros H; auto. Qed.

Lemma repeat_sound {R} r (body : mstate -> (mstate -> option R) -> option R) :
  (forall st k v, body st k = Some v -> exists st', Reach r st st' /\ k st' = Some v) ->
  forall n st k v, repeat body n st k = Some v ->
    exists st', Reach (Star r) st st' /\ k st' = Some v.
Proof.
  intros Hbody. induction n as [|n IH]; intros st k v H; cbn [repeat] in H.
  - exists st. split; [constructor | exact H].
  - apply orelse_some in H. destruct H as [H|H].
    + apply Hbody in H. destruct H as (st1 & Hr1 & H).
      apply IH in H. destruct H as (st2 & Hr2 & H).
      exists st2. split; [econstructor; eassumption | exact H].
    + exists st. split; [constructor | exact H].
Qed.

(** Whatever the matcher hands to its continuation is reachable. *)
Lemma rmatch_sound {R} r : forall st (k : mstate -> option R) v,
  rmatch r st k = Some v -> exists st', Reach r st st' /\ k st' = Some v.
Proof.
  induction r; intros st k v H; cbn [rmatch] in H.
  - apply step_sound in H. destruct H as (a & s & Hr & Hp & H).
    apply Ascii.eqb_eq in Hp. subst a. eexists. split; [constructor; eassumption | exact H].
  - apply step_sound in H. destruct H as (a & s & Hr & Hp & H).
    eexists. split; [econstructor; eassumption | exact H].
  - apply step_sound in H. destruct H as (a & s & Hr & Hp & H).
    eexists. split; [econstructor; eassumption | exact H].
  - apply step_sound in H. destruct H as (a & s & Hr & Hp & H).
    eexists. split; [econstructor; eassumption | exact H].
  - apply IHr1 in H. destruct H as (st1 & Hr1 & H).
    apply IHr2 in H. destruct H as (st2 & Hr2 & H).
    exists st2. split; [econstructor; eassumption | exact H].
  - apply orelse_some in H. destruct H as [H|H].
    + apply IHr in H. destruct H as (st1 & Hr1 & H).
      exists st1. split; [apply R_opt_some; assumption | exact H].
    + exists st. split; [apply R_opt_none | exact H].
  - eapply repeat_sound; eassumption.
  - apply IHr in H. destruct H as (st1 & Hr1 & H).
    eapply repeat_sound in H; [|eassumption]. destruct H as (st2 & Hr2 & H).
    exists st2. split; [econstructor; eassumption | exact H].
  - apply IHr in H. destruct H as (st1 & Hr1 & H).
    eexists. split; [constructor; eassumption | exact H].
Qed.

(** *** What the group captures *)

Lemma group_free_keeps r st st' :
  Reach r st st' -> group_free r = true -> group1 st' = group1 st.
Proof.
  induction 1; cbn [group_free]; intros Hg; try reflexivity;
    try (apply andb_true_iff in Hg; destruct Hg as [Hg1 Hg2]).
  - rewrite IHReach2, IHReach1 by assumption. reflexivity.
  - auto.
  - rewrite IHReach2, IHReach1 by assumption. reflexivity.
  - rewrite IHReach2, IHReach1 by assumption. reflexivity.
  - discriminate.
Qed.

Lemma reach_seq r1 r2 st st2 :
  Reach (Seq r1 r2) st st2 -> exists st1, Reach r1 st st1 /\ Reach r2 st1 st2.
Proof. inversion 1; subst; eauto. Qed.

Lemma reach_opt r st st' : Reach (Opt r) st st' -> st' = st \/ Reach r st st'.
Proof. inversion 1; subst; eauto. Qed.

Lemma reach_plus r st st2 :
  Reach (Plus r) st st2 -> exists st1, Reach r st st1 /\ Reach (Star r) st1 st2.
Proof. inversion 1; subst; eauto. Qed.

Lemma reach_group r st st2 :
  Reach (Group r) st st2 ->
  exists st1, Reach r (MState (rest st) [] (group1 st)) st1 /\
    st2 = MState (rest st1) (taken st1 ++ taken st) (Some (rev (taken st1))).
Proof. inversion 1; subst; eauto. Qed.

Lemma reach_lit c st st' :
  Reach (Lit c) st st' ->
  exists s, rest st = c :: s /\ st' = MState s (c :: taken st) (group1 st).
Proof. inversion 1; subst; eauto. Qed.

Lemma reach_digit st st' :
  Reach Digit st st' ->
  exists a s, rest st = a :: s /\ is_digit a = true /\
    st' = MState s (a :: taken st) (group1 st).
Proof. inversion 1; subst; eauto 6. Qed.

Lemma star_digits st st' :
  Reach (Star Digit) st st' ->
  exists ds, all_digits ds /\ taken st' = rev ds ++ taken st.
Proof.
  remember (Star Digit) as r eqn:Hr. induction 1; try discriminate.
  - exists []. split; [constructor | reflexivity].
  - injection Hr as ->. destruct (IHReach2 eq_refl) as (ds & Hds & Ht).
    apply reach_digit in H. destruct H as (a & s & _ & Ha & ->).
    exists (a :: ds). split.
    + constructor; assumption.
    + rewrite Ht. cbn [rev taken]. rewrite <- app_assoc. reflexivity.
Qed.

Lemma plus_digits st st' :
  Reach (Plus Digit) st st' ->
  exists ds, ds <> [] /\ all_digits ds /\ taken st' = rev ds ++ taken st.
Proof.
  intros H. apply reach_plus in H. destruct H as (st1 & H1 & H2).
  apply reach_digit in H1. destruct H1 as (a & s & _ & Ha & ->).
  destruct (star_digits _ _ H2) as (ds & Hds & Ht).
  exists (a :: ds). repeat split.
  - discriminate.
  - constructor; assumption.
  - rewrite Ht. cbn [rev taken]. rewrite <- app_assoc. reflexivity.
Qed.

(** What the group of the two patterns captures is a decimal literal. *)
Lemma number_captures st st' :
  Reach number st st' ->
  exists neg ds frac, well_formed ds frac /\ group1 st' = Some (decimal neg ds frac).
Proof.
  unfold number. intros H.
  apply reach_group in H. destruct H as (st3 & H & ->).
  apply reach_seq in H. destruct H as (st1 & Hsign & H).
  apply reach_seq in H. destruct H as (st2 & Hint & Hfrac).
  assert (Hs : exists neg : bool, taken st1 = rev (if neg then ["-"%char] else [])).
  { apply reach_opt in Hsign. destruct Hsign as [->|Hsign].
    - exists false. reflexivity.
    - apply reach_lit in Hsign. destruct Hsign as (s & _ & ->). exists true. reflexivity. }
  destruct Hs as (neg & Hs).
  destruct (plus_digits _ _ Hint) as (ds & Hne & Hds & Ht).
  apply reach_opt in Hfrac. destruct Hfrac as [->|Hfrac].
  - exists neg, ds, (@None (list ascii)). split; [repeat split; assumption|].
    cbn [group1]. f_equal. rewrite Ht, Hs.
    unfold decimal. rewrite rev_app_distr, !rev_involutive, app_nil_r. reflexivity.
  - apply reach_seq in Hfrac. destruct Hfrac as (st4 & Hdot & Hfs).
    apply reach_lit in Hdot. destruct Hdot as (s & _ & ->).
    destruct (plus_digits _ _ Hfs) as (fs & Hfne & Hfsd & Htf).
    exists neg, ds, (Some fs). split; [repeat split; assumption|].
    cbn [group1]. f_equal. rewrite Htf. cbn [taken]. rewrite Ht, Hs.
    unfold decimal.
    rewrite rev_app_distr. cbn [rev]. rewrite !rev_app_distr, !rev_involutive.
    cbn [rev app]. rewrite <- !app_assoc. reflexivity.
Qed.

(** *** [float] on a captured literal *)

Lemma digit_not_sign c :
  is_digit c = true -> Ascii.eqb c "-" = false /\ Ascii.eqb c "+" = false /\ Ascii.eqb c "." = false.
Proof.
  destruct c as [[] [] [] [] [] [] [] []]; cbv; intros H; try discriminate; repeat split.
Qed.

Lemma point_not_digit : is_digit "." = false.
Proof. reflexivity. Qed.

Lemma read_digits_run ds tail acc cnt :
  all_digits ds ->
  match tail with [] => True | c :: _ => is_digit c = false end ->
  read_digits (ds ++ tail) acc cnt = (digits_value ds acc, (cnt + length ds)%nat, tail).
Proof.
  intros Hds Htail. revert acc cnt. induction Hds as [|d ds Hd Hds IH]; intros acc cnt.
  - cbn [app digits_value fold_left length]. rewrite Nat.add_0_r.
    destruct tail as [|c tail]; [reflexivity|]. cbn [read_digits]. rewrite Htail. reflexivity.
  - cbn [app read_digits]. rewrite Hd, IH. cbn [length digits_value fold_left].
    f_equal. f_equal. lia.
Qed.

Lemma digits_value_app ds fs acc :
  digits_value (ds ++ fs) acc = digits_value fs (digits_value ds acc).
Proof. unfold digits_value. apply fold_left_app. Qed.

(** [float] accepts every literal the patterns capture. *)
Lemma py_float_decimal neg ds frac :
  well_formed ds frac ->
  py_float (Some (string_of_list_ascii (decimal neg ds frac))) = Ok (literal_value neg ds frac).
Proof.
  intros (Hne & Hds & Hfrac). unfold py_float.
  rewrite list_ascii_of_string_of_list_ascii.
  destruct ds as [|d ds]; [congruence|].
  assert (Hd : is_digit d = true) by (inversion Hds; assumption).
  destruct (digit_not_sign d Hd) as (Hm & Hp & _).
  set (tail := match frac with Some fs => "."%char :: fs | None => [] end).
  assert (Htail : match tail with [] => True | c :: _ => is_digit c = false end).
  { unfold tail. destruct frac; [apply point_not_digit | exact I]. }
  assert (Hsplit : split_sign (decimal neg (d :: ds) frac) = (neg, (d :: ds) ++ tail)).
  { unfold decimal, split_sign. fold tail. destruct neg; cbn [app].
    - reflexivity.
    - rewrite Hm, Hp. reflexivity. }
  rewrite Hsplit.
  rewrite (read_digits_run (d :: ds) tail 0%N 0%nat Hds Htail).
  cbn [Nat.add length].
  unfold tail, literal_value. destruct frac as [fs|].
  - destruct Hfrac as [Hfne Hfs].
    rewrite Ascii.eqb_refl.
    rewrite <- (app_nil_r fs) at 1.
    rewrite (read_digits_run fs [] _ 0%nat Hfs I). cbn [Nat.add].
    destruct fs as [|f fs]; [congruence|]. cbn [length].
    rewrite digits_value_app. reflexivity.
  - reflexivity.
Qed.

Lemma reach_liti c st st' :
  Reach (LitI c) st st' -> group1 st' = group1 st.
Proof. inversion 1; subst; reflexivity. Qed.

Lemma out_of_ten_free : group_free out_of_ten = true.
Proof. reflexivity. Qed.

Lemma any_over_ten_captures st st' :
  Reach any_over_ten st st' ->
  exists neg ds frac, well_formed ds frac /\ group1 st' = Some (decimal neg ds frac).
Proof.
  unfold any_over_ten. intros H. apply reach_seq in H. destruct H as (st1 & Hn & Ho).
  destruct (number_captures _ _ Hn) as (neg & ds & frac & Hwf & Hg).
  exists neg, ds, frac. split; [assumption|].
  rewrite (group_free_keeps _ _ _ Ho out_of_ten_free). exact Hg.
Qed.

Lemma rated_at_captures st st' :
  Reach rated_at st st' ->
  exists neg ds frac, well_formed ds frac /\ group1 st' = Some (decimal neg ds frac).
Proof.
  unfold rated_at. cbn [Regex.literal list_ascii_of_string map seq_of]. intros H.
  do 9 (apply reach_seq in H; destruct H as (? & _ & H)).
  eapply any_over_ten_captures. exact H.
Qed.

(** Whatever either pattern matches, [float] converts the group. *)
Lemma match_at_group r s m :
  r = rated_at \/ r = any_over_ten ->
  match_at r s = Some m ->
  exists neg ds frac, well_formed ds frac /\
    group m = Some (string_of_list_ascii (decimal neg ds frac)).
Proof.
  intros Hr H. unfold match_at in H. apply rmatch_sound in H.
  destruct H as (st' & Hreach & Hm). injection Hm as <-.
  assert (Hc : exists neg ds frac, well_formed ds frac /\ group1 st' = Some (decimal neg ds frac)).
  { destruct Hr as [->| ->]; [eapply rated_at_captures | eapply any_over_ten_captures];
      exact Hreach. }
  destruct Hc as (neg & ds & frac & Hwf & Hg).
  exists neg, ds, frac. split; [assumption|]. cbn [group]. rewrite Hg. reflexivity.
Qed.

Lemma search_from_group r s m :
  r = rated_at \/ r = any_over_ten ->
  search_from r s = Some m ->
  exists neg ds frac, well_formed ds frac /\
    group m = Some (string_of_list_ascii (decimal neg ds frac)).
Proof.
  intros Hr. induction s as [|c s IH]; cbn [search_from].
  - destruct (match_at r []) eqn:Hm; [|discriminate].
    intros H. injection H as ->. eapply match_at_group; eassumption.
  - destruct (match_at r (c :: s)) eqn:Hm.
    + intros H. injection H as ->. eapply match_at_group; eassumption.
    + exact IH.
Qed.

Lemma search_float r s m :
  r = rated_at \/ r = any_over_ten ->
  search r s = Some m ->
  exists neg ds frac, well_formed ds frac /\
    group m = Some (string_of_list_ascii (decimal neg ds frac)) /\
    py_float (group m) = Ok (literal_value neg ds frac).
Proof.
  intros Hr H. destruct (search_from_group r _ m Hr H) as (neg & ds & frac & Hwf & Hg).
  exists neg, ds, frac. split; [assumption|]. split; [assumption|].
  rewrite Hg. apply py_float_decimal. assumption.
Qed.

(** *** Greedy repetition on a run of a character class *)

Lemma mstate_eta st : MState (rest st) (taken st) (group1 st) = st.
Proof. destruct st; reflexivity. Qed.

(** A character class fails on the empty text and on a character that is
    not in the class. *)
Lemma step_fail {R} p st (k : mstate -> option R) :
  match rest st with [] => True | c :: _ => p c = false end ->
  step p st k = None.
Proof.
  unfold step. destruct (rest st) as [|c s]; [reflexivity|]. intros ->. reflexivity.
Qed.

Lemma step_ok {R} p st c s (k : mstate -> option R) :
  rest st = c :: s -> p c = true ->
  step p st k = k (MState s (c :: taken st) (group1 st)).
Proof. unfold step. intros -> ->. reflexivity. Qed.

(** Greedy repetition of a class reads the whole run [cs] of the class
    when the continuation accepts what follows it. *)
Lemma repeat_run {R} p (cs tail : list ascii) (k : mstate -> option R) v :
  Forall (fun c => p c = true) cs ->
  match tail with [] => True | c :: _ => p c = false end ->
  forall n st,
    (length cs <= n)%nat -> rest st = cs ++ tail ->
    k (MState tail (rev cs ++ taken st) (group1 st)) = Some v ->
    repeat (step p) n st k = Some v.
Proof.
  intros Hcs Htail. induction Hcs as [|c cs Hc Hcs IH]; intros n st Hn Hrest Hk.
  - cbn [rev app] in *. rewrite <- Hrest, mstate_eta in Hk.
    destruct n as [|n]; cbn [repeat]; [exact Hk|].
    rewrite step_fail; [exact Hk|]. rewrite Hrest. exact Htail.
  - destruct n as [|n]; [cbn in Hn; lia|]. cbn [repeat].
    rewrite (step_ok p st c (cs ++ tail)) by assumption.
    rewrite (IH n (MState (cs ++ tail) (c :: taken st) (group1 st))).
    + reflexivity.
    + cbn in Hn. lia.
    + reflexivity.
    + cbn [rest taken group1]. cbn [rev] in Hk. rewrite <- app_assoc in Hk. exact Hk.
Qed.

Lemma rmatch_digit {R} st (k : mstate -> option R) : rmatch Digit st k = step is_digit st k.
Proof. reflexivity. Qed.

Lemma plus_digits_run {R} (ds tail : list ascii) st (k : mstate -> option R) v :
  ds <> [] -> all_digits ds ->
  match tail with [] => True | c :: _ => is_digit c = false end ->
  rest st = ds ++ tail ->
  k (MState tail (rev ds ++ taken st) (group1 st)) = Some v ->
  rmatch (Plus Digit) st k = Some v.
Proof.
  intros Hne Hds Htail Hrest Hk. destruct ds as [|d ds]; [congruence|].
  inversion Hds as [|? ? Hd Hds']; subst.
  cbn [rmatch]. rewrite (step_ok is_digit st d (ds ++ tail)) by assumption.
  apply (repeat_run is_digit ds tail k v Hds' Htail).
  - cbn [rest]. rewrite length_app. lia.
  - reflexivity.
  - cbn [rest taken group1]. cbn [rev] in Hk. rewrite <- app_assoc in Hk. exact Hk.
Qed.

Lemma star_space_stop {R} st (k : mstate -> option R) :
  match rest st with [] => True | c :: _ => is_space c = false end ->
  rmatch (Star Space) st k = k st.
Proof.
  intros H. cbn [rmatch]. destruct (length (rest st)); cbn [repeat]; [reflexivity|].
  change (rmatch Space st) with (@step R is_space st).
  rewrite step_fail by exact H. reflexivity.
Qed.

Lemma lit_ok {R} c st s (k : mstate -> option R) :
  rest st = c :: s -> rmatch (Lit c) st k = k (MState s (c :: taken st) (group1 st)).
Proof. intros H. cbn [rmatch]. apply step_ok; [exact H | apply Ascii.eqb_refl]. Qed.

Lemma lit_fail {R} c st (k : mstate -> option R) :
  match rest st with [] => True | a :: _ => Ascii.eqb c a = false end ->
  rmatch (Lit c) st k = None.
Proof. intros H. cbn [rmatch]. apply step_fail. exact H. Qed.

(** *** The patterns on a text that holds a rating *)

Lemma digit_not_space c : is_digit c = true -> is_space c = false.
Proof.
  destruct c as [[] [] [] [] [] [] [] []]; cbv; intros H; try discriminate; reflexivity.
Qed.

Lemma space_not_digit c : is_space c = true -> is_digit c = false /\ Ascii.eqb "." c = false.
Proof.
  destruct c as [[] [] [] [] [] [] [] []]; cbv; intros H; try discriminate; split; reflexivity.
Qed.

Lemma rmatch_seq {R} r1 r2 st (k : mstate -> option R) :
  rmatch (Seq r1 r2) st k = rmatch r1 st (fun st' => rmatch r2 st' k).
Proof. reflexivity. Qed.

Lemma rmatch_opt {R} r st (k : mstate -> option R) :
  rmatch (Opt r) st k = orelse (rmatch r st k) (k st).
Proof. reflexivity. Qed.

Lemma rmatch_group {R} r st (k : mstate -> option R) :
  rmatch (Group r) st k =
  rmatch r (MState (rest st) [] (group1 st))
    (fun st' => k (MState (rest st') (taken st' ++ taken st) (Some (rev (taken st'))))).
Proof. reflexivity. Qed.

(** [\s*] reads a run of blanks that a character other than a blank
    follows. *)
Lemma star_space_run {R} sp tail st (k : mstate -> option R) v :
  spaces sp ->
  match tail with [] => True | c :: _ => is_space c = false end ->
  rest st = sp ++ tail ->
  k (MState tail (rev sp ++ taken st) (group1 st)) = Some v ->
  rmatch (Star Space) st k = Some v.
Proof.
  intros Hsp Htail Hrest Hk. cbn [rmatch].
  apply (repeat_run is_space sp tail k v Hsp Htail).
  - rewrite Hrest, length_app. lia.
  - exact Hrest.
  - exact Hk.
Qed.

Lemma plus_space_run {R} sp tail st (k : mstate -> option R) v :
  sp <> [] -> spaces sp ->
  match tail with [] => True | c :: _ => is_space c = false end ->
  rest st = sp ++ tail ->
  k (MState tail (rev sp ++ taken st) (group1 st)) = Some v ->
  rmatch (Plus Space) st k = Some v.
Proof.
  intros Hne Hsp Htail Hrest Hk. destruct sp as [|c sp]; [congruence|].
  inversion Hsp as [|? ? Hc Hsp']; subst.
  cbn [rmatch]. rewrite (step_ok is_space st c (sp ++ tail)) by assumption.
  apply (repeat_run is_space sp tail k v Hsp' Htail).
  - cbn [rest]. rewrite length_app. lia.
  - reflexivity.
  - cbn [rest taken group1]. cbn [rev] in Hk. rewrite <- app_assoc in Hk. exact Hk.
Qed.

(** [\s*/\s*10] on [ten_after]. *)
Lemma out_of_ten_matches {R} sp1 sp2 post st (k : mstate -> option R) v :
  spaces sp1 -> spaces sp2 ->
  rest st = ten_after sp1 sp2 post ->
  (forall st', rest st' = post -> group1 st' = group1 st -> k st' = Some v) ->
  rmatch out_of_ten st k = Some v.
Proof.
  intros H1 H2 Hrest Hk. unfold out_of_ten, ten_after in *.
  rewrite rmatch_seq.
  apply (star_space_run sp1 ("/"%char :: sp2 ++ "1"%char :: "0"%char :: post) st _ v H1);
    [reflexivity | exact Hrest |].
  rewrite rmatch_seq, (lit_ok "/"%char _ (sp2 ++ "1"%char :: "0"%char :: post)) by reflexivity.
  rewrite rmatch_seq.
  apply (star_space_run sp2 ("1"%char :: "0"%char :: post) _ _ v H2);
    [reflexivity | reflexivity |].
  rewrite rmatch_seq, (lit_ok "1"%char _ ("0"%char :: post)) by reflexivity.
  rewrite (lit_ok "0"%char _ post) by reflexivity.
  apply Hk; reflexivity.
Qed.

(** The group [(-?\d+(?:\.\d+)?)] reads a whole literal when neither a
    digit nor a point follows it. *)
Lemma number_matches {R} neg ds frac tail st (k : mstate -> option R) v :
  well_formed ds frac ->
  match tail with
  | [] => True
  | c :: _ => is_digit c = false /\ Ascii.eqb "." c = false
  end ->
  rest st = decimal neg ds frac ++ tail ->
  k (MState tail (rev (decimal neg ds frac) ++ taken st)
       (Some (decimal neg ds frac))) = Some v ->
  rmatch number st k = Some v.
Proof.
  intros (Hne & Hds & Hfrac) Htail Hrest Hk. unfold number.
  rewrite rmatch_group. cbn [rest group1].
  set (K := fun st' : mstate =>
              k (MState (rest st') (taken st' ++ taken st) (Some (rev (taken st'))))).
  rewrite rmatch_seq, rmatch_opt.
  set (frac_part := match frac with Some fs => "."%char :: fs | None => [] end).
  assert (Htail_d : match tail with [] => True | c :: _ => is_digit c = false end).
  { destruct tail; [exact I | apply Htail]. }
  (* after the sign *)
  assert (Hint : forall st1,
    rest st1 = ds ++ frac_part ++ tail ->
    taken st1 = rev (if neg then ["-"%char] else []) ->
    rmatch (Seq (Plus Digit) (Opt (Seq (Lit ".") (Plus Digit)))) st1 K = Some v).
  { intros st1 Hr1 Ht1.
    assert (Hdone : forall st4, rest st4 = tail ->
              taken st4 = rev (decimal neg ds frac) -> K st4 = Some v).
    { intros st4 Hr4 Ht4. unfold K. rewrite Hr4, Ht4, rev_involutive. exact Hk. }
    rewrite rmatch_seq.
    apply (plus_digits_run ds (frac_part ++ tail) st1 _ v Hne Hds).
    - unfold frac_part. destruct frac; [reflexivity | exact Htail_d].
    - exact Hr1.
    - rewrite rmatch_opt, rmatch_seq. unfold frac_part in *. destruct frac as [fs|].
      + destruct Hfrac as [Hfne Hfs].
        cbn [app]. rewrite (lit_ok "."%char _ (fs ++ tail)) by reflexivity.
        rewrite (plus_digits_run fs tail _ K v Hfne Hfs).
        * reflexivity.
        * exact Htail_d.
        * reflexivity.
        * apply Hdone; [reflexivity|]. cbn [taken]. rewrite Ht1. unfold decimal.
          rewrite ?rev_app_distr. cbn [rev app]. rewrite <- ?app_assoc. reflexivity.
      + cbn [app]. rewrite lit_fail.
        2:{ cbn [rest]. destruct tail; [exact I | apply Htail]. }
        cbn [orelse].
        apply Hdone; [reflexivity|]. cbn [taken]. rewrite Ht1. unfold decimal.
        rewrite app_nil_r, rev_app_distr. reflexivity. }
  unfold decimal in Hrest. fold frac_part in Hrest.
  rewrite <- !app_assoc in Hrest.
  destruct neg; cbn [app] in Hrest.
  - rewrite (lit_ok "-"%char _ (ds ++ frac_part ++ tail)) by exact Hrest.
    rewrite Hint; reflexivity.
  - destruct ds as [|d ds']; [congruence|].
    assert (Hd : is_digit d = true) by (inversion Hds; assumption).
    destruct (digit_not_sign d Hd) as (Hm & _ & _).
    rewrite lit_fail.
    2:{ cbn [rest]. rewrite Hrest. cbn [app]. rewrite Ascii.eqb_sym. exact Hm. }
    cbn [orelse]. apply Hint; [exact Hrest | reflexivity].
Qed.

Lemma ten_after_head sp1 sp2 post :
  spaces sp1 ->
  match ten_after sp1 sp2 post with
  | [] => True
  | c :: _ => is_digit c = false /\ Ascii.eqb "." c = false
  end.
Proof.
  intros H. unfold ten_after. destruct H as [|c sp Hc _]; cbn [app].
  - split; reflexivity.
  - apply space_not_digit. exact Hc.
Qed.

(** Both patterns match a text that holds a rating, and the group is the
    literal. *)
Lemma number_out_of_ten {R} neg ds frac sp1 sp2 post st (k : mstate -> option R) v :
  well_formed ds frac -> spaces sp1 -> spaces sp2 ->
  rest st = rating_text neg ds frac sp1 sp2 post ->
  (forall st', rest st' = post -> group1 st' = Some (decimal neg ds frac) -> k st' = Some v) ->
  rmatch (Seq number out_of_ten) st k = Some v.
Proof.
  intros Hwf H1 H2 Hrest Hk. rewrite rmatch_seq.
  apply (number_matches neg ds frac (ten_after sp1 sp2 post) st _ v Hwf).
  - apply ten_after_head. exact H1.
  - exact Hrest.
  - apply (out_of_ten_matches sp1 sp2 post _ k v H1 H2); [reflexivity|].
    intros st' Hr Hg. apply Hk; assumption.
Qed.

Lemma any_over_ten_matches neg ds frac sp1 sp2 post :
  well_formed ds frac -> spaces sp1 -> spaces sp2 ->
  match_at any_over_ten (rating_text neg ds frac sp1 sp2 post)
  = Some (MatchObj (Some (string_of_list_ascii (decimal neg ds frac)))).
Proof.
  intros Hwf H1 H2. unfold match_at, any_over_ten.
  apply (number_out_of_ten neg ds frac sp1 sp2 post _ _ _ Hwf H1 H2); [reflexivity|].
  intros st' _ Hg. rewrite Hg. reflexivity.
Qed.

Lemma liti_run {R} ws w last s st (k : mstate -> option R) :
  same_letters ws w ->
  rest st = ws ++ s ->
  rmatch (seq_of (map LitI w) last) st k
  = rmatch last (MState s (rev ws ++ taken st) (group1 st)) k.
Proof.
  intros H. revert st. induction H as [|a c ws w Hac H IH]; intros st Hrest.
  - cbn [map seq_of rev app]. cbn [app] in Hrest. rewrite <- Hrest, mstate_eta. reflexivity.
  - cbn [map seq_of]. rewrite rmatch_seq. cbn [rmatch].
    rewrite (step_ok _ st a (ws ++ s)) by assumption.
    rewrite IH by reflexivity. cbn [taken group1 rev]. rewrite <- app_assoc. reflexivity.
Qed.

Lemma decimal_head neg ds frac tail :
  well_formed ds frac ->
  match decimal neg ds frac ++ tail with
  | [] => True
  | c :: _ => is_space c = false
  end.
Proof.
  intros (Hne & Hds & _). unfold decimal. destruct neg; [reflexivity|].
  destruct ds as [|d ds]; [congruence|]. cbn [app].
  apply digit_not_space. inversion Hds; assumption.
Qed.

Lemma rated_at_matches ws sp0 neg ds frac sp1 sp2 post :
  same_letters ws (list_ascii_of_string "rated at") ->
  sp0 <> [] -> spaces sp0 ->
  well_formed ds frac -> spaces sp1 -> spaces sp2 ->
  match_at rated_at (ws ++ sp0 ++ rating_text neg ds frac sp1 sp2 post)
  = Some (MatchObj (Some (string_of_list_ascii (decimal neg ds frac)))).
Proof.
  intros Hws Hne Hsp0 Hwf H1 H2. unfold match_at, rated_at, Regex.literal.
  rewrite (liti_run ws _ _ (sp0 ++ rating_text neg ds frac sp1 sp2 post)) by
    (try exact Hws; reflexivity).
  rewrite rmatch_seq.
  apply (plus_space_run sp0 (rating_text neg ds frac sp1 sp2 post) _ _ _ Hne Hsp0).
  - apply decimal_head. exact Hwf.
  - reflexivity.
  - apply (number_out_of_ten neg ds frac sp1 sp2 post _ _ _ Hwf H1 H2); [reflexivity|].
    intros st' _ Hg. rewrite Hg. reflexivity.
Qed.

(** *** Where a match can start *)

Lemma word_fails {R} w last : forall st (k : mstate -> option R),
  word_at w (rest st) = false ->
  rmatch (seq_of (map LitI w) last) st k = None.
Proof.
  induction w as [|c w IH]; intros st k H; [discriminate H|].
  cbn [map seq_of]. rewrite rmatch_seq. cbn [rmatch].
  destruct (rest st) as [|a s] eqn:Hrest.
  - apply step_fail. rewrite Hrest. exact I.
  - cbn [word_at] in H. destruct (Ascii.eqb (lower a) (lower c)) eqn:Hac.
    + rewrite (step_ok _ st a s) by assumption. apply IH. exact H.
    + apply step_fail. rewrite Hrest. exact Hac.
Qed.

Lemma rated_at_word s : word_at rated_word s = false -> match_at rated_at s = None.
Proof. intros H. unfold match_at, rated_at, Regex.literal. apply word_fails. exact H. Qed.

Lemma search_from_free pre s :
  free_of rated_word pre s = true ->
  search_from rated_at (pre ++ s) = search_from rated_at s.
Proof.
  induction pre as [|c pre IH]; intros H; [reflexivity|].
  cbn [free_of] in H. apply andb_true_iff in H. destruct H as [Hw Hf].
  apply negb_true_iff in Hw.
  change ((c :: pre) ++ s) with (c :: pre ++ s) in *.
  cbn [search_from]. rewrite (rated_at_word _ Hw). apply IH. exact Hf.
Qed.

Lemma search_from_absent s : free_of rated_word s [] = true -> search_from rated_at s = None.
Proof.
  intros H. rewrite <- (app_nil_r s), (search_from_free s [] H).
  cbn [search_from]. rewrite rated_at_word; reflexivity.
Qed.

Lemma lacks_r_free pre s : lacks is_r pre -> free_of rated_word pre s = true.
Proof.
  intros H. induction H as [|c pre Hc H IH]; [reflexivity|].
  cbn [free_of]. rewrite IH, andb_true_r. apply negb_true_iff.
  change ((c :: pre) ++ s) with (c :: pre ++ s). unfold rated_word.
  cbn [list_ascii_of_string word_at]. unfold is_r in Hc. rewrite Hc. reflexivity.
Qed.

Lemma any_over_ten_head s :
  match s with [] => True | c :: _ => starts_number c = false end ->
  match_at any_over_ten s = None.
Proof.
  intros H. unfold match_at, any_over_ten, number.
  rewrite rmatch_seq, rmatch_group, rmatch_seq, rmatch_opt. cbn [rest group1].
  assert (Hd : match s with [] => True | c :: _ => is_digit c = false end).
  { destruct s as [|c s]; [exact I|]. unfold starts_number in H.
    apply orb_false_iff in H. apply H. }
  assert (Hm : match s with [] => True | c :: _ => Ascii.eqb "-" c = false end).
  { destruct s as [|c s]; [exact I|]. unfold starts_number in H.
    apply orb_false_iff in H. apply H. }
  rewrite lit_fail by exact Hm. cbn [orelse].
  rewrite rmatch_seq. cbn [rmatch]. apply step_fail. exact Hd.
Qed.

(** The search passes over a prefix in which no match can start. *)
Lemma search_from_skip r p :
  (forall s, match s with [] => True | c :: _ => p c = false end -> match_at r s = None) ->
  forall pre s, lacks p pre -> search_from r (pre ++ s) = search_from r s.
Proof.
  intros Hr pre s Hpre. induction Hpre as [|c pre Hc Hpre IH]; [reflexivity|].
  cbn [app search_from]. rewrite (Hr (c :: pre ++ s)) by exact Hc. exact IH.
Qed.

Lemma search_from_here r s m : match_at r s = Some m -> search_from r s = Some m.
Proof. intros H. destruct s; cbn [search_from]; rewrite H; reflexivity. Qed.

(** *** What a match reads *)

Lemma reach_rest r st st' : Reach r st st' -> exists w, rest st = w ++ rest st'.
Proof.
  induction 1; cbn [rest] in *;
    try (exists [c]; assumption); try (exists [a]; assumption);
    try (exists []; reflexivity); try assumption.
  - destruct IHReach1 as [w1 H1]. destruct IHReach2 as [w2 H2].
    exists (w1 ++ w2). rewrite H1, H2, app_assoc. reflexivity.
  - destruct IHReach1 as [w1 H1]. destruct IHReach2 as [w2 H2].
    exists (w1 ++ w2). rewrite H1, H2, app_assoc. reflexivity.
  - destruct IHReach1 as [w1 H1]. destruct IHReach2 as [w2 H2].
    exists (w1 ++ w2). rewrite H1, H2, app_assoc. reflexivity.
Qed.

Lemma reach_must_read c r st st' :
  Reach r st st' -> must_read c r = true -> In c (rest st).
Proof.
  induction 1; cbn [must_read]; intros Hm; try discriminate.
  - apply Ascii.eqb_eq in Hm. subst. rewrite H. left. reflexivity.
  - apply orb_true_iff in Hm. destruct Hm as [Hm|Hm]; [apply IHReach1; exact Hm|].
    destruct (reach_rest _ _ _ H) as [w Hw]. rewrite Hw. apply in_or_app. right.
    apply IHReach2. exact Hm.
  - apply IHReach1. exact Hm.
  - apply IHReach. exact Hm.
Qed.

Lemma match_at_must_read c r s m :
  must_read c r = true -> match_at r s = Some m -> In c s.
Proof.
  intros Hm H. unfold match_at in H. apply rmatch_sound in H.
  destruct H as (st' & Hreach & _). apply (reach_must_read c r _ _ Hreach Hm).
Qed.

Lemma search_from_must_read c r s :
  must_read c r = true -> ~ In c s -> search_from r s = None.
Proof.
  intros Hm. induction s as [|a s IH]; intros Hin; cbn [search_from].
  - destruct (match_at r []) as [m|] eqn:E; [|reflexivity].
    exfalso. apply Hin. apply (match_at_must_read c r [] m Hm E).
  - destruct (match_at r (a :: s)) as [m|] eqn:E.
    + exfalso. apply Hin. apply (match_at_must_read c r _ m Hm E).
    + apply IH. intros H. apply Hin. right. exact H.
Qed.

Lemma rated_at_slash : must_read "/" rated_at = true.
Proof. reflexivity. Qed.

Lemma any_over_ten_slash : must_read "/" any_over_ten = true.
Proof. reflexivity. Qed.

Lemma lacks_slash s : lacks is_slash s -> ~ In "/"%char s.
Proof.
  intros H Hin. induction H as [|c s Hc H IH]; [exact Hin|].
  destruct Hin as [->|Hin]; [discriminate Hc | exact (IH Hin)].
Qed.

(** *** The two searches on texts that hold a rating *)

Lemma search_rated_at pre ws sp0 neg ds frac sp1 sp2 post :
  free_of rated_word pre (ws ++ sp0 ++ rating_text neg ds frac sp1 sp2 post) = true ->
  same_letters ws rated_word ->
  sp0 <> [] -> spaces sp0 ->
  well_formed ds frac -> spaces sp1 -> spaces sp2 ->
  search_from rated_at (pre ++ ws ++ sp0 ++ rating_text neg ds frac sp1 sp2 post)
  = Some (MatchObj (Some (string_of_list_ascii (decimal neg ds frac)))).
Proof.
  intros Hpre Hws Hne Hsp0 Hwf H1 H2.
  rewrite (search_from_free pre _ Hpre).
  apply search_from_here. apply rated_at_matches; assumption.
Qed.

Lemma search_any_over_ten pre neg ds frac sp1 sp2 post :
  lacks starts_number pre ->
  well_formed ds frac -> spaces sp1 -> spaces sp2 ->
  search_from any_over_ten (pre ++ rating_text neg ds frac sp1 sp2 post)
  = Some (MatchObj (Some (string_of_list_ascii (decimal neg ds frac)))).
Proof.
  intros Hpre Hwf H1 H2.
  rewrite (search_from_skip any_over_ten starts_number any_over_ten_head pre _ Hpre).
  apply search_from_here. apply any_over_ten_matches; assumption.
Qed.

(** *** Characters a match cannot do without *)

Lemma digit_in_chars a : is_digit a = true -> In a digit_chars.
Proof.
  destruct a as [[] [] [] [] [] [] [] []]; cbv; intros H; try discriminate; tauto.
Qed.

Lemma reach_must_meet p r st st' :
  Reach r st st' -> must_meet p r = true -> Exists (fun c => p c = true) (rest st).
Proof.
  induction 1; cbn [must_meet]; intros Hm; try discriminate.
  - rewrite H. apply Exists_cons_hd. exact Hm.
  - rewrite H. apply Exists_cons_hd.
    rewrite forallb_forall in Hm. apply Hm. apply digit_in_chars. exact H0.
  - apply orb_true_iff in Hm. destruct Hm as [Hm|Hm]; [apply IHReach1; exact Hm|].
    destruct (reach_rest _ _ _ H) as [w Hw]. rewrite Hw. apply Exists_app. right.
    apply IHReach2. exact Hm.
  - apply IHReach1. exact Hm.
  - apply IHReach. exact Hm.
Qed.

Lemma lacks_not_exists p s : lacks p s -> ~ Exists (fun c => p c = true) s.
Proof.
  intros H Hex. induction H as [|c s Hc H IH]; inversion Hex; subst; [congruence | auto].
Qed.

Lemma lacks_tail p c s : lacks p (c :: s) -> lacks p s.
Proof. intros H. inversion H; assumption. Qed.

Lemma search_from_must_meet p r s :
  must_meet p r = true -> lacks p s -> search_from r s = None.
Proof.
  intros Hm. induction s as [|a s IH]; intros Hl; cbn [search_from].
  - destruct (match_at r []) as [m|] eqn:E; [|reflexivity].
    exfalso. unfold match_at in E. apply rmatch_sound in E. destruct E as (st' & Hr & _).
    apply (lacks_not_exists p [] Hl). apply (reach_must_meet p r _ _ Hr Hm).
  - destruct (match_at r (a :: s)) as [m|] eqn:E.
    + exfalso. unfold match_at in E. apply rmatch_sound in E. destruct E as (st' & Hr & _).
      apply (lacks_not_exists p (a :: s) Hl). apply (reach_must_meet p r _ _ Hr Hm).
    + apply IH. apply (lacks_tail p a s Hl).
Qed.

Lemma rated_at_digit : must_meet is_digit rated_at = true.
Proof. reflexivity. Qed.

Lemma any_over_ten_digit : must_meet is_digit any_over_ten = true.
Proof. reflexivity. Qed.

(** *** Text in which no match can start *)

Lemma starts_match_split c :
  starts_match c = false -> is_r c = false /\ starts_number c = false.
Proof. unfold starts_match. intros H. apply orb_false_iff in H. exact H. Qed.

Lemma lacks_weaken (p q : ascii -> bool) s :
  (forall c, p c = false -> q c = false) -> lacks p s -> lacks q s.
Proof.
  intros Hpq H. induction H as [|c s Hc H IH]; constructor; [apply Hpq; exact Hc | exact IH].
Qed.

Lemma search_rated_at_noise pre s :
  lacks starts_match pre -> search_from rated_at (pre ++ s) = search_from rated_at s.
Proof.
  intros H. apply search_from_free, lacks_r_free.
  apply (lacks_weaken starts_match is_r); [|exact H].
  intros c Hc. apply (starts_match_split c Hc).
Qed.

Lemma search_any_over_ten_noise pre s :
  lacks starts_match pre -> search_from any_over_ten (pre ++ s) = search_from any_over_ten s.
Proof.
  intros H. apply (search_from_skip any_over_ten starts_number any_over_ten_head).
  apply (lacks_weaken starts_match starts_number); [|exact H].
  intros c Hc. apply (starts_match_split c Hc).
Qed.

End Matching.

Import Matching.

(** ** The analyzer functions and the route *)

Module Pipeline.

(** *** The parser *)

Lemma rating_or_matched r output m otherwise :
  r = Regex.rated_at \/ r = Regex.any_over_ten ->
  Regex.search r output = Some m ->
  exists neg ds frac, well_formed ds frac /\
    Regex.group m = Some (string_of_list_ascii (decimal neg ds frac)) /\
    rating_or (Some m) output otherwise = Ok (round2 (literal_value neg ds frac), output).
Proof.
  intros Hr Hm. destruct (search_float r output m Hr Hm) as (neg & ds & frac & Hwf & Hg & Hf).
  exists neg, ds, frac. split; [assumption|]. split; [assumption|].
  unfold rating_or. rewrite Hf. reflexivity.
Qed.

(** The three ways [parse_rating] ends. *)
Lemma parse_rating_cases output :
  (forall m, Regex.search Regex.rated_at output = Some m ->
     exists neg ds frac, well_formed ds frac /\
       Regex.group m = Some (string_of_list_ascii (decimal neg ds frac)) /\
       parse_rating output = Ok (round2 (literal_value neg ds frac), output)) /\
  (Regex.search Regex.rated_at output = None ->
   forall m, Regex.search Regex.any_over_ten output = Some m ->
     exists neg ds frac, well_formed ds frac /\
       Regex.group m = Some (string_of_list_ascii (decimal neg ds frac)) /\
       parse_rating output = Ok (round2 (literal_value neg ds frac), output)) /\
  (Regex.search Regex.rated_at output = None ->
   Regex.search Regex.any_over_ten output = None ->
   parse_rating output = Ok (f0, output)).
Proof.
  split; [|split].
  - intros m Hm. unfold parse_rating. rewrite Hm.
    apply (rating_or_matched Regex.rated_at); [left; reflexivity | exact Hm].
  - intros H1 m Hm. unfold parse_rating. rewrite H1, Hm. cbn [rating_or].
    apply (rating_or_matched Regex.any_over_ten output m (Ok (f0, output)));
      [right; reflexivity | exact Hm].
  - intros H1 H2. unfold parse_rating. rewrite H1, H2. reflexivity.
Qed.

Lemma parse_rating_ok output : exists score, parse_rating output = Ok (score, output).
Proof.
  unfold parse_rating.
  destruct (Regex.search Regex.rated_at output) as [m|] eqn:H1.
  - destruct (rating_or_matched _ output m
                (rating_or (Regex.search Regex.any_over_ten output) output (Ok (f0, output)))
                (or_introl eq_refl) H1)
      as (neg & ds & frac & _ & _ & ->). eauto.
  - cbn [rating_or].
    destruct (Regex.search Regex.any_over_ten output) as [m|] eqn:H2.
    + destruct (rating_or_matched _ output m (Ok (f0, output)) (or_intror eq_refl) H2)
        as (neg & ds & frac & _ & _ & ->). eauto.
    + eauto.
Qed.

Section LintAndComplexity.
Variable E : Env.

Lemma run_pylint_cmd fs filename d t :
  run_pylint E fs filename d t =
  match subprocess_run E (pylint_cmd filename d) t fs with
  | Ok result => parse_rating (or_empty (stdout result) +:+ nl +:+ or_empty (stderr result))
  | Raise e => if is_Exception e then Ok (f0, pylint_failure e) else Raise e
  end.
Proof.
  unfold run_pylint, pylint_cmd.
  replace (if d then ["pylint"; "--score=y"] ++ ["--disable=import-error"] else ["pylint"; "--score=y"])
    with (["pylint"; "--score=y"] ++ (if d then ["--disable=import-error"] else []))
    by (destruct d; reflexivity).
  rewrite <- app_assoc.
  destruct (subprocess_run E _ t fs) as [result|e]; [reflexivity|].
  unfold pylint_failure, is_Exception. destruct (exn_cls e); reflexivity.
Qed.

(** *** The complexity scorer *)

Lemma mapping_lookup rank : default 0 (mapping !! rank) = rank_score rank.
Proof.
  unfold rank_score.
  repeat match goal with
    | |- context [String.eqb rank ?k] =>
        destruct (String.eqb_spec rank k) as [->|?]; [vm_compute; reflexivity|]
    end.
  destruct (String.eqb_spec rank "F") as [->|?]; [vm_compute; reflexivity|].
  unfold mapping. rewrite (not_elem_of_list_to_map_1 _ rank); [reflexivity|].
  cbn [fmap list_fmap fst]. intros Hin.
  rewrite !elem_of_cons, elem_of_nil in Hin. intuition congruence.
Qed.

Lemma rank_score_range rank : 0 <= rank_score rank <= 10.
Proof.
  unfold rank_score.
  repeat match goal with |- context [String.eqb ?a ?b] => destruct (String.eqb a b) end; lia.
Qed.

Lemma sum_range (l : list Z) acc :
  Forall (fun x => 0 <= x <= 10) l ->
  acc <= fold_left Z.add l acc <= acc + 10 * Z.of_nat (length l).
Proof.
  intros H. revert acc. induction H as [|x l Hx Hl IH]; intros acc; cbn [fold_left length].
  - lia.
  - specialize (IH (acc + x)). lia.
Qed.

Lemma cc_to_score_spec cc_results :
  cc_results <> [] ->
  cc_to_score E cc_results =
  Ok (round2 (int_truediv (fold_left Z.add (scores_of E cc_results) 0)
                          (Z.of_nat (length cc_results)))).
Proof.
  intros Hne. unfold cc_to_score. destruct cc_results as [|b bl]; [congruence|].
  set (l := b :: bl).
  replace (map (fun r => default 0 (mapping !! cc_rank E (complexity r))) l)
    with (scores_of E l).
  2:{ unfold scores_of. apply map_ext. intros r. symmetry. apply mapping_lookup. }
  unfold py_truediv, scores_of. rewrite length_map.
  replace (Z.of_nat (length l) =? 0) with false by (symmetry; apply Z.eqb_neq; cbn; lia).
  reflexivity.
Qed.

Lemma cc_to_score_in_range cc_results :
  exists s, cc_to_score E cc_results = Ok s /\ in_range s = true.
Proof.
  destruct cc_results as [|b bl] eqn:Hl.
  - exists f10. split; reflexivity.
  - rewrite <- Hl. rewrite cc_to_score_spec by (subst; discriminate).
    eexists. split; [reflexivity|]. apply round2_in_range, int_truediv_in_range.
    + pose proof (sum_range (scores_of E cc_results) 0) as H. apply H.
      unfold scores_of. apply Forall_map. apply Forall_forall. intros x _.
      apply rank_score_range.
    + subst. cbn [length]. lia.
    + pose proof (sum_range (scores_of E cc_results) 0) as H.
      unfold scores_of in *. rewrite length_map in H. apply H.
      apply Forall_map. apply Forall_forall. intros x _. apply rank_score_range.
Qed.

End LintAndComplexity.

(** *** The Halstead scorer *)
Section Halstead.
Variable E : Env.

(** [math.log10(raw_effort + 1)] has no domain error once
    [raw_effort <= 0] is excluded. *)
Lemma math_log10_ok raw :
  fle raw f0 = false ->
  math_log10 E (fadd raw f1) = Ok (log10 E (fadd raw f1)).
Proof.
  intros H.
  assert (Hd : raw = S754_nan \/ raw <> S754_nan) by (destruct raw; auto; right; discriminate).
  destruct Hd as [->|Hn].
  - reflexivity.
  - pose proof (fadd_one_positive raw (not_le_zero raw Hn H)) as Hp.
    unfold math_log10. rewrite (positive_float_gt0 _ Hp).
    destruct (fadd raw f1); try contradiction; reflexivity.
Qed.

Lemma halstead_scores_empty src :
  h_visit E src = Ok [] -> halstead_scores E src = Ok (f10, f10, f0, f0).
Proof. intros H. unfold halstead_scores. rewrite H. reflexivity. Qed.

Lemma halstead_scores_spec src h0 hs :
  h_visit E src = Ok (h0 :: hs) ->
  let re := py_max_list (default f0 (effort h0)) (efforts_of hs) in
  let rb := py_sum (bugs_of (h0 :: hs)) in
  halstead_scores E src =
  Ok (round2 (if fle re f0 then f10 else clamp_0_10 (effort_penalty E re)),
      round2 (clamp_0_10 (bug_penalty rb)), re, rb).
Proof.
  intros H. cbn zeta. unfold halstead_scores. rewrite H. cbn [bind map].
  fold (efforts_of hs). fold (bugs_of hs).
  change (default f0 (bugs h0) :: bugs_of hs) with (bugs_of (h0 :: hs)).
  set (re := py_max_list (default f0 (effort h0)) (efforts_of hs)).
  set (rb := py_sum (bugs_of (h0 :: hs))).
  unfold clamp_0_10, effort_penalty, bug_penalty.
  rewrite (fmul_comm f10 rb), (fmul_comm f2).
  destruct (fle re f0) eqn:Hle.
  - reflexivity.
  - rewrite (math_log10_ok re Hle). reflexivity.
Qed.

Lemma halstead_scores_raise src e :
  halstead_scores E src = Raise e -> h_visit E src = Raise e.
Proof.
  destruct (h_visit E src) as [[|h0 hs]|e'] eqn:H.
  - rewrite (halstead_scores_empty src H). discriminate.
  - rewrite (halstead_scores_spec src h0 hs H). discriminate.
  - unfold halstead_scores. rewrite H. cbn [bind]. congruence.
Qed.

Lemma halstead_scores_in_range src es bs re rb :
  halstead_scores E src = Ok (es, bs, re, rb) ->
  in_range es = true /\ in_range bs = true.
Proof.
  destruct (h_visit E src) as [[|h0 hs]|e'] eqn:H.
  - rewrite (halstead_scores_empty src H). intros [= <- <- <- <-]. split; reflexivity.
  - rewrite (halstead_scores_spec src h0 hs H). intros [= <- <- <- <-]. split.
    + apply round2_in_range. destruct (fle _ f0); [reflexivity | apply clamp_in_range].
    + apply round2_in_range, clamp_in_range.
  - unfold halstead_scores. rewrite H. discriminate.
Qed.

End Halstead.

(** *** The orchestrator *)
Section Orchestrator.
Variable E : Env.

Lemma append_empty_r (s : string) : s +:+ "" = s.
Proof.
  induction s as [|c s IH]; [reflexivity|].
  change (String c (s +:+ "") = String c s). f_equal. exact IH.
Qed.

Lemma analyze_fst code w :
  writes E code w ->
  fst (analyze_code_string E code w) =
  match os_remove E (temp_path E w) (written E code w) with
  | Ok _ => try_body E code (written E code w) (temp_path E w)
  | Raise e =>
      if is_Exception e then try_body E code (written E code w) (temp_path E w)
      else Raise e
  end.
Proof.
  unfold writes, analyze_code_string. fold (temp_path E w). intros ->.
  fold (written E code w).
  destruct (os_remove E (temp_path E w) (written E code w)) as [fs'|e].
  - reflexivity.
  - destruct (is_Exception e); reflexivity.
Qed.

(** A write that fails ends the invocation: the caller gets the error,
    and the file system is as the write left it. *)
Lemma analyze_unwritten code w e fs0 :
  write_text E (temp_path E w) code (files w) = Some (e, fs0) ->
  analyze_code_string E code w
  = (Raise e, {| files := fs0; uuids := S (uuids w); all_results := all_results w |}).
Proof.
  unfold analyze_code_string. fold (temp_path E w). intros ->. reflexivity.
Qed.

Lemma analyze_returns code w r :
  fst (analyze_code_string E code w) = Ok r -> writes E code w.
Proof.
  unfold writes. destruct (write_text E (temp_path E w) code (files w)) as [[e fs0]|] eqn:Hw;
    [|reflexivity].
  rewrite (analyze_unwritten code w e fs0 Hw). discriminate.
Qed.

Lemma analyze_snd code w :
  writes E code w ->
  snd (analyze_code_string E code w) =
  {| files := match os_remove E (temp_path E w) (written E code w) with
              | Ok fs' => fs'
              | Raise _ => written E code w
              end;
     uuids := S (uuids w);
     all_results := all_results w |}.
Proof.
  unfold writes, analyze_code_string. fold (temp_path E w). intros ->.
  fold (written E code w).
  destruct (os_remove E (temp_path E w) (written E code w)) as [fs'|e].
  - reflexivity.
  - destruct (is_Exception e); reflexivity.
Qed.

(** A record that is returned is made of the contributions of the
    three stages. *)
Lemma analyze_fields code w r :
  fst (analyze_code_string E code w) = Ok r ->
  exists lint, run_pylint E (written E code w) (temp_path E w) true 15 = Ok lint /\
    r = assemble lint (cc_stage E code) (halstead_stage E code).
Proof.
  intros H. pose proof (analyze_returns code w r H) as Hw.
  rewrite (analyze_fst code w Hw) in H.
  assert (Hr : try_body E code (written E code w) (temp_path E w) = Ok r).
  { destruct (os_remove E (temp_path E w) (written E code w)) as [fs'|e].
    - exact H.
    - destruct (is_Exception e); [exact H | discriminate]. }
  clear H. unfold try_body in Hr.
  destruct (run_pylint E (written E code w) (temp_path E w) true 15) as [[ls lo]|e];
    cbn [bind] in Hr; [|discriminate].
  exists (ls, lo). split; [reflexivity|].
  unfold cc_stage, halstead_stage, assemble, stage_error.
  destruct (cc_visit E code) as [bl|e1]; cbn [bind try_except] in *.
  - destruct (cc_to_score E bl) as [cs|e1]; cbn [bind try_except] in *.
    + destruct (halstead_scores E code) as [[[[es bs] re] rb]|e2]; cbn [bind try_except] in *.
      * injection Hr as <-. rewrite !append_empty_r. reflexivity.
      * destruct (is_Exception e2); cbn [bind] in Hr; [|discriminate].
        injection Hr as <-. rewrite !append_empty_r. reflexivity.
    + destruct (is_Exception e1); cbn [bind] in Hr; [|discriminate].
      destruct (halstead_scores E code) as [[[[es bs] re] rb]|e2]; cbn [bind try_except] in *.
      * injection Hr as <-. rewrite !append_empty_r. reflexivity.
      * destruct (is_Exception e2); cbn [bind] in Hr; [|discriminate].
        injection Hr as <-. reflexivity.
  - destruct (is_Exception e1); cbn [bind] in Hr; [|discriminate].
    destruct (halstead_scores E code) as [[[[es bs] re] rb]|e2]; cbn [bind try_except] in *.
    + injection Hr as <-. rewrite !append_empty_r. reflexivity.
    + destruct (is_Exception e2); cbn [bind] in Hr; [|discriminate].
      injection Hr as <-. reflexivity.
Qed.

End Orchestrator.

(** *** The parser on texts that hold a rating *)

Lemma rating_or_literal neg ds frac output otherwise :
  well_formed ds frac ->
  rating_or (Some (Regex.MatchObj (Some (string_of_list_ascii (decimal neg ds frac)))))
    output otherwise
  = Ok (round2 (literal_value neg ds frac), output).
Proof.
  intros Hwf. unfold rating_or. cbn [Regex.group].
  rewrite (py_float_decimal neg ds frac Hwf). reflexivity.
Qed.

Lemma parse_first_rated_at output neg ds frac :
  well_formed ds frac -> first_rated_at output neg ds frac ->
  parse_rating output = Ok (round2 (literal_value neg ds frac), output).
Proof.
  intros Hwf (pre & ws & sp0 & sp1 & sp2 & post & -> & Hpre & Hws & Hne & Hsp0 & H1 & H2).
  unfold parse_rating, Regex.search.
  rewrite list_ascii_of_string_of_list_ascii.
  rewrite (search_rated_at pre ws sp0 neg ds frac sp1 sp2 post) by assumption.
  apply rating_or_literal. exact Hwf.
Qed.

Lemma search_rated_at_none output :
  no_rated_at output -> Regex.search Regex.rated_at output = None.
Proof. intros H. apply search_from_absent. exact H. Qed.

Lemma parse_first_over_ten output neg ds frac :
  well_formed ds frac -> no_rated_at output -> first_over_ten output neg ds frac ->
  parse_rating output = Ok (round2 (literal_value neg ds frac), output).
Proof.
  intros Hwf Hnone (pre & sp1 & sp2 & post & Hout & Hpre & H1 & H2).
  unfold parse_rating. rewrite (search_rated_at_none output Hnone).
  cbn [rating_or]. unfold Regex.search. subst output.
  rewrite list_ascii_of_string_of_list_ascii.
  rewrite (search_any_over_ten pre neg ds frac sp1 sp2 post) by assumption.
  apply rating_or_literal. exact Hwf.
Qed.

Lemma parse_no_slash output :
  lacks is_slash (list_ascii_of_string output) -> parse_rating output = Ok (f0, output).
Proof.
  intros H. apply lacks_slash in H. unfold parse_rating, Regex.search.
  rewrite (search_from_must_read "/" _ _ rated_at_slash H).
  rewrite (search_from_must_read "/" _ _ any_over_ten_slash H). reflexivity.
Qed.

(** *** The two lines *)

Lemma digit_not_r c : Regex.is_digit c = true -> is_r c = false.
Proof.
  destruct c as [[] [] [] [] [] [] [] []]; cbv; intros H; try discriminate; reflexivity.
Qed.

Lemma digits_lack_r ds : all_digits ds -> lacks is_r ds.
Proof.
  intros H. induction H as [|c ds Hc H IH]; constructor; [apply digit_not_r; exact Hc | exact IH].
Qed.

Lemma lacks_app p a b : lacks p a -> lacks p b -> lacks p (a ++ b).
Proof. intros Ha Hb. induction Ha; [exact Hb|]. cbn [app]. constructor; assumption. Qed.

Lemma decimal_lacks_r neg ds frac : well_formed ds frac -> lacks is_r (decimal neg ds frac).
Proof.
  intros (_ & Hds & Hfrac). unfold decimal. apply lacks_app; [|apply lacks_app].
  - destruct neg; repeat constructor.
  - apply digits_lack_r. exact Hds.
  - destruct frac as [fs|]; [|constructor].
    constructor; [reflexivity|]. apply digits_lack_r. apply Hfrac.
Qed.

Lemma parse_rated_line neg ds frac :
  well_formed ds frac ->
  parse_rating (rated_line (decimal neg ds frac))
  = Ok (round2 (literal_value neg ds frac), rated_line (decimal neg ds frac)).
Proof.
  intros Hwf. apply parse_first_rated_at; [exact Hwf|].
  exists [], rated_word, [" "%char], [], [], [].
  split; [reflexivity|]. split; [reflexivity|].
  split; [unfold same_letters, rated_word; repeat constructor|].
  split; [discriminate|]. repeat split; repeat constructor.
Qed.

Lemma parse_bare_line neg ds frac :
  well_formed ds frac ->
  parse_rating (bare_line (decimal neg ds frac))
  = Ok (round2 (literal_value neg ds frac), bare_line (decimal neg ds frac)).
Proof.
  intros Hwf. apply parse_first_over_ten; [exact Hwf| |].
  - unfold no_rated_at, bare_line. rewrite list_ascii_of_string_of_list_ascii.
    apply lacks_r_free. apply lacks_app; [apply decimal_lacks_r; exact Hwf|].
    repeat constructor.
  - exists [], [], [], []. split; [reflexivity|]. repeat split; constructor.
Qed.

(** *** The size of a literal *)

Lemma digits_value_ge ds acc :
  Z.of_N acc * 10 ^ Z.of_nat (length ds) <= Z.of_N (digits_value ds acc).
Proof.
  revert acc. induction ds as [|c ds IH]; intros acc.
  - cbn [length digits_value fold_left]. change (10 ^ Z.of_nat 0) with 1. lia.
  - cbn [length]. change (digits_value (c :: ds) acc)
      with (digits_value ds (10 * acc + digit_val c)%N).
    specialize (IH (10 * acc + digit_val c)%N).
    rewrite Nat2Z.inj_succ, Z.pow_succ_r by lia.
    assert (0 < 10 ^ Z.of_nat (length ds)) by (apply Z.pow_pos_nonneg; lia).
    nia.
Qed.

Lemma literal_from g neg ds frac :
  0 < g < 2 ^ 53 -> g <= Z.of_N (digits_value ds 0) ->
  magnitude_from g neg (literal_value neg ds frac).
Proof.
  intros Hg Hn. unfold literal_value. destruct frac as [fs|].
  - apply of_decimal_from; [exact Hg|]. rewrite digits_value_app.
    pose proof (digits_value_ge fs (digits_value ds 0)) as H.
    assert (0 < 10 ^ Z.of_nat (length fs)) by (apply Z.pow_pos_nonneg; lia).
    nia.
  - apply of_decimal_from; [exact Hg|]. change (10 ^ Z.of_nat 0) with 1. lia.
Qed.

(** A literal from -1 down, and one from 11 up, rounds to a score
    outside [0, 10]. *)
Lemma negative_literal_out ds frac :
  1 <= Z.of_N (digits_value ds 0) ->
  in_range (round2 (literal_value true ds frac)) = false.
Proof.
  intros H. apply below_zero_out, (below_zero 1); [lia|].
  apply round2_from; [lia|]. apply literal_from; [lia | exact H].
Qed.

Lemma large_literal_out ds frac :
  11 <= Z.of_N (digits_value ds 0) ->
  in_range (round2 (literal_value false ds frac)) = false.
Proof.
  intros H. apply above_ten_out, (above_ten 11); [lia|].
  apply round2_from; [lia|]. apply literal_from; [lia | exact H].
Qed.

(** *** Invocations return *)

Lemma run_pylint_ok E fs filename d t :
  (forall e, subprocess_run E (pylint_cmd filename d) t fs = Raise e -> is_Exception e = true) ->
  exists lint, run_pylint E fs filename d t = Ok lint.
Proof.
  intros H. rewrite run_pylint_cmd.
  destruct (subprocess_run E (pylint_cmd filename d) t fs) as [result|e].
  - destruct (parse_rating_ok (or_empty (stdout result) +:+ nl +:+ or_empty (stderr result)))
      as [score ->]. eauto.
  - rewrite (H e eq_refl). eauto.
Qed.

Lemma analyze_ok E code w :
  only_errors E -> writes E code w -> exists r, fst (analyze_code_string E code w) = Ok r.
Proof.
  intros (Hrun & Hcc & Hh & Hrm) Hw.
  rewrite (analyze_fst E code w Hw).
  assert (Hbody : exists r, try_body E code (written E code w) (temp_path E w) = Ok r).
  { unfold try_body.
    destruct (run_pylint_ok E (written E code w) (temp_path E w) true 15) as [[ls lo] Hl].
    { intros e. apply Hrun. }
    rewrite Hl. cbn [bind].
    assert (Hc : exists cs clog,
        try_except
          (do cc_results <- cc_visit E code;
           do cc_score <- cc_to_score E cc_results;
           Ok (cc_score, lo))
          (fun e => Ok (f0, lo +:+ nl +:+ "Radon CC error: " +:+ exn_str e)) = Ok (cs, clog)).
    { destruct (cc_visit E code) as [bl|e] eqn:Hv; cbn [bind try_except].
      - destruct (cc_to_score_in_range E bl) as (s & -> & _). cbn [bind]. eauto.
      - rewrite (Hcc _ _ Hv). eauto. }
    destruct Hc as (cs & clog & ->). cbn [bind].
    destruct (halstead_scores E code) as [[[[es bs] re] rb]|e] eqn:Hs; cbn [bind try_except].
    - eauto.
    - rewrite (Hh _ _ (halstead_scores_raise E code e Hs)). cbn [bind]. eauto. }
  destruct Hbody as (r & Hr). rewrite Hr.
  destruct (os_remove E (temp_path E w) (written E code w)) as [fs'|e] eqn:Ho.
  - eauto.
  - rewrite (Hrm _ _ _ Ho). eauto.
Qed.

(** On a disk without room the invocation raises what the write raised,
    and the file that [open] created is still there. *)
Lemma disk_full_propagates :
  fst (analyze_code_string (with_write env_fine disk_full) "x = 1" world0)
  = Raise (Exn OSError "[Errno 28] No space left on device") /\
  files (snd (analyze_code_string (with_write env_fine disk_full) "x = 1" world0))
    !! "/tmp/upload_0.py" = Some EmptyString.
Proof. split; reflexivity. Qed.

(** *** The history *)
Section History.
Variable E : Env.

Lemma index_start w :
  match all_results w with
  | None => {| files := files w; uuids := uuids w; all_results := Some [] |}
  | Some _ => w
  end = with_history w.
Proof. destruct w as [fs n [l|]]; reflexivity. Qed.

Lemma analyze_history code w :
  all_results (snd (analyze_code_string E code w)) = all_results w.
Proof.
  destruct (write_text E (temp_path E w) code (files w)) as [[e fs0]|] eqn:Hw.
  - rewrite (analyze_unwritten E code w e fs0 Hw). reflexivity.
  - rewrite (analyze_snd E code w Hw). reflexivity.
Qed.

Lemma index_history req w :
  history (snd (index E req w)) = history w ++ appended E req w.
Proof.
  unfold index, appended. rewrite index_start.
  destruct req as [|form].
  - cbn [snd]. unfold history at 1. cbn [with_history all_results default].
    rewrite app_nil_r. reflexivity.
  - destruct (String.eqb (strip (default EmptyString form)) "").
    + cbn [snd]. unfold history at 1. cbn [with_history all_results default].
      rewrite app_nil_r. reflexivity.
    + pose proof (analyze_history (strip (default EmptyString form)) (with_history w)) as Hh.
      destruct (analyze_code_string E (strip (default EmptyString form)) (with_history w))
        as [[r|e] w'] eqn:Ha; cbn [fst snd] in *.
      * unfold history at 1. cbn [all_results default]. rewrite Hh. reflexivity.
      * unfold history at 1. rewrite Hh. cbn [with_history all_results default].
        rewrite app_nil_r. reflexivity.
Qed.

Lemma serve_history reqs w :
  history (serve E reqs w) = history w ++ served E reqs w.
Proof.
  revert w. induction reqs as [|req reqs IH]; intros w; cbn [serve served].
  - rewrite app_nil_r. reflexivity.
  - rewrite IH, index_history, app_assoc. reflexivity.
Qed.

Lemma appended_submission c w :
  only_errors E -> writable E -> strip c <> "" ->
  exists r, fst (analyze_code_string E (strip c) (with_history w)) = Ok r /\
    appended E (submit c) w = [r].
Proof.
  intros HE HW Hc.
  destruct (analyze_ok E (strip c) (with_history w) HE (HW _ _ _)) as [r Hr].
  exists r. split; [exact Hr|].
  unfold appended, submit. change (default EmptyString (Some c)) with c.
  destruct (String.eqb_spec (strip c) "") as [Heq|_]; [congruence|].
  rewrite Hr. reflexivity.
Qed.

Lemma served_submissions codes w :
  only_errors E -> writable E -> Forall (fun c => strip c <> "") codes ->
  length (served E (map submit codes) w) = length codes /\
  forall i c, codes !! i = Some c ->
    exists r,
      fst (analyze_code_string E (strip c)
             (with_history (serve E (map submit (take i codes)) w))) = Ok r /\
      served E (map submit codes) w !! i = Some r.
Proof.
  intros HE HW Hcodes. revert w. induction Hcodes as [|c codes Hc Hcodes IH]; intros w.
  - split; [reflexivity|]. intros i c Hi. rewrite lookup_nil in Hi. discriminate.
  - cbn [map served].
    destruct (appended_submission c w HE HW Hc) as (r & Hr & Ha). rewrite Ha.
    destruct (IH (snd (index E (submit c) w))) as [Hlen Hnth].
    split.
    + cbn [app length]. rewrite Hlen. reflexivity.
    + intros [|i] c' Hi.
      * cbn in Hi. injection Hi as <-. exists r. split; [exact Hr | reflexivity].
      * cbn in Hi. destruct (Hnth i c' Hi) as (r' & Hr' & Hl).
        exists r'. split; [exact Hr' | exact Hl].
Qed.

End History.

(** *** What the stages contribute, and the sample collaborators *)

Lemma cc_stage_in_range E code : in_range (fst (cc_stage E code)) = true.
Proof.
  unfold cc_stage. destruct (cc_visit E code) as [bl|e]; cbn [bind]; [|reflexivity].
  destruct (cc_to_score_in_range E bl) as (s & -> & Hs). exact Hs.
Qed.

Lemma halstead_stage_in_range E code :
  match halstead_stage E code with
  | (es, bs, _, _, _) => in_range es = true /\ in_range bs = true
  end.
Proof.
  unfold halstead_stage.
  destruct (halstead_scores E code) as [[[[es bs] re] rb]|e] eqn:H.
  - eapply halstead_scores_in_range. exact H.
  - split; reflexivity.
Qed.

Lemma run_pylint_score E fs filename d t score text :
  run_pylint E fs filename d t = Ok (score, text) ->
  score = f0 \/
  exists neg ds frac, well_formed ds frac /\ score = round2 (literal_value neg ds frac).
Proof.
  rewrite run_pylint_cmd.
  destruct (subprocess_run E (pylint_cmd filename d) t fs) as [result|e].
  - set (output := or_empty (stdout result) +:+ nl +:+ or_empty (stderr result)).
    destruct (parse_rating_cases output) as (H1 & H2 & H3).
    destruct (Regex.search Regex.rated_at output) as [m|] eqn:Hm1.
    + destruct (H1 m eq_refl) as (neg & ds & frac & Hwf & _ & ->).
      intros [= <- _]. right. eauto.
    + destruct (Regex.search Regex.any_over_ten output) as [m|] eqn:Hm2.
      * destruct (H2 eq_refl m eq_refl) as (neg & ds & frac & Hwf & _ & ->).
        intros [= <- _]. right. eauto.
      * rewrite (H3 eq_refl eq_refl). intros [= <- _]. left. reflexivity.
  - destruct (is_Exception e); [|discriminate]. intros [= <- _]. left. reflexivity.
Qed.

Lemma remove_file_error path fs e : remove_file path fs = Raise e -> is_Exception e = true.
Proof.
  unfold remove_file. destruct (fs !! path); [discriminate|]. intros [= <-]. reflexivity.
Qed.

Lemma remove_file_written path code (fs : gmap string string) :
  remove_file path (<[path := code]> fs) = Ok (delete path fs).
Proof. unfold remove_file. rewrite lookup_insert_eq, delete_insert_eq. reflexivity. Qed.

(** The [finally] clause. Once the snippet is written, the file system
    after the invocation is what [os.remove] makes of the one that holds
    the file; with an [os.remove] that deletes the file, the file is gone.
    A failure of [os.remove] with an error changes neither the outcome of
    the invocation nor the file system. *)
Lemma written_file_removed E code w :
  writes E code w ->
  (forall fs', os_remove E (temp_path E w) (written E code w) = Ok fs' ->
     files (snd (analyze_code_string E code w)) = fs') /\
  (os_remove E = remove_file ->
     files (snd (analyze_code_string E code w)) !! temp_path E w = None) /\
  (forall e, os_remove E (temp_path E w) (written E code w) = Raise e ->
     is_Exception e = true ->
     fst (analyze_code_string E code w)
     = fst (analyze_code_string (with_remove E remove_file) code w) /\
     files (snd (analyze_code_string E code w)) = written E code w).
Proof.
  intros Hw. split; [|split].
  - intros fs' H. rewrite (analyze_snd E code w Hw), H. reflexivity.
  - intros Hrm. rewrite (analyze_snd E code w Hw), Hrm. unfold written.
    rewrite remove_file_written. cbn [files]. apply lookup_delete_eq.
  - intros e He Hexc. split.
    + rewrite (analyze_fst E code w Hw), (analyze_fst (with_remove E remove_file) code w Hw),
        He, Hexc.
      change (os_remove (with_remove E remove_file)) with remove_file.
      change (temp_path (with_remove E remove_file) w) with (temp_path E w).
      change (written (with_remove E remove_file) code w) with (written E code w).
      unfold written at 2. rewrite remove_file_written. reflexivity.
    + rewrite (analyze_snd E code w Hw), He. reflexivity.
Qed.

Lemma sample_env_only_errors run cc h :
  (forall e, run = Raise e -> is_Exception e = true) ->
  (forall e, cc = Raise e -> is_Exception e = true) ->
  (forall e, h = Raise e -> is_Exception e = true) ->
  only_errors (sample_env run cc h).
Proof.
  intros H1 H2 H3. repeat split; cbn; intros; eauto using remove_file_error.
Qed.

Lemma env_fine_only_errors : only_errors env_fine.
Proof. apply sample_env_only_errors; intros e H; discriminate. Defined.

Lemma env_no_pylint_only_errors : only_errors env_no_pylint.
Proof.
  apply sample_env_only_errors; intros e H; try discriminate.
  injection H as <-. reflexivity.
Defined.

Lemma env_unparsable_only_errors : only_errors env_unparsable.
Proof.
  apply sample_env_only_errors; intros e H; try discriminate;
    injection H as <-; reflexivity.
Defined.

(** *** Sums and means of rank scores *)

Lemma fold_add_shift l a : fold_left Z.add l a = a + fold_left Z.add l 0.
Proof.
  revert a. induction l as [|x l IH]; intros a; cbn [fold_left]; [lia|].
  rewrite (IH (a + x)), (IH (0 + x)). lia.
Qed.

Lemma fold_add_perm l l' :
  Permutation l l' -> fold_left Z.add l 0 = fold_left Z.add l' 0.
Proof.
  induction 1 as [|x l l' _ IH|x y l|l l' l'' _ IH1 _ IH2]; cbn [fold_left].
  - reflexivity.
  - rewrite (fold_add_shift l), (fold_add_shift l'), IH. reflexivity.
  - rewrite (fold_add_shift l (0 + y + x)), (fold_add_shift l (0 + x + y)). lia.
  - congruence.
Qed.

Lemma scores_of_perm E l l' :
  Permutation l l' -> Permutation (scores_of E l) (scores_of E l').
Proof. intros H. unfold scores_of. apply Permutation_map. exact H. Qed.

Lemma scores_uniform E blocks r :
  Forall (fun b => cc_rank E (complexity b) = r) blocks ->
  fold_left Z.add (scores_of E blocks) 0 = Z.of_nat (length blocks) * rank_score r.
Proof.
  intros H. induction H as [|b bl Hb _ IH].
  - reflexivity.
  - unfold scores_of in *. cbn [map fold_left length].
    rewrite fold_add_shift, IH, Hb. lia.
Qed.

Lemma rank_score_table r : In (rank_score r) [10; 8; 6; 4; 2; 0].
Proof.
  unfold rank_score.
  repeat match goal with |- context [String.eqb ?a ?b] => destruct (String.eqb a b) end;
    cbn [In]; tauto.
Qed.

Lemma table_score_float s :
  In s [10; 8; 6; 4; 2; 0] -> s <> 0 ->
  of_decimal false (Z.to_N (100 * s)) 2 = of_Z s.
Proof.
  cbn [In]. intros [<-|[<-|[<-|[<-|[<-|[<-|[]]]]]]] Hs; vm_compute; reflexivity.
Qed.

(** *** The mean lies between the extremes *)

Lemma sum_between (l : list Z) lo hi :
  Forall (fun x => lo <= x <= hi) l ->
  lo * Z.of_nat (length l) <= fold_left Z.add l 0 <= hi * Z.of_nat (length l).
Proof.
  intros H. induction H as [|x l Hx _ IH]; cbn [fold_left length]; [lia|].
  rewrite fold_add_shift. lia.
Qed.

Lemma between_weaken lo lo' hi hi' x :
  lo <= lo' -> hi' <= hi -> between lo' hi' x -> between lo hi x.
Proof.
  intros Hlo Hhi. unfold between. destruct (value x) as [| |q|]; try tauto.
  intros [H1 H2]. rewrite Zle_Qle in Hlo, Hhi. split; lra.
Qed.

Lemma mean_between S n lo hi :
  0 < n -> 0 <= lo -> hi < 2 ^ 53 -> lo * n <= S <= hi * n ->
  between lo hi (round2 (int_truediv S n)).
Proof.
  intros Hn Hlo Hhi HS.
  assert (Hlh : lo <= hi) by nia.
  destruct (Z.eq_dec hi 0) as [Hz|Hz].
  - assert (S = 0) by nia. assert (lo = 0) by lia. subst.
    destruct n; try lia. cbn [int_truediv round2]. unfold between. cbn [value].
    split; apply Qle_refl.
  - assert (Hu : upto hi (round2 (int_truediv S n))).
    { apply round2_upto; [lia|]. apply int_truediv_upto; [lia|nia|lia|lia]. }
    destruct (Z.eq_dec lo 0) as [->|Hl].
    + apply between_zero; [lia | exact Hu].
    + apply between_intro; [lia| |exact Hu].
      apply round2_from; [lia|]. apply int_truediv_from; lia.
Qed.

(** *** Strings *)

Lemma chars_append a b :
  list_ascii_of_string (a +:+ b) = list_ascii_of_string a ++ list_ascii_of_string b.
Proof.
  induction a as [|c a IH]; [reflexivity|].
  change (list_ascii_of_string (String c (a +:+ b))
          = c :: (list_ascii_of_string a ++ list_ascii_of_string b)).
  cbn [list_ascii_of_string]. rewrite IH. reflexivity.
Qed.

Lemma chars_inj a b : list_ascii_of_string a = list_ascii_of_string b -> a = b.
Proof.
  intros H. rewrite <- (string_of_list_ascii_of_string a), <- (string_of_list_ascii_of_string b), H.
  reflexivity.
Qed.

Lemma append_inv_head a b c : a +:+ b = a +:+ c -> b = c.
Proof.
  intros H. apply chars_inj. apply (f_equal list_ascii_of_string) in H.
  rewrite !chars_append in H. apply (app_inv_head _ _ _ H).
Qed.

Lemma append_inv_tail a b c : a +:+ c = b +:+ c -> a = b.
Proof.
  intros H. apply chars_inj. apply (f_equal list_ascii_of_string) in H.
  rewrite !chars_append in H. apply (app_inv_tail _ _ _ H).
Qed.

Lemma path_join_inj a b c : path_join a b = path_join a c -> b = c.
Proof.
  unfold path_join. destruct (rev (list_ascii_of_string a)) as [|x l].
  - exact (fun H => H).
  - destruct (Ascii.eqb x "/").
    + apply append_inv_head.
    + intros H. apply append_inv_head in H. apply append_inv_head in H. exact H.
Qed.

Lemma temp_path_inj E w1 w2 :
  temp_path E w1 = temp_path E w2 -> uuid4_hex E (uuids w1) = uuid4_hex E (uuids w2).
Proof.
  unfold temp_path. intros H. apply path_join_inj in H.
  apply append_inv_head in H. apply append_inv_tail in H. exact H.
Qed.

(** *** [strip] *)

Lemma lstrip_spaces sp : spaces sp -> lstrip sp = [].
Proof. intros H. induction H as [|c sp Hc _ IH]; [reflexivity|]. cbn [lstrip]. rewrite Hc. exact IH. Qed.

Lemma strip_blank s : spaces (list_ascii_of_string s) -> strip s = EmptyString.
Proof. intros H. unfold strip. rewrite (lstrip_spaces _ H). reflexivity. Qed.

Lemma lstrip_head l : match lstrip l with [] => True | c :: _ => Regex.is_space c = false end.
Proof.
  induction l as [|c l IH]; [exact I|]. cbn [lstrip].
  destruct (Regex.is_space c) eqn:Hc; [exact IH | exact Hc].
Qed.

Lemma lstrip_fixed l :
  match l with [] => True | c :: _ => Regex.is_space c = false end -> lstrip l = l.
Proof. destruct l as [|c l]; [reflexivity|]. cbn [lstrip]. intros ->. reflexivity. Qed.

Lemma lstrip_idem l : lstrip (lstrip l) = lstrip l.
Proof. apply lstrip_fixed, lstrip_head. Qed.

Lemma lstrip_snoc x c : Regex.is_space c = false -> lstrip (x ++ [c]) = lstrip x ++ [c].
Proof.
  intros Hc. induction x as [|a x IH]; cbn [app lstrip].
  - rewrite Hc. reflexivity.
  - destruct (Regex.is_space a); [exact IH | reflexivity].
Qed.

(** What [strip] leaves has no blank at either end. *)
Lemma stripped_fixed l :
  let t := rev (lstrip (rev (lstrip l))) in
  lstrip t = t /\ lstrip (rev t) = rev t.
Proof.
  cbn zeta. split.
  - pose proof (lstrip_head l) as Hh. destruct (lstrip l) as [|c v]; [reflexivity|].
    cbn [rev]. rewrite (lstrip_snoc _ c Hh), rev_app_distr. cbn [rev app].
    apply lstrip_fixed. exact Hh.
  - rewrite rev_involutive. apply lstrip_idem.
Qed.

Lemma strip_idempotent s : strip (strip s) = strip s.
Proof.
  unfold strip. rewrite list_ascii_of_string_of_list_ascii.
  destruct (stripped_fixed (list_ascii_of_string s)) as [H1 H2].
  rewrite H1, H2, rev_involutive. reflexivity.
Qed.

(** *** What the orchestrator lets through *)

Lemma run_pylint_raises E fs filename d t e :
  run_pylint E fs filename d t = Raise e -> is_Exception e = false.
Proof.
  rewrite run_pylint_cmd.
  destruct (subprocess_run E (pylint_cmd filename d) t fs) as [result|e'].
  - destruct (parse_rating_ok (or_empty (stdout result) +:+ nl +:+ or_empty (stderr result)))
      as [score ->]. discriminate.
  - destruct (is_Exception e') eqn:He; [discriminate|]. intros [= <-]. exact He.
Qed.

Lemma try_except_raises {A} (body : Res A) handler e :
  (forall e', exists a, handler e' = Ok a) ->
  try_except body handler = Raise e -> body = Raise e /\ is_Exception e = false.
Proof.
  intros Hh. unfold try_except. destruct body as [a|e']; [discriminate|].
  destruct (is_Exception e') eqn:He.
  - destruct (Hh e') as [a ->]. discriminate.
  - intros [= <-]. split; [reflexivity | exact He].
Qed.

Lemma try_body_raises E code fs path e :
  try_body E code fs path = Raise e -> is_Exception e = false.
Proof.
  unfold try_body.
  destruct (run_pylint E fs path true 15) as [[ls lo]|e1] eqn:Hl; cbn [bind].
  2:{ intros [= <-]. apply (run_pylint_raises _ _ _ _ _ _ Hl). }
  match goal with
  | |- bind ?m _ = _ -> _ => destruct m as [[cs clog]|e2] eqn:Hc; cbn [bind]
  end.
  2:{ intros [= <-]. apply try_except_raises in Hc; [apply Hc|]. intros e'. eauto. }
  match goal with
  | |- bind ?m _ = _ -> _ => destruct m as [[[[[es bs] re] rb] hlog]|e3] eqn:Hh; cbn [bind]
  end.
  - discriminate.
  - intros [= <-]. apply try_except_raises in Hh; [apply Hh|]. intros e'. eauto.
Qed.

Lemma analyze_pair E code w fs' :
  writes E code w ->
  os_remove E (temp_path E w) (written E code w) = Ok fs' ->
  analyze_code_string E code w
  = (try_body E code (written E code w) (temp_path E w),
     {| files := fs'; uuids := S (uuids w); all_results := all_results w |}).
Proof.
  intros Hw Hrm. rewrite (surjective_pairing (analyze_code_string E code w)).
  rewrite (analyze_fst E code w Hw), (analyze_snd E code w Hw), Hrm. reflexivity.
Qed.

Lemma try_body_cc_raises E code fs path lint e :
  run_pylint E fs path true 15 = Ok lint ->
  cc_visit E code = Raise e -> is_Exception e = false ->
  try_body E code fs path = Raise e.
Proof.
  intros Hl Hc He. unfold try_body. rewrite Hl. destruct lint as [ls lo].
  cbn [bind]. rewrite Hc. cbn [bind try_except]. rewrite He. reflexivity.
Qed.

Lemma try_body_halstead_raises E code fs path lint e :
  run_pylint E fs path true 15 = Ok lint ->
  (forall e', cc_visit E code = Raise e' -> is_Exception e' = true) ->
  h_visit E code = Raise e -> is_Exception e = false ->
  try_body E code fs path = Raise e.
Proof.
  intros Hl Hc Hh He. unfold try_body. rewrite Hl. destruct lint as [ls lo].
  cbn [bind].
  assert (Hs : halstead_scores E code = Raise e).
  { unfold halstead_scores. rewrite Hh. reflexivity. }
  destruct (cc_visit E code) as [bl|e1] eqn:Hv; cbn [bind try_except].
  - destruct (cc_to_score_in_range E bl) as (s & -> & _). cbn [bind].
    rewrite Hs. cbn [bind try_except]. rewrite He. reflexivity.
  - rewrite (Hc e1 eq_refl). cbn [bind]. rewrite Hs. cbn [bind try_except].
    rewrite He. reflexivity.
Qed.

(** *** The route *)

Lemma index_blank E form w :
  strip (default EmptyString form) = EmptyString ->
  index E (POST form) w = (Ok tt, with_history w).
Proof. intros H. unfold index. rewrite index_start, H. reflexivity. Qed.

Lemma analyze_uuids E code w :
  uuids (snd (analyze_code_string E code w)) = S (uuids w).
Proof.
  destruct (write_text E (temp_path E w) code (files w)) as [[e fs0]|] eqn:Hw.
  - rewrite (analyze_unwritten E code w e fs0 Hw). reflexivity.
  - rewrite (analyze_snd E code w Hw). reflexivity.
Qed.

(** *** The score of a text behind noise *)

Lemma score_rating_or m out1 out2 o1 o2 :
  score_of o1 = score_of o2 ->
  score_of (rating_or m out1 o1) = score_of (rating_or m out2 o2).
Proof.
  intros H. destruct m as [m|]; [|exact H]. unfold rating_or.
  destruct (py_float (Regex.group m)) as [x|e]; cbn [bind try_except].
  - reflexivity.
  - destruct (is_Exception e); [exact H | reflexivity].
Qed.

Lemma rating_noise pre s :
  lacks starts_match pre ->
  score_of (parse_rating (string_of_list_ascii (pre ++ s)))
  = score_of (parse_rating (string_of_list_ascii s)).
Proof.
  intros H. unfold parse_rating, Regex.search.
  rewrite !list_ascii_of_string_of_list_ascii.
  rewrite (search_rated_at_noise pre s H), (search_any_over_ten_noise pre s H).
  apply score_rating_or, score_rating_or. reflexivity.
Qed.

End Pipeline.

Import Pipeline.

(** ** The claims of the specification *)

(** C1, as the code has it. The complexity, effort and bug scores of every
    record lie in [0, 10]. The lint score is read off the output of the
    tool and is not clamped: it is 0.0 when the run of the tool fails;
    otherwise, with the output made of stdout, a newline and stderr, it is
    the rounded value of the literal that the first match of
    [rated at X/10] captures, whatever its sign and size; without such a
    match, that of the literal that the first match of [X/10] captures;
    and 0.0 when neither pattern matches. *)
Theorem sub_scores_in_range E code w r :
  fst (analyze_code_string E code w) = Ok r ->
  in_range (cc_score r) = true /\
  in_range (effort_score r) = true /\
  in_range (bug_score r) = true /\
  match subprocess_run E (pylint_cmd (temp_path E w) true) 15 (written E code w) with
  | Raise _ => pylint_score r = f0
  | Ok result =>
      let output := or_empty (stdout result) +:+ nl +:+ or_empty (stderr result) in
      match Regex.search Regex.rated_at output with
      | Some m =>
          exists neg ds frac, well_formed ds frac /\
            Regex.group m = Some (string_of_list_ascii (decimal neg ds frac)) /\
            pylint_score r = round2 (literal_value neg ds frac)
      | None =>
          match Regex.search Regex.any_over_ten output with
          | Some m =>
              exists neg ds frac, well_formed ds frac /\
                Regex.group m = Some (string_of_list_ascii (decimal neg ds frac)) /\
                pylint_score r = round2 (literal_value neg ds frac)
          | None => pylint_score r = f0
          end
      end
  end.
Proof.
  intros H. destruct (analyze_fields E code w r H) as ([ls lo] & Hl & ->).
  pose proof (cc_stage_in_range E code) as Hc.
  pose proof (halstead_stage_in_range E code) as Hh.
  destruct (cc_stage E code) as [cs clog].
  destruct (halstead_stage E code) as [[[[es bs] re] rb] hlog].
  cbn [assemble cc_score effort_score bug_score pylint_score fst] in *.
  destruct Hh as [He Hb].
  split; [exact Hc|]. split; [exact He|]. split; [exact Hb|].
  rewrite run_pylint_cmd in Hl.
  destruct (subprocess_run E (pylint_cmd (temp_path E w) true) 15 (written E code w))
    as [result|e].
  - cbv zeta.
    destruct (parse_rating_cases (or_empty (stdout result) +:+ nl +:+ or_empty (stderr result)))
      as (H1 & H2 & H3).
    destruct (Regex.search Regex.rated_at _) as [m|].
    + destruct (H1 m eq_refl) as (neg & ds & frac & Hwf & Hg & Hp).
      rewrite Hp in Hl. injection Hl as <- _. exists neg, ds, frac. auto.
    + destruct (Regex.search Regex.any_over_ten _) as [m|].
      * destruct (H2 eq_refl m eq_refl) as (neg & ds & frac & Hwf & Hg & Hp).
        rewrite Hp in Hl. injection Hl as <- _. exists neg, ds, frac. auto.
      * rewrite (H3 eq_refl eq_refl) in Hl. injection Hl as <- _. reflexivity.
  - destruct (is_Exception e); [|discriminate]. injection Hl as <- _. reflexivity.
Qed.

Lemma sub_scores_in_range_witness :
  exists r, fst (analyze_code_string env_fine "x = 1" world2) = Ok r /\
    in_range (cc_score r) = true /\
    in_range (effort_score r) = true /\
    in_range (bug_score r) = true /\
    exists neg ds frac, well_formed ds frac /\
      string_of_list_ascii (decimal neg ds frac) = "7.5" /\
      pylint_score r = round2 (literal_value neg ds frac).
Proof.
  eexists. split; [vm_compute; reflexivity|].
  match goal with
  | |- in_range (cc_score ?r) = true /\ _ =>
      pose proof (sub_scores_in_range env_fine "x = 1" world2 r) as H
  end.
  destruct H as (H1 & H2 & H3 & H4); [vm_compute; reflexivity|].
  split; [exact H1|]. split; [exact H2|]. split; [exact H3|].
  change (subprocess_run env_fine (pylint_cmd (temp_path env_fine world2) true) 15
            (written env_fine "x = 1" world2))
    with (completed "Your code has been rated at 7.5/10") in H4.
  cbv beta iota zeta delta [completed] in H4.
  match type of H4 with
  | match ?s with _ => _ end => destruct s as [m|] eqn:Hm; [|vm_compute in Hm; discriminate]
  end.
  destruct H4 as (neg & ds & frac & Hwf & Hg & Hp).
  exists neg, ds, frac. split; [exact Hwf|]. split; [|exact Hp].
  vm_compute in Hm. injection Hm as <-. cbn in Hg. injection Hg as <-. reflexivity.
Defined.

(** C1, as the specification states it, fails: a pylint that rates a
    snippet at -5.00/10 gives a record whose lint score is -5.0. *)
Lemma lint_score_out_of_range :
  exists r, fst (analyze_code_string env_negative "x = 1" world0) = Ok r /\
    pylint_score r = of_Z (-5) /\ in_range (pylint_score r) = false.
Proof.
  eexists. split; [vm_compute; reflexivity|]. split; vm_compute; reflexivity.
Qed.

(** C2, as the code has it. With collaborators that fail with errors only,
    every invocation whose snippet gets written returns a record, made of
    what the three stages contribute independently of one another. A
    failed pylint run gives
    the lint score 0.0 and its message as the text the log starts with. A
    failure of [cc_visit] gives the complexity score 0.0 and the line
    [Radon CC error: <message>]; otherwise the score is that of
    [cc_to_score] and nothing is logged. A failure of [h_visit] gives the
    value 0.0 to the two Halstead scores and the two raw values and the
    line [Halstead error: <message>]; otherwise the four values are those
    of [halstead_scores] and nothing is logged. *)
Theorem stage_isolation E code w :
  only_errors E -> writes E code w ->
  exists r ls lo clog hlog,
    fst (analyze_code_string E code w) = Ok r /\
    run_pylint E (written E code w) (temp_path E w) true 15 = Ok (ls, lo) /\
    pylint_score r = ls /\
    pylint_output r = (lo +:+ clog) +:+ hlog /\
    (forall e, subprocess_run E (pylint_cmd (temp_path E w) true) 15 (written E code w) = Raise e ->
       ls = f0 /\ lo = pylint_failure e) /\
    match cc_visit E code with
    | Ok bl => cc_to_score E bl = Ok (cc_score r) /\ clog = ""
    | Raise e => cc_score r = f0 /\ clog = stage_error "Radon CC" e
    end /\
    match h_visit E code with
    | Ok _ =>
        halstead_scores E code = Ok (effort_score r, bug_score r, raw_effort r, raw_bugs r) /\
        hlog = ""
    | Raise e =>
        effort_score r = f0 /\ bug_score r = f0 /\ raw_effort r = f0 /\ raw_bugs r = f0 /\
        hlog = stage_error "Halstead" e
    end.
Proof.
  intros HE Hw. destruct (analyze_ok E code w HE Hw) as [r Hr].
  destruct (analyze_fields E code w r Hr) as ([ls lo] & Hl & ->).
  exists (assemble (ls, lo) (cc_stage E code) (halstead_stage E code)), ls, lo,
    (snd (cc_stage E code)), (snd (halstead_stage E code)).
  split; [exact Hr|]. split; [exact Hl|].
  assert (Hlint : forall e,
    subprocess_run E (pylint_cmd (temp_path E w) true) 15 (written E code w) = Raise e ->
    ls = f0 /\ lo = pylint_failure e).
  { intros e He. rewrite run_pylint_cmd, He in Hl.
    destruct HE as (Hrun & _). rewrite (Hrun _ _ _ _ He) in Hl.
    injection Hl as <- <-. split; reflexivity. }
  unfold cc_stage, halstead_stage.
  destruct (cc_visit E code) as [bl|e1]; cbn [bind].
  - destruct (cc_to_score_in_range E bl) as (s & Hs & _). rewrite Hs.
    destruct (h_visit E code) as [items|e2] eqn:Hv.
    + destruct (halstead_scores E code) as [[[[es bs] re] rb]|e] eqn:Hh.
      * cbn. split; [reflexivity|]. split; [reflexivity|]. split; [exact Hlint|].
        split; split; reflexivity.
      * apply halstead_scores_raise in Hh. congruence.
    + assert (Hh : halstead_scores E code = Raise e2).
      { unfold halstead_scores. rewrite Hv. reflexivity. }
      rewrite Hh. cbn. split; [reflexivity|]. split; [reflexivity|]. split; [exact Hlint|].
      split; [split; reflexivity | repeat split; reflexivity].
  - destruct (h_visit E code) as [items|e2] eqn:Hv.
    + destruct (halstead_scores E code) as [[[[es bs] re] rb]|e] eqn:Hh.
      * cbn. split; [reflexivity|]. split; [reflexivity|]. split; [exact Hlint|].
        split; split; reflexivity.
      * apply halstead_scores_raise in Hh. congruence.
    + assert (Hh : halstead_scores E code = Raise e2).
      { unfold halstead_scores. rewrite Hv. reflexivity. }
      rewrite Hh. cbn. split; [reflexivity|]. split; [reflexivity|]. split; [exact Hlint|].
      split; [split; reflexivity | repeat split; reflexivity].
Qed.

Lemma stage_isolation_witness :
  exists r ls lo clog hlog,
    fst (analyze_code_string env_unparsable "x = (" world0) = Ok r /\
    run_pylint env_unparsable (written env_unparsable "x = (" world0)
      (temp_path env_unparsable world0) true 15 = Ok (ls, lo) /\
    pylint_score r = ls /\
    pylint_output r = (lo +:+ clog) +:+ hlog /\
    cc_score r = f0 /\ clog = stage_error "Radon CC" syntax_error /\
    effort_score r = f0 /\ hlog = stage_error "Halstead" syntax_error.
Proof.
  destruct (stage_isolation env_unparsable "x = (" world0 env_unparsable_only_errors eq_refl)
    as (r & ls & lo & clog & hlog & H1 & H2 & H3 & H4 & _ & H6 & H7).
  exists r, ls, lo, clog, hlog.
  cbn in H6, H7. destruct H6 as [H6 H6']. destruct H7 as (H7 & _ & _ & _ & H7').
  split; [exact H1|]. split; [exact H2|]. split; [exact H3|]. split; [exact H4|].
  split; [exact H6|]. split; [exact H6'|]. split; [exact H7 | exact H7'].
Defined.

(** C2, as the specification states it, fails for the lint stage: when
    pylint is missing, the record has the lint score 0.0 and the message
    of [run_pylint] as its whole log, in which no line has the shape
    [<Stage> error: <message>], while the two other stages have run. *)
Lemma missing_pylint_not_logged :
  exists r,
    fst (analyze_code_string env_no_pylint "x = 1" world0) = Ok r /\
    subprocess_run env_no_pylint (pylint_cmd (temp_path env_no_pylint world0) true) 15
      (written env_no_pylint "x = 1" world0) = Raise missing /\
    pylint_score r = f0 /\
    pylint_output r = "Pylint not found. Install pylint (`pip install pylint`)." /\
    has_stage_error (pylint_output r) = false /\
    cc_score r = of_Z 7 /\ effort_score r = of_Z 4.
Proof.
  eexists. split; [vm_compute; reflexivity|].
  split; [reflexivity|]. split; [reflexivity|]. split; [reflexivity|].
  split; [vm_compute; reflexivity|]. split; vm_compute; reflexivity.
Qed.

(** C3, as the code has it. With collaborators that fail with errors only
    and a temporary directory that can be written,
    [analyze_code_string] returns one record for every snippet and leaves
    the history as it found it. It is [index] that appends the record, as
    the last element, when the text of the form is not blank; a blank text
    and a GET leave the history unchanged. *)
Theorem one_record_per_snippet E code w :
  only_errors E -> writable E ->
  (exists r, fst (analyze_code_string E code w) = Ok r) /\
  all_results (snd (analyze_code_string E code w)) = all_results w /\
  (strip code <> "" ->
   exists r, fst (analyze_code_string E (strip code) (with_history w)) = Ok r /\
     history (snd (index E (submit code) w)) = history w ++ [r]) /\
  (strip code = "" -> history (snd (index E (submit code) w)) = history w) /\
  history (snd (index E GET w)) = history w.
Proof.
  intros HE HW. split; [apply analyze_ok; [exact HE | apply HW]|].
  split; [apply analyze_history|].
  split; [|split].
  - intros Hc. destruct (appended_submission E code w HE HW Hc) as (r & Hr & Ha).
    exists r. split; [exact Hr|]. rewrite index_history, Ha. reflexivity.
  - intros Hc. rewrite index_history. unfold appended, submit.
    change (default EmptyString (Some code)) with code. rewrite Hc.
    apply app_nil_r.
  - rewrite index_history. apply app_nil_r.
Qed.

Lemma one_record_per_snippet_witness :
  (exists r, fst (analyze_code_string env_fine "x = 1" world0) = Ok r) /\
  all_results (snd (analyze_code_string env_fine "x = 1" world0)) = all_results world0.
Proof.
  destruct (one_record_per_snippet env_fine "x = 1" world0 env_fine_only_errors
              (fun _ _ _ => eq_refl))
    as (H1 & H2 & _).
  split; [exact H1 | exact H2].
Defined.

(** C3, as the specification states it, fails: after an invocation of the
    orchestrator the history is as empty as before; the record is only
    returned. *)
Lemma orchestrator_does_not_append :
  exists r,
    fst (analyze_code_string env_fine "x = 1" world1) = Ok r /\
    history world1 = [] /\
    history (snd (analyze_code_string env_fine "x = 1" world1)) = [].
Proof.
  eexists. split; [vm_compute; reflexivity|]. split; [reflexivity|].
  unfold history. rewrite analyze_history. reflexivity.
Qed.

(** C4. The Halstead scorer: no item gives (10.0, 10.0, 0.0, 0.0);
    otherwise the raw effort is the maximum of the efforts of the items
    (one of them, exceeded by none), the raw bugs are their summed bugs, the
    effort score is 10.0 when the raw effort is at most 0 and the clamp to
    [0, 10] of [10.0 - 2.0 * log10(raw_effort + 1)] otherwise, the bug
    score is the clamp of [10.0 - 10.0 * raw_bugs], which is 0.0 as soon
    as the raw bugs reach 1.0, and both scores are rounded to two
    decimals. *)
Theorem halstead_scorer E src items :
  h_visit E src = Ok items ->
  (items = [] -> halstead_scores E src = Ok (f10, f10, f0, f0)) /\
  (items <> [] ->
   exists es bs re rb,
     halstead_scores E src = Ok (es, bs, re, rb) /\
     In re (efforts_of items) /\
     (forall e, In e (efforts_of items) -> fgt e re = false) /\
     rb = py_sum (bugs_of items) /\
     (fle re f0 = true -> es = f10) /\
     (fle re f0 = false ->
      es = round2 (clamp_0_10 (effort_penalty E re)) /\
      (effort_penalty E re <> S754_nan ->
       feq es (round2 (clamp (effort_penalty E re) f0 f10)) = true)) /\
     bs = round2 (clamp_0_10 (bug_penalty rb)) /\
     (bug_penalty rb <> S754_nan ->
      feq bs (round2 (clamp (bug_penalty rb) f0 f10)) = true) /\
     (fge rb f1 = true -> bs = f0)).
Proof.
  intros Hv. split.
  - intros ->. apply halstead_scores_empty. exact Hv.
  - intros Hne. destruct items as [|h0 hs]; [congruence|].
    rewrite (halstead_scores_spec E src h0 hs Hv).
    set (re := py_max_list (default f0 (effort h0)) (efforts_of hs)).
    set (rb := py_sum (bugs_of (h0 :: hs))).
    eexists _, _, re, rb. split; [reflexivity|].
    destruct (py_max_list_spec (default f0 (effort h0)) (efforts_of hs)) as [Hin Hmax].
    split; [exact Hin|]. split; [exact Hmax|]. split; [reflexivity|].
    split; [intros ->; reflexivity|].
    split.
    { intros ->. split; [reflexivity|]. intros Hn.
      apply round2_feq. unfold clamp_0_10. apply clamp_refines. exact Hn. }
    split; [reflexivity|].
    split.
    { intros Hn. apply round2_feq. unfold clamp_0_10. apply clamp_refines. exact Hn. }
    intros Hge. unfold clamp_0_10, bug_penalty. rewrite fmul_comm.
    apply bug_score_floor. exact Hge.
Qed.

Lemma halstead_scorer_witness :
  exists es bs re rb,
    halstead_scores env_fine "x = 1" = Ok (es, bs, re, rb) /\
    In re (efforts_of [item (of_Z 999) (of_decimal false 5 2)]) /\
    (forall e, In e (efforts_of [item (of_Z 999) (of_decimal false 5 2)]) -> fgt e re = false) /\
    rb = py_sum (bugs_of [item (of_Z 999) (of_decimal false 5 2)]) /\
    (fle re f0 = true -> es = f10) /\
    (fle re f0 = false ->
     es = round2 (clamp_0_10 (effort_penalty env_fine re)) /\
     (effort_penalty env_fine re <> S754_nan ->
      feq es (round2 (clamp (effort_penalty env_fine re) f0 f10)) = true)) /\
    bs = round2 (clamp_0_10 (bug_penalty rb)) /\
    (bug_penalty rb <> S754_nan ->
     feq bs (round2 (clamp (bug_penalty rb) f0 f10)) = true) /\
    (fge rb f1 = true -> bs = f0).
Proof.
  apply (proj2 (halstead_scorer env_fine "x = 1" [item (of_Z 999) (of_decimal false 5 2)]
                  eq_refl)).
  discriminate.
Defined.

(** C5. The parser of the tool output looks for [rated at X/10]
    (whatever the case of the letters) first and takes that value; without
    such a match it takes the first [X/10]; without any match the score is
    [0.0]. The value is rounded to two decimals, the text is returned
    unchanged, and no match holds a value that [float] rejects. A text
    whose first [rated at] is followed by a literal and [/10] scores that
    literal, a text without [rated at] whose first number is followed by
    [/10] scores that number, and a text without a slash scores 0.0. So a
    text with [rated at 7.5/10] scores 7.5, a text with only [3/10]
    scores 3.0 and a text without a rating scores 0.0. *)
Theorem tool_output_parser (output : string) :
  (forall m, Regex.search Regex.rated_at output = Some m ->
     exists neg ds frac, well_formed ds frac /\
       Regex.group m = Some (string_of_list_ascii (decimal neg ds frac)) /\
       parse_rating output = Ok (round2 (literal_value neg ds frac), output)) /\
  (Regex.search Regex.rated_at output = None ->
   forall m, Regex.search Regex.any_over_ten output = Some m ->
     exists neg ds frac, well_formed ds frac /\
       Regex.group m = Some (string_of_list_ascii (decimal neg ds frac)) /\
       parse_rating output = Ok (round2 (literal_value neg ds frac), output)) /\
  (Regex.search Regex.rated_at output = None ->
   Regex.search Regex.any_over_ten output = None ->
   parse_rating output = Ok (f0, output)) /\
  (forall neg ds frac, well_formed ds frac -> first_rated_at output neg ds frac ->
     parse_rating output = Ok (round2 (literal_value neg ds frac), output)) /\
  (forall neg ds frac, well_formed ds frac ->
     no_rated_at output -> first_over_ten output neg ds frac ->
     parse_rating output = Ok (round2 (literal_value neg ds frac), output)) /\
  (lacks is_slash (list_ascii_of_string output) -> parse_rating output = Ok (f0, output)) /\
  (forall pre post,
     free_of rated_word pre (list_ascii_of_string "rated at 7.5/10" ++ post) = true ->
     output = string_of_list_ascii (pre ++ list_ascii_of_string "rated at 7.5/10" ++ post) ->
     parse_rating output = Ok (of_decimal false 75 1, output)) /\
  (forall pre post,
     no_rated_at output -> lacks starts_number pre ->
     output = string_of_list_ascii (pre ++ list_ascii_of_string "3/10" ++ post) ->
     parse_rating output = Ok (of_Z 3, output)) /\
  parse_rating "no rating in here" = Ok (f0, "no rating in here").
Proof.
  destruct (parse_rating_cases output) as (H1 & H2 & H3).
  split; [exact H1|]. split; [exact H2|]. split; [exact H3|].
  split; [intros neg ds frac; apply parse_first_rated_at|].
  split; [intros neg ds frac; apply parse_first_over_ten|].
  split; [apply parse_no_slash|].
  split; [|split].
  - intros pre post Hfree ->.
    change (of_decimal false 75 1)
      with (round2 (literal_value false ["7"%char] (Some ["5"%char]))).
    apply parse_first_rated_at.
    + split; [discriminate|]. split; repeat constructor. discriminate.
    + exists pre, rated_word, [" "%char], [], [], post.
      split; [reflexivity|]. split; [exact Hfree|].
      split; [unfold same_letters, rated_word; repeat constructor|].
      split; [discriminate|]. repeat split; repeat constructor.
  - intros pre post Hnone Hpre Hout.
    change (of_Z 3) with (round2 (literal_value false ["3"%char] None)).
    apply parse_first_over_ten.
    + split; [discriminate|]. split; repeat constructor.
    + exact Hnone.
    + exists pre, [], [], post. split; [exact Hout|]. repeat split; try constructor. exact Hpre.
  - vm_compute. reflexivity.
Qed.

Lemma tool_output_parser_witness :
  parse_rating "Your code has been rated at 7.5/10 (previous run: 6.00/10, +1.50)"
  = Ok (of_decimal false 75 1,
        "Your code has been rated at 7.5/10 (previous run: 6.00/10, +1.50)").
Proof.
  destruct (tool_output_parser
              "Your code has been rated at 7.5/10 (previous run: 6.00/10, +1.50)")
    as (_ & _ & _ & _ & _ & _ & H & _).
  apply (H (list_ascii_of_string "Your code has been ")
           (list_ascii_of_string " (previous run: 6.00/10, +1.50)")); reflexivity.
Defined.

(** C6. The complexity scorer looks the rank of every block up in the
    table A 10, B 8, C 6, D 4, E 2, F 0, takes 0 for any other rank, and
    returns the mean of the scores, the sum divided by the number of
    blocks, rounded to two decimals; without blocks the score is 10.0,
    and the ranks A, A, B, F score 7.0. *)
Theorem complexity_scorer E (cc_results : list Block) :
  (cc_results = [] -> cc_to_score E cc_results = Ok f10) /\
  (cc_results <> [] ->
   cc_to_score E cc_results =
   Ok (round2 (int_truediv (fold_left Z.add (scores_of E cc_results) 0)
                           (Z.of_nat (length cc_results))))) /\
  (forall rank, default 0 (mapping !! rank) = rank_score rank) /\
  (rank_score "A" = 10 /\ rank_score "B" = 8 /\ rank_score "C" = 6 /\
   rank_score "D" = 4 /\ rank_score "E" = 2 /\ rank_score "F" = 0) /\
  (forall rank, ~ In rank ["A"; "B"; "C"; "D"; "E"; "F"] -> rank_score rank = 0) /\
  (map (fun r => cc_rank E (complexity r)) cc_results = ["A"; "A"; "B"; "F"] ->
   scores_of E cc_results = [10; 10; 8; 0] /\ cc_to_score E cc_results = Ok (of_Z 7)).
Proof.
  split; [intros ->; reflexivity|].
  split; [apply cc_to_score_spec|].
  split; [apply mapping_lookup|].
  split; [repeat split|].
  split.
  - intros rank Hn. unfold rank_score.
    repeat match goal with
      | |- context [String.eqb rank ?k] =>
          destruct (String.eqb_spec rank k) as [->|?];
          [exfalso; apply Hn; cbn [In]; tauto|]
      end.
    reflexivity.
  - intros Hranks.
    assert (Hs : scores_of E cc_results = [10; 10; 8; 0]).
    { unfold scores_of. rewrite <- (map_map (fun r => cc_rank E (complexity r)) rank_score).
      rewrite Hranks. reflexivity. }
    split; [exact Hs|].
    assert (Hlen : length cc_results = 4%nat).
    { rewrite <- (length_map (fun r => cc_rank E (complexity r))), Hranks. reflexivity. }
    rewrite cc_to_score_spec by (intros ->; discriminate).
    rewrite Hs, Hlen. vm_compute. reflexivity.
Qed.

Lemma complexity_scorer_witness :
  scores_of env_fine (map (fun c => {| complexity := c |}) [1; 3; 7; 50]) = [10; 10; 8; 0] /\
  cc_to_score env_fine (map (fun c => {| complexity := c |}) [1; 3; 7; 50]) = Ok (of_Z 7).
Proof.
  apply (complexity_scorer env_fine (map (fun c => {| complexity := c |}) [1; 3; 7; 50])).
  vm_compute. reflexivity.
Defined.

(** C7. [run_pylint] does not raise: when the pylint process cannot be
    started, times out or fails with any other error, it returns [0.0]
    with a message that describes the failure, and when the process
    completes it returns a score with the output of the tool. *)
Theorem run_pylint_never_raises E fs filename d t :
  (forall e, subprocess_run E (pylint_cmd filename d) t fs = Raise e -> is_Exception e = true) ->
  exists score text,
    run_pylint E fs filename d t = Ok (score, text) /\
    (forall e, subprocess_run E (pylint_cmd filename d) t fs = Raise e ->
       score = f0 /\ text = pylint_failure e) /\
    (forall result, subprocess_run E (pylint_cmd filename d) t fs = Ok result ->
       text = or_empty (stdout result) +:+ nl +:+ or_empty (stderr result)).
Proof.
  intros H. rewrite run_pylint_cmd.
  destruct (subprocess_run E (pylint_cmd filename d) t fs) as [result|e].
  - destruct (parse_rating_ok (or_empty (stdout result) +:+ nl +:+ or_empty (stderr result)))
      as [score Hs].
    exists score, (or_empty (stdout result) +:+ nl +:+ or_empty (stderr result)).
    split; [exact Hs|]. split; [discriminate|]. intros r [= <-]. reflexivity.
  - rewrite (H e eq_refl). exists f0, (pylint_failure e).
    split; [reflexivity|]. split; [|discriminate]. intros e' [= <-]. split; reflexivity.
Qed.

Lemma run_pylint_never_raises_witness :
  exists score text,
    run_pylint env_no_pylint ∅ "/tmp/upload_0.py" true 15 = Ok (score, text) /\
    (forall e, subprocess_run env_no_pylint (pylint_cmd "/tmp/upload_0.py" true) 15 ∅ = Raise e ->
       score = f0 /\ text = pylint_failure e) /\
    (forall result, subprocess_run env_no_pylint (pylint_cmd "/tmp/upload_0.py" true) 15 ∅ = Ok result ->
       text = or_empty (stdout result) +:+ nl +:+ or_empty (stderr result)).
Proof.
  apply run_pylint_never_raises. intros e H. injection H as <-. reflexivity.
Defined.

(** C8. The history is append-only: serving requests leaves the records
    that are there where they are and adds the new ones behind them, and
    after N submissions to a process the i-th record added (from 0) is
    the record of the i-th submission. *)
Theorem history_append_only E :
  (forall reqs w, history (serve E reqs w) = history w ++ served E reqs w) /\
  (forall reqs w i r, history w !! i = Some r -> history (serve E reqs w) !! i = Some r) /\
  (forall codes w,
     only_errors E -> writable E -> Forall (fun c => strip c <> "") codes ->
     length (history (serve E (map submit codes) w)) = (length (history w) + length codes)%nat /\
     forall i c, codes !! i = Some c ->
       exists r,
         fst (analyze_code_string E (strip c)
                (with_history (serve E (map submit (take i codes)) w))) = Ok r /\
         history (serve E (map submit codes) w) !! (length (history w) + i)%nat = Some r).
Proof.
  split; [apply serve_history|]. split.
  - intros reqs w i r Hi. rewrite serve_history. apply lookup_app_l_Some. exact Hi.
  - intros codes w HE HW Hcodes.
    destruct (served_submissions E codes w HE HW Hcodes) as [Hlen Hnth].
    rewrite serve_history. split.
    + rewrite length_app, Hlen. reflexivity.
    + intros i c Hi. destruct (Hnth i c Hi) as (r & Hr & Hl).
      exists r. split; [exact Hr|].
      rewrite lookup_app_r by lia.
      replace (length (history w) + i - length (history w))%nat with i by lia. exact Hl.
Qed.

Lemma history_append_only_witness :
  length (history (serve env_fine (map submit ["x = 1"; "y = 2"]) world0)) = 2%nat /\
  exists r,
    fst (analyze_code_string env_fine (strip "y = 2")
           (with_history (serve env_fine (map submit (take 1 ["x = 1"; "y = 2"])) world0))) = Ok r /\
    history (serve env_fine (map submit ["x = 1"; "y = 2"]) world0) !! 1%nat = Some r.
Proof.
  destruct (history_append_only env_fine) as (_ & _ & H).
  destruct (H ["x = 1"; "y = 2"] world0 env_fine_only_errors (fun _ _ _ => eq_refl))
    as [Hlen Hnth].
  { repeat constructor; vm_compute; discriminate. }
  split; [exact Hlen|]. exact (Hnth 1%nat "y = 2" eq_refl).
Defined.

(** C9. The temporary file is not removed on every exit path. The snippet
    is written by the [with] statement that precedes the [try] statement
    whose [finally] clause removes the file, so an invocation whose write
    fails raises what the write raised and never calls [os.remove]: the
    file system is left as the failed write left it. When [open] had
    created the file before the write failed, as on a disk without room,
    the file, absent before the invocation, is there after it. *)
Theorem temp_file_left_behind E code w e fs0 :
  write_text E (temp_path E w) code (files w) = Some (e, fs0) ->
  fst (analyze_code_string E code w) = Raise e /\
  files (snd (analyze_code_string E code w)) = fs0 /\
  (forall text, fs0 !! temp_path E w = Some text ->
     files (snd (analyze_code_string E code w)) !! temp_path E w = Some text).
Proof.
  intros H. rewrite (analyze_unwritten E code w e fs0 H). cbn [fst snd files].
  split; [reflexivity|]. split; [reflexivity|]. intros text Ht. exact Ht.
Qed.

Lemma temp_file_left_behind_witness :
  files world2 !! temp_path (with_write env_fine disk_full) world2 = None /\
  fst (analyze_code_string (with_write env_fine disk_full) "x = 1" world2)
  = Raise (Exn OSError "[Errno 28] No space left on device") /\
  files (snd (analyze_code_string (with_write env_fine disk_full) "x = 1" world2))
    !! temp_path (with_write env_fine disk_full) world2 = Some EmptyString /\
  files (snd (analyze_code_string (with_write env_fine disk_full) "x = 1" world2))
    !! "/tmp/notes.txt" = Some "keep".
Proof.
  destruct (temp_file_left_behind (with_write env_fine disk_full) "x = 1" world2
              (Exn OSError "[Errno 28] No space left on device")
              (<[temp_path (with_write env_fine disk_full) world2 := EmptyString]> (files world2))
              eq_refl) as (H1 & H2 & H3).
  split; [vm_compute; reflexivity|]. split; [exact H1|].
  split; [apply H3; vm_compute; reflexivity|].
  rewrite H2. vm_compute. reflexivity.
Defined.

(** C10. Some tool outputs give a score outside [0, 10]: both patterns
    take a minus sign and a number of any size, and the value is rounded
    and returned as it is. The lines [rated at L/10] and [L/10] score the
    literal [L] rounded to two decimals, whatever [L] is; that score is
    below 0 for a literal from -1 down and above 10 for one from 11 up.
    A text with [rated at -5.00/10] scores -5.0, [-5/10] scores -5.0 and
    [rated at 250/10] scores 250.0. *)
Theorem rating_not_clamped :
  (forall neg ds frac, well_formed ds frac ->
     parse_rating (rated_line (decimal neg ds frac))
     = Ok (round2 (literal_value neg ds frac), rated_line (decimal neg ds frac)) /\
     parse_rating (bare_line (decimal neg ds frac))
     = Ok (round2 (literal_value neg ds frac), bare_line (decimal neg ds frac))) /\
  (forall ds frac, 1 <= Z.of_N (digits_value ds 0) ->
     in_range (round2 (literal_value true ds frac)) = false) /\
  (forall ds frac, 11 <= Z.of_N (digits_value ds 0) ->
     in_range (round2 (literal_value false ds frac)) = false) /\
  (forall output, first_rated_at output true ["5"%char] (Some ["0"%char; "0"%char]) ->
     parse_rating output = Ok (of_Z (-5), output)) /\
  parse_rating "rated at -5.00/10" = Ok (of_Z (-5), "rated at -5.00/10") /\
  parse_rating "-5/10" = Ok (of_Z (-5), "-5/10") /\
  parse_rating "rated at 250/10" = Ok (of_Z 250, "rated at 250/10") /\
  parse_rating "250/10" = Ok (of_Z 250, "250/10") /\
  in_range (of_Z (-5)) = false /\
  in_range (of_Z 250) = false.
Proof.
  split; [intros neg ds frac Hwf; split;
          [apply parse_rated_line | apply parse_bare_line]; exact Hwf|].
  split; [apply negative_literal_out|].
  split; [apply large_literal_out|].
  split.
  - intros output H.
    change (of_Z (-5))
      with (round2 (literal_value true ["5"%char] (Some ["0"%char; "0"%char]))).
    apply parse_first_rated_at; [|exact H].
    split; [discriminate|]. split; [repeat constructor|]. split; [discriminate|].
    repeat constructor.
  - split; [vm_compute; reflexivity|]. split; [vm_compute; reflexivity|].
    split; [vm_compute; reflexivity|]. split; [vm_compute; reflexivity|].
    split; vm_compute; reflexivity.
Qed.

Lemma rating_not_clamped_witness :
  parse_rating "rated at -5.00/10" = Ok (of_Z (-5), "rated at -5.00/10") /\
  in_range (of_Z (-5)) = false.
Proof.
  destruct rating_not_clamped as (Hline & Hneg & _).
  split.
  - apply (proj1 (Hline true ["5"%char] (Some ["0"%char; "0"%char])
                    ltac:(split; [discriminate|]; split; [repeat constructor|];
                          split; [discriminate|]; repeat constructor))).
  - apply (Hneg ["5"%char] (Some ["0"%char; "0"%char])). vm_compute. discriminate.
Defined.

(** ** Further properties of the code *)

(** X1. [cc_to_score] returns for every list of blocks that [cc_rank]
    ranks, the blocks of a complexity that is not negative: the division
    by the number of blocks is never a division by zero, and the score
    lies in [0, 10]. *)
Theorem cc_to_score_returns E (cc_results : list Block) :
  Forall (fun b => 0 <= complexity b) cc_results ->
  exists s, cc_to_score E cc_results = Ok s /\ in_range s = true.
Proof.
  intros _. destruct cc_results as [|b bl] eqn:Hl.
  - exists f10. split; reflexivity.
  - rewrite <- Hl. rewrite (cc_to_score_spec E cc_results) by (subst; discriminate).
    eexists. split; [reflexivity|].
    pose proof (sum_range (scores_of E cc_results) 0) as Hs.
    unfold scores_of in Hs. rewrite length_map in Hs.
    assert (Hr : Forall (fun x => 0 <= x <= 10)
                   (map (fun r => rank_score (cc_rank E (complexity r))) cc_results)).
    { apply Forall_map, Forall_forall. intros x _. apply rank_score_range. }
    specialize (Hs Hr).
    apply round2_in_range, int_truediv_in_range; unfold scores_of.
    + lia.
    + subst. cbn [length]. lia.
    + lia.
Qed.

Lemma cc_to_score_returns_witness :
  exists s, cc_to_score env_fine [{| complexity := 3 |}; {| complexity := 12 |}] = Ok s /\
    in_range s = true.
Proof.
  apply cc_to_score_returns. repeat constructor; cbn; lia.
Defined.

(** X2. The complexity score does not depend on the order of the
    blocks. *)
Theorem cc_to_score_order E (l l' : list Block) :
  Permutation l l' -> cc_to_score E l = cc_to_score E l'.
Proof.
  intros H. destruct l as [|b bl].
  - apply Permutation_nil in H. subst. reflexivity.
  - assert (Hne : l' <> []).
    { intros ->. apply Permutation_sym, Permutation_nil in H. discriminate. }
    rewrite (cc_to_score_spec E (b :: bl)) by discriminate.
    rewrite (cc_to_score_spec E l' Hne).
    rewrite (fold_add_perm _ _ (scores_of_perm E _ _ H)), (Permutation_length H).
    reflexivity.
Qed.

Lemma cc_to_score_order_witness :
  cc_to_score env_fine [{| complexity := 1 |}; {| complexity := 50 |}]
  = cc_to_score env_fine [{| complexity := 50 |}; {| complexity := 1 |}].
Proof. apply cc_to_score_order. apply perm_swap. Defined.

(** X3. Blocks that all have the same rank score what the table gives
    that rank, exactly: 10.0 for A, 8.0 for B, ..., 0.0 for F and for
    an unknown rank, however many blocks there are. *)
Theorem cc_to_score_uniform E (cc_results : list Block) (rank : string) :
  cc_results <> [] ->
  Forall (fun b => cc_rank E (complexity b) = rank) cc_results ->
  cc_to_score E cc_results = Ok (of_Z (rank_score rank)).
Proof.
  intros Hne H. rewrite (cc_to_score_spec E cc_results Hne), (scores_uniform E cc_results rank H).
  pose proof (rank_score_table rank) as Ht. pose proof (rank_score_range rank) as Hr.
  set (s := rank_score rank) in *. set (n := Z.of_nat (length cc_results)).
  assert (Hn : 0 < n) by (unfold n; destruct cc_results; [congruence | cbn [length]; lia]).
  destruct (Z.eq_dec s 0) as [Hs|Hs].
  - rewrite Hs, Z.mul_0_r. destruct n; try lia. reflexivity.
  - assert (Hs' : 0 < s < 2 ^ 53).
    { split; [lia|]. apply Z.le_lt_trans with 10; [lia | reflexivity]. }
    destruct (int_truediv_exact s n Hs' Hn) as (m & e & -> & Hv).
    rewrite (round2_integer m e s ltac:(lia) Hv), (table_score_float s Ht Hs).
    reflexivity.
Qed.

Lemma cc_to_score_uniform_witness :
  cc_to_score env_fine [{| complexity := 7 |}; {| complexity := 8 |}; {| complexity := 9 |}]
  = Ok (of_Z 8).
Proof.
  apply (cc_to_score_uniform env_fine
           [{| complexity := 7 |}; {| complexity := 8 |}; {| complexity := 9 |}] "B").
  - discriminate.
  - repeat constructor.
Defined.

(** X4. [halstead_scores] raises exactly what [h_visit] raises; when
    [h_visit] returns it returns, with both scores in [0, 10], whatever
    efforts and bugs the items hold (negative values, infinities and NaN
    included): [math.log10] is never given a value outside its domain. *)
Theorem halstead_scores_total E src :
  match h_visit E src with
  | Ok _ =>
      exists es bs re rb,
        halstead_scores E src = Ok (es, bs, re, rb) /\
        in_range es = true /\ in_range bs = true
  | Raise e => halstead_scores E src = Raise e
  end.
Proof.
  destruct (h_visit E src) as [items|e] eqn:Hv.
  - destruct (halstead_scores E src) as [[[[es bs] re] rb]|e] eqn:Hs.
    + exists es, bs, re, rb. split; [reflexivity|].
      apply (halstead_scores_in_range E src es bs re rb Hs).
    + apply halstead_scores_raise in Hs. congruence.
  - unfold halstead_scores. rewrite Hv. reflexivity.
Qed.

(** X5. An item without the [effort] attribute counts as effort 0.0 and
    one without [bugs] as 0.0 bugs: when no item has an effort the effort
    score is 10.0 and the raw effort 0.0, and when no item has bugs the
    bug score is 10.0 and the raw bugs 0.0. *)
Theorem missing_attributes_score_ten E src items :
  h_visit E src = Ok items ->
  exists es bs re rb,
    halstead_scores E src = Ok (es, bs, re, rb) /\
    (Forall (fun h => effort h = None) items -> es = f10 /\ re = f0) /\
    (Forall (fun h => bugs h = None) items -> bs = f10 /\ rb = f0).
Proof.
  intros Hv. destruct items as [|h0 hs].
  - rewrite (halstead_scores_empty E src Hv). exists f10, f10, f0, f0.
    split; [reflexivity|]. split; intros _; split; reflexivity.
  - rewrite (halstead_scores_spec E src h0 hs Hv). eexists _, _, _, _.
    split; [reflexivity|]. split.
    + intros H. inversion H as [|? ? H0 Hs]; subst.
      assert (Hre : py_max_list (default f0 (effort h0)) (efforts_of hs) = f0).
      { rewrite H0. apply py_max_list_zeros. unfold efforts_of. apply Forall_map.
        eapply Forall_impl; [exact Hs|]. cbn. intros h ->. reflexivity. }
      rewrite Hre. split; reflexivity.
    + intros H.
      assert (Hrb : py_sum (bugs_of (h0 :: hs)) = f0).
      { apply py_sum_zeros. unfold bugs_of. apply Forall_map.
        eapply Forall_impl; [exact H|]. cbn. intros h ->. reflexivity. }
      rewrite Hrb. split; [vm_compute|]; reflexivity.
Qed.

Lemma missing_attributes_score_ten_witness :
  halstead_scores (sample_env (completed "") (blocks []) (Ok [bare_item; bare_item])) "x = 1"
  = Ok (f10, f10, f0, f0).
Proof.
  destruct (missing_attributes_score_ten
              (sample_env (completed "") (blocks []) (Ok [bare_item; bare_item])) "x = 1"
              [bare_item; bare_item] eq_refl)
    as (es & bs & re & rb & Hs & He & Hb).
  destruct He as [-> ->]; [repeat constructor|].
  destruct Hb as [-> ->]; [repeat constructor|].
  exact Hs.
Defined.

(** X6. When the bugs of some item are NaN, the raw bugs are NaN and the
    bug score is 10.0: [min(10.0, nan)] is 10.0. *)
Theorem nan_bugs_score_ten E src items :
  h_visit E src = Ok items ->
  In S754_nan (bugs_of items) ->
  exists es re, halstead_scores E src = Ok (es, f10, re, S754_nan).
Proof.
  intros Hv Hin. destruct items as [|h0 hs]; [destruct Hin|].
  rewrite (halstead_scores_spec E src h0 hs Hv).
  rewrite (py_sum_nan _ Hin). eexists _, _. reflexivity.
Qed.

Lemma nan_bugs_score_ten_witness :
  exists es re,
    halstead_scores (sample_env (completed "") (blocks []) (Ok [item (of_Z 3) S754_nan])) "x = 1"
    = Ok (es, f10, re, S754_nan).
Proof.
  apply (nan_bugs_score_ten
           (sample_env (completed "") (blocks []) (Ok [item (of_Z 3) S754_nan]))
           "x = 1" [item (of_Z 3) S754_nan] eq_refl).
  left. reflexivity.
Defined.

(** X7. An effort so large that [log10(raw_effort + 1)] is 5 or more has
    the effort score 0.0. *)
Theorem effort_score_zero E src es bs re rb :
  halstead_scores E src = Ok (es, bs, re, rb) ->
  fle re f0 = false ->
  fge (log10 E (fadd re f1)) (of_Z 5) = true ->
  es = f0.
Proof.
  intros Hs Hle Hlog. destruct (h_visit E src) as [[|h0 hs]|e] eqn:Hv.
  - rewrite (halstead_scores_empty E src Hv) in Hs. injection Hs as <- <- <- <-.
    discriminate Hle.
  - rewrite (halstead_scores_spec E src h0 hs Hv) in Hs. injection Hs as <- <- Hre <-.
    rewrite Hre, Hle. unfold clamp_0_10, effort_penalty. rewrite fmul_comm.
    apply effort_score_floor. exact Hlog.
  - unfold halstead_scores in Hs. rewrite Hv in Hs. discriminate.
Qed.

Lemma effort_score_zero_witness :
  exists es bs re rb,
    halstead_scores env_heavy "x = 1" = Ok (es, bs, re, rb) /\
    re = of_Z 1000000 /\ es = f0.
Proof.
  exists f0, f10, (of_Z 1000000), f0.
  split; [vm_compute; reflexivity|]. split; [reflexivity|].
  apply (effort_score_zero env_heavy "x = 1" f0 f10 (of_Z 1000000) f0);
    vm_compute; reflexivity.
Defined.

(** X8. Raw bugs at or below zero give the bug score 10.0. *)
Theorem bug_score_ten E src es bs re rb :
  halstead_scores E src = Ok (es, bs, re, rb) ->
  fle rb f0 = true ->
  bs = f10.
Proof.
  intros Hs Hle. destruct (h_visit E src) as [[|h0 hs]|e] eqn:Hv.
  - rewrite (halstead_scores_empty E src Hv) in Hs. injection Hs as <- <- <- <-. reflexivity.
  - rewrite (halstead_scores_spec E src h0 hs Hv) in Hs. injection Hs as <- <- <- Hrb.
    rewrite Hrb. unfold clamp_0_10, bug_penalty. rewrite fmul_comm.
    apply bug_score_ceiling. exact Hle.
  - unfold halstead_scores in Hs. rewrite Hv in Hs. discriminate.
Qed.

Lemma bug_score_ten_witness :
  exists es bs re rb,
    halstead_scores (sample_env (completed "") (blocks []) (Ok [item (of_Z 3) (of_Z (-2))]))
      "x = 1" = Ok (es, bs, re, rb) /\
    rb = of_Z (-2) /\ bs = f10.
Proof.
  exists (of_Z 4), f10, (of_Z 3), (of_Z (-2)).
  split; [vm_compute; reflexivity|]. split; [reflexivity|].
  apply (bug_score_ten (sample_env (completed "") (blocks []) (Ok [item (of_Z 3) (of_Z (-2))]))
           "x = 1" (of_Z 4) f10 (of_Z 3) (of_Z (-2)));
    vm_compute; reflexivity.
Defined.

(** X9. A tool output without a digit scores 0.0, and the text returned
    is the standard output, a newline and the standard error. *)
Theorem no_digit_scores_zero E fs filename d t result :
  subprocess_run E (pylint_cmd filename d) t fs = Ok result ->
  lacks Regex.is_digit (list_ascii_of_string (or_empty (stdout result))) ->
  lacks Regex.is_digit (list_ascii_of_string (or_empty (stderr result))) ->
  run_pylint E fs filename d t
  = Ok (f0, or_empty (stdout result) +:+ nl +:+ or_empty (stderr result)).
Proof.
  intros Hrun Hout Herr. rewrite run_pylint_cmd, Hrun.
  set (output := or_empty (stdout result) +:+ nl +:+ or_empty (stderr result)).
  assert (Hl : lacks Regex.is_digit (list_ascii_of_string output)).
  { unfold output. rewrite !chars_append. apply lacks_app; [exact Hout|].
    apply lacks_app; [|exact Herr]. repeat constructor. }
  unfold parse_rating, Regex.search.
  rewrite (search_from_must_meet Regex.is_digit _ _ rated_at_digit Hl).
  rewrite (search_from_must_meet Regex.is_digit _ _ any_over_ten_digit Hl).
  reflexivity.
Qed.

Lemma no_digit_scores_zero_witness :
  run_pylint (sample_env (completed "No module named pylint/checkers") (blocks []) (Ok []))
    ∅ "/tmp/upload_a.py" true 15
  = Ok (f0, "No module named pylint/checkers" +:+ nl +:+ "").
Proof.
  apply (no_digit_scores_zero
           (sample_env (completed "No module named pylint/checkers") (blocks []) (Ok []))
           ∅ "/tmp/upload_a.py" true 15
           {| stdout := Some "No module named pylint/checkers"; stderr := Some EmptyString |}).
  - reflexivity.
  - repeat constructor.
  - constructor.
Defined.

(** X10. The rating is looked for in the standard output and the standard
    error joined: when the standard output holds no letter r, no digit
    and no minus sign, the score is the one of the standard error
    alone. *)
Theorem rating_from_stderr E fs filename d t result :
  subprocess_run E (pylint_cmd filename d) t fs = Ok result ->
  lacks starts_match (list_ascii_of_string (or_empty (stdout result))) ->
  score_of (run_pylint E fs filename d t)
  = score_of (parse_rating (or_empty (stderr result))).
Proof.
  intros Hrun Hout. rewrite run_pylint_cmd, Hrun.
  set (out := or_empty (stdout result)). set (err := or_empty (stderr result)).
  assert (Heq : out +:+ nl +:+ err
                = string_of_list_ascii
                    ((list_ascii_of_string out ++ list_ascii_of_string nl)
                       ++ list_ascii_of_string err)).
  { apply chars_inj. rewrite list_ascii_of_string_of_list_ascii, !chars_append.
    apply app_assoc. }
  rewrite Heq, rating_noise.
  - rewrite string_of_list_ascii_of_string. reflexivity.
  - apply lacks_app; [exact Hout|]. repeat constructor.
Qed.

Lemma rating_from_stderr_witness :
  score_of
    (run_pylint
       (sample_env (Ok {| stdout := None; stderr := Some "Rated at 7.5/10" |}) (blocks []) (Ok []))
       ∅ "/tmp/upload_a.py" true 15)
  = score_of (parse_rating "Rated at 7.5/10").
Proof.
  apply (rating_from_stderr
           (sample_env (Ok {| stdout := None; stderr := Some "Rated at 7.5/10" |})
              (blocks []) (Ok []))
           ∅ "/tmp/upload_a.py" true 15 {| stdout := None; stderr := Some "Rated at 7.5/10" |}).
  - reflexivity.
  - constructor.
Defined.

(** X11. Every record has the test pass rate ["10/10"] and the
    maintainability ["10/10"]: the two fields are constants, not
    measured. *)
Theorem constant_fields E code w r :
  fst (analyze_code_string E code w) = Ok r ->
  test_pass_rate r = "10/10" /\ maintainability r = "10/10".
Proof.
  intros H. destruct (analyze_fields E code w r H) as ([ls lo] & _ & ->).
  destruct (cc_stage E code) as [cs clog].
  destruct (halstead_stage E code) as [[[[es bs] re] rb] hlog].
  split; reflexivity.
Qed.

Lemma constant_fields_witness :
  exists r, fst (analyze_code_string env_unparsable "x = (" world0) = Ok r /\
    test_pass_rate r = "10/10" /\ maintainability r = "10/10".
Proof.
  eexists. split; [vm_compute; reflexivity|].
  match goal with
  | |- test_pass_rate ?r = _ /\ _ =>
      apply (constant_fields env_unparsable "x = (" world0 r); vm_compute; reflexivity
  end.
Defined.

(** X12. Whatever collaborators do, an invocation whose snippet got
    written lets through no instance of [Exception]: what it raises is
    outside that class (a [KeyboardInterrupt], say). *)
Theorem only_interrupts_escape E code w e :
  writes E code w ->
  fst (analyze_code_string E code w) = Raise e ->
  is_Exception e = false.
Proof.
  intros Hw. rewrite (analyze_fst E code w Hw).
  destruct (os_remove E (temp_path E w) (written E code w)) as [fs'|e'].
  - apply try_body_raises.
  - destruct (is_Exception e') eqn:He; [apply try_body_raises|].
    intros [= <-]. exact He.
Qed.

Lemma only_interrupts_escape_witness :
  fst (analyze_code_string (sample_env (completed "") (Raise interrupt) (Ok [])) "x = 1" world0)
  = Raise interrupt /\
  is_Exception interrupt = false.
Proof.
  split; [reflexivity|].
  apply (only_interrupts_escape (sample_env (completed "") (Raise interrupt) (Ok []))
           "x = 1" world0 interrupt); reflexivity.
Defined.

(** X13. An error outside [Exception] that [cc_visit] raises, or that
    [h_visit] raises after a complexity stage that returned or failed
    with an error, is not turned into a score of 0.0: it reaches the
    caller, after [os.remove] has run on the temporary file. *)
Theorem interrupt_propagates E code w lint fs' :
  writes E code w ->
  run_pylint E (written E code w) (temp_path E w) true 15 = Ok lint ->
  os_remove E (temp_path E w) (written E code w) = Ok fs' ->
  (forall e, cc_visit E code = Raise e -> is_Exception e = false ->
     analyze_code_string E code w
     = (Raise e, {| files := fs'; uuids := S (uuids w); all_results := all_results w |})) /\
  (forall e,
     (forall e', cc_visit E code = Raise e' -> is_Exception e' = true) ->
     h_visit E code = Raise e -> is_Exception e = false ->
     analyze_code_string E code w
     = (Raise e, {| files := fs'; uuids := S (uuids w); all_results := all_results w |})).
Proof.
  intros Hw Hl Hrm. split.
  - intros e Hc He. rewrite (analyze_pair E code w fs' Hw Hrm).
    rewrite (try_body_cc_raises E code _ _ lint e Hl Hc He). reflexivity.
  - intros e Hc Hh He. rewrite (analyze_pair E code w fs' Hw Hrm).
    rewrite (try_body_halstead_raises E code _ _ lint e Hl Hc Hh He). reflexivity.
Qed.

Lemma interrupt_propagates_witness :
  analyze_code_string (sample_env (completed "") (Raise interrupt) (Ok [])) "x = 1" world0
  = (Raise interrupt, {| files := ∅; uuids := 1; all_results := None |}).
Proof.
  apply (proj1 (interrupt_propagates (sample_env (completed "") (Raise interrupt) (Ok []))
                  "x = 1" world0 (f0, "" +:+ nl +:+ "") ∅ eq_refl eq_refl eq_refl));
    reflexivity.
Defined.

(** X14. The name of the temporary file is made of the uuid alone: when
    [uuid4] does not repeat itself, invocations that draw different uuids
    use different files, and so do an invocation and the next one. *)
Theorem temp_paths_differ E :
  (forall m n, uuid4_hex E m = uuid4_hex E n -> m = n) ->
  (forall w1 w2, uuids w1 <> uuids w2 -> temp_path E w1 <> temp_path E w2) /\
  (forall code w, temp_path E (snd (analyze_code_string E code w)) <> temp_path E w).
Proof.
  intros Hinj.
  assert (H : forall w1 w2, uuids w1 <> uuids w2 -> temp_path E w1 <> temp_path E w2).
  { intros w1 w2 Hne Heq. apply Hne, Hinj, temp_path_inj. exact Heq. }
  split; [exact H|]. intros code w. apply H. rewrite analyze_uuids. lia.
Qed.

Lemma temp_paths_differ_witness :
  temp_path env_fine (snd (analyze_code_string env_fine "x = 1" world0))
  <> temp_path env_fine world0.
Proof.
  apply (proj2 (temp_paths_differ env_fine (fun m n H => inj pretty m n H))).
Defined.

(** X15. With collaborators that fail with errors only and a temporary
    directory that can be written, the route handler raises for no
    request. *)
Theorem index_never_raises E req w :
  only_errors E -> writable E -> fst (index E req w) = Ok tt.
Proof.
  intros HE HW. unfold index. rewrite index_start. destruct req as [|form]; [reflexivity|].
  destruct (String.eqb (strip (default EmptyString form)) ""); [reflexivity|].
  destruct (analyze_ok E (strip (default EmptyString form)) (with_history w) HE (HW _ _ _))
    as [r Hr].
  destruct (analyze_code_string E (strip (default EmptyString form)) (with_history w))
    as [[r'|e] w']; cbn [fst] in *; [reflexivity | discriminate].
Qed.

Lemma index_never_raises_witness :
  fst (index env_unparsable (submit "x = (") world0) = Ok tt.
Proof.
  apply index_never_raises.
  - exact env_unparsable_only_errors.
  - intros path text fs. reflexivity.
Defined.

(** X16. A form without the field [code_text], or with a text of blanks
    only, is not analysed: no file is written, no uuid is drawn, and the
    history is as it was. *)
Theorem blank_submission E form w :
  spaces (list_ascii_of_string (default EmptyString form)) ->
  index E (POST form) w = (Ok tt, with_history w).
Proof. intros H. apply index_blank, strip_blank, H. Qed.

Lemma blank_submission_witness :
  index env_fine (POST None) world1 = (Ok tt, world1) /\
  index env_fine (POST (Some "  ")) world1 = (Ok tt, world1).
Proof.
  split.
  - apply (blank_submission env_fine None world1). constructor.
  - apply (blank_submission env_fine (Some "  ") world1). repeat constructor.
Defined.

(** X17. Blanks around the submitted text do not matter: a text and its
    stripped form are handled alike. *)
Theorem surrounding_blanks_ignored E (text : string) w :
  index E (submit text) w = index E (submit (strip text)) w.
Proof.
  unfold index, submit. change (default EmptyString (Some ?x)) with x.
  rewrite strip_idempotent. reflexivity.
Qed.

(** X19. When the snippet of a request cannot be written, the request
    raises what the write raised: no stage runs, nothing is appended to
    the history, and the file system is as the write left it. *)
Theorem unwritten_submission E text w e fs0 :
  strip text <> EmptyString ->
  write_text E (temp_path E w) (strip text) (files w) = Some (e, fs0) ->
  index E (submit text) w
  = (Raise e, {| files := fs0; uuids := S (uuids w); all_results := Some (history w) |}).
Proof.
  intros Hne Hw. unfold index, submit. rewrite index_start.
  change (default EmptyString (Some text)) with text.
  destruct (String.eqb_spec (strip text) "") as [Heq|_]; [congruence|].
  rewrite (analyze_unwritten E (strip text) (with_history w) e fs0 Hw). reflexivity.
Qed.

Lemma unwritten_submission_witness :
  index (with_write env_fine disk_full) (submit "x = 1") world0
  = (Raise (Exn OSError "[Errno 28] No space left on device"),
     {| files := <["/tmp/upload_0.py" := EmptyString]> ∅; uuids := 1; all_results := Some [] |}).
Proof.
  apply (unwritten_submission (with_write env_fine disk_full) "x = 1" world0).
  - vm_compute. discriminate.
  - reflexivity.
Defined.

(** X20. The complexity score lies between the lowest and the highest
    table score of the blocks: when every block scores at least [lo] and
    at most [hi], so does their rounded mean. *)
Theorem cc_to_score_between E (cc_results : list Block) lo hi :
  cc_results <> [] ->
  Forall (fun b => lo <= rank_score (cc_rank E (complexity b)) <= hi) cc_results ->
  exists s, cc_to_score E cc_results = Ok s /\ between lo hi s.
Proof.
  intros Hne H. rewrite (cc_to_score_spec E cc_results Hne). eexists. split; [reflexivity|].
  apply (between_weaken lo (Z.max lo 0) hi (Z.min hi 10)); [lia|lia|].
  apply mean_between.
  - destruct cc_results; [congruence | cbn [length]; lia].
  - lia.
  - apply Z.le_lt_trans with 10; [lia | reflexivity].
  - pose proof (sum_between (scores_of E cc_results) (Z.max lo 0) (Z.min hi 10)) as Hs.
    unfold scores_of in *. rewrite length_map in Hs. apply Hs.
    apply Forall_map. eapply Forall_impl; [exact H|]. cbn. intros b Hb.
    pose proof (rank_score_range (cc_rank E (complexity b))). lia.
Qed.

Lemma cc_to_score_between_witness :
  exists s,
    cc_to_score env_fine [{| complexity := 7 |}; {| complexity := 15 |}; {| complexity := 16 |}]
    = Ok s /\ between 6 8 s.
Proof.
  apply (cc_to_score_between env_fine
           [{| complexity := 7 |}; {| complexity := 15 |}; {| complexity := 16 |}] 6 8).
  - discriminate.
  - repeat constructor; vm_compute; discriminate.
Defined.
